(** * PISA query core: top-k queue, query requests, live blocks, raw cursors

    A shallow embedding of the parts of the PISA search engine that its
    specification makes claims about:

    - [include/pisa/topk_queue.hpp]  (module [TopK]),
    - [include/pisa/query/live_block_computation.hpp]  (module [LiveBlock]),
    - [include/pisa/v1/raw_cursor.hpp]  (module [RawCursor]),
    - [src/query.cpp]  (modules [Flags], [Query], [Json], [Reader]).

    Conventions.  Unsigned machine integers are [N] (or [Z] where the code
    mixes them with bit operations), with the wrap-around written out where
    the code can overflow.  A C++ [float] is an IEEE-754 binary32 value,
    a [double] a binary64 value, both as [spec_float] with the operations of
    the standard library's [SpecFloat] at the matching precision.  Code that
    can throw returns an [outcome]; reading outside an object, for which C++
    defines no behaviour, is the outcome [Undefined]. *)

From Stdlib Require Import ZArith NArith List Bool Lia String Ascii PeanoNat.
From Stdlib Require Import ZifyNat ZifyN.
From Stdlib Require Import Floats.SpecFloat.
From stdpp Require Import base option list sorting.
Import ListNotations.

Set Default Proof Using "Type".

(* ===================================================================== *)
(** * Part I: definitions                                                 *)
(* ===================================================================== *)

(** ** Floating point: binary32 and binary64 *)

Module Float.

(** [float] is binary32: 24 bits of precision, infinities at exponent 128. *)
Definition prec32 : Z := 24.
Definition emax32 : Z := 128.
(** [double] is binary64. *)
Definition prec64 : Z := 53.
Definition emax64 : Z := 1024.

(** The literal [0], [0.0] and [0.0F]: positive zero. *)
Definition zero : spec_float := S754_zero false.

(** [a < b] and [a > b] of C++; both are false when an operand is NaN. *)
Definition lt (a b : spec_float) : bool := SFltb a b.
Definition gt (a b : spec_float) : bool := SFltb b a.

(** Implicit conversion [float -> double]: exact. *)
Definition to_double (x : spec_float) : spec_float :=
  match x with
  | S754_finite s m e => binary_normalize prec64 emax64 (cond_Zopp s (Zpos m)) e s
  | _ => x
  end.

(** Narrowing conversion [double -> float]: round to nearest, ties to even. *)
Definition of_double (x : spec_float) : spec_float :=
  match x with
  | S754_finite s m e => binary_normalize prec32 emax32 (cond_Zopp s (Zpos m)) e s
  | _ => x
  end.

(** [static_cast<float>(z)] for an integer [z]. *)
Definition of_Z (z : Z) : spec_float :=
  binary_normalize prec32 emax32 z 0 false.
Definition of_N (n : N) : spec_float := of_Z (Z.of_N n).

(** The literal [1.0] stored into a [float]. *)
Definition one : spec_float := of_N 1.

(** The [double] literal [0.0001]: the binary64 value nearest to 1/10000,
    [0x1.a36e2eb1c432dp-14]. *)
Definition lit_0_0001 : spec_float := S754_finite false 7378697629483821 (-66).

(** [std::max(a, b)] is [(a < b) ? b : a]. *)
Definition std_max (a b : spec_float) : spec_float := if lt a b then b else a.

(** Not a NaN. *)
Definition ordered (x : spec_float) : Prop :=
  match x with S754_nan => False | _ => True end.

End Float.

#[global] Instance spec_float_inhabited : Inhabited spec_float :=
  populate Float.zero.

(** ** The heap algorithms of <algorithm>

    [std::push_heap] and [std::pop_heap] as libstdc++ implements them, on a
    vector modelled as a list that is read and written by index.  The loops
    recurse on a fuel that is at least the number of iterations the C++ loop
    can make ([holeIndex] strictly decreases in [__push_heap], strictly
    increases below [len] in [__adjust_heap]). *)

Module std.
Section heap.
Context {A : Type} `{Inhabited A} (comp : A → A → bool).

(** [__push_heap(first, holeIndex, topIndex, value, comp)]:
<<
  parent = (holeIndex - 1) / 2;
  while (holeIndex > topIndex && comp(first + parent, value)) {
      *(first + holeIndex) = *(first + parent);
      holeIndex = parent;
      parent = (holeIndex - 1) / 2;
  }
  *(first + holeIndex) = value;
>> *)
Fixpoint __push_heap (fuel : nat) (v : list A) (holeIndex topIndex : nat)
    (value : A) : list A :=
  let parent := (holeIndex - 1) / 2 in
  match fuel with
  | S fuel' =>
      if (topIndex <? holeIndex) && comp (v !!! parent) value
      then __push_heap fuel' (<[holeIndex := v !!! parent]> v) parent topIndex value
      else <[holeIndex := value]> v
  | O => <[holeIndex := value]> v
  end.

(** [push_heap(first, last, comp)]: the new element is the last one. *)
Definition push_heap (v : list A) : list A :=
  match length v with
  | O => v
  | S n => __push_heap (S n) v n 0 (v !!! n)
  end.

(** The first loop of [__adjust_heap]: the hole goes down along the children
    that [comp] prefers.
<<
  while (secondChild < (len - 1) / 2) {
      secondChild = 2 * (secondChild + 1);
      if (comp(first + secondChild, first + (secondChild - 1)))
          secondChild--;
      *(first + holeIndex) = *(first + secondChild);
      holeIndex = secondChild;
  }
>> *)
Fixpoint __adjust_heap_descend (fuel : nat) (v : list A)
    (holeIndex secondChild len : nat) : list A * nat * nat :=
  match fuel with
  | S fuel' =>
      if secondChild <? (len - 1) / 2 then
        let secondChild := 2 * (secondChild + 1) in
        let secondChild :=
          if comp (v !!! secondChild) (v !!! (secondChild - 1))
          then secondChild - 1 else secondChild in
        __adjust_heap_descend fuel' (<[holeIndex := v !!! secondChild]> v)
          secondChild secondChild len
      else (v, holeIndex, secondChild)
  | O => (v, holeIndex, secondChild)
  end.

(** [__adjust_heap(first, holeIndex, len, value, comp)], called with
    [1 <= len]:
<<
  topIndex = holeIndex;  secondChild = holeIndex;
  (the loop above)
  if ((len & 1) == 0 && secondChild == (len - 2) / 2) {
      secondChild = 2 * (secondChild + 1);
      *(first + holeIndex) = *(first + (secondChild - 1));
      holeIndex = secondChild - 1;
  }
  __push_heap(first, holeIndex, topIndex, value, comp);
>> *)
Definition __adjust_heap (v : list A) (holeIndex len : nat) (value : A) : list A :=
  let topIndex := holeIndex in
  let '(v, holeIndex, secondChild) :=
    __adjust_heap_descend len v holeIndex holeIndex len in
  let '(v, holeIndex) :=
    if Nat.even len && (secondChild =? (len - 2) / 2)
    then let secondChild := 2 * (secondChild + 1) in
         (<[holeIndex := v !!! (secondChild - 1)]> v, secondChild - 1)
    else (v, holeIndex) in
  __push_heap (S holeIndex) v holeIndex topIndex value.

(** [pop_heap(first, last, comp)]:
<<
  if (last - first > 1) {
      --last;
      value = *last;  *last = *first;             // __pop_heap
      __adjust_heap(first, 0, last - first, value, comp);
  }
>> *)
Definition pop_heap (v : list A) : list A :=
  if 1 <? length v then
    let last := length v - 1 in
    let value := v !!! last in
    __adjust_heap (<[last := v !!! 0]> v) 0 last value
  else v.

(** [std::is_heap] on the first [len] elements: [comp] prefers no element
    to its parent. *)
Definition is_heap_until (len : nat) (v : list A) : Prop :=
  ∀ i, 0 < i < len → comp (v !!! ((i - 1) / 2)) (v !!! i) = false.

(** [sort_heap(first, last, comp)]:
<<
  while (last - first > 1) {
      --last;
      value = *last;  *last = *first;             // __pop_heap(first, last, last)
      __adjust_heap(first, 0, last - first, value, comp);
  }
>>
    [last] decreases in every iteration, so [length v] is fuel enough. *)
Fixpoint __sort_heap (fuel : nat) (v : list A) (last : nat) : list A :=
  match fuel with
  | S fuel' =>
      if 1 <? last then
        let last := last - 1 in
        let value := v !!! last in
        __sort_heap fuel' (__adjust_heap (<[last := v !!! 0]> v) 0 last value) last
      else v
  | O => v
  end.

Definition sort_heap (v : list A) : list A := __sort_heap (length v) v (length v).

End heap.

(** [lower_bound(first, last, val, comp)], a binary search:
<<
  len = last - first;
  while (len > 0) {
      half = len >> 1;  middle = first + half;
      if (comp(middle, val)) { first = middle + 1;  len = len - half - 1; }
      else len = half;
  }
  return first;
>>
    [len] at least halves in every iteration. *)
Fixpoint __lower_bound {A B : Type} `{Inhabited A} (fuel : nat) (v : list A)
    (first len : nat) (val : B) (comp : A → B → bool) : nat :=
  match fuel with
  | S fuel' =>
      if 0 <? len then
        let half := len / 2 in
        let middle := first + half in
        if comp (v !!! middle) val
        then __lower_bound fuel' v (middle + 1) (len - half - 1) val comp
        else __lower_bound fuel' v first half val comp
      else first
  | O => first
  end.

Definition lower_bound {A B : Type} `{Inhabited A} (v : list A) (val : B)
    (comp : A → B → bool) : nat :=
  __lower_bound (length v) v 0 (length v) val comp.

End std.

(** ** [topk_queue] (topk_queue.hpp) *)

Module TopK.

(** [entry_type = std::pair<float, uint64_t>]: (score, docid). *)
Definition entry_type : Type := spec_float * N.

Record topk_queue : Type := Build {
  m_threshold : spec_float;
  m_k : N;
  m_q : list entry_type
}.

(** [explicit topk_queue(uint64_t k) : m_threshold(0), m_k(k)]. *)
Definition make (k : N) : topk_queue :=
  {| m_threshold := Float.zero; m_k := k; m_q := [] |}.

(** [min_heap_order(lhs, rhs)] is [lhs.first > rhs.first]. *)
Definition min_heap_order (lhs rhs : entry_type) : bool :=
  Float.gt lhs.1 rhs.1.

(** [would_enter(score)] is [score > m_threshold]. *)
Definition would_enter (score : spec_float) (q : topk_queue) : bool :=
  Float.gt score (m_threshold q).

Definition threshold (q : topk_queue) : spec_float := m_threshold q.
Definition capacity (q : topk_queue) : N := m_k q.
Definition size (q : topk_queue) : N := N.of_nat (length (m_q q)).

(** [m_q.front()]: [None] when the vector is empty (C++ leaves reading the
    front of an empty vector undefined). *)
Definition front (v : list entry_type) : option entry_type := head v.

(** [insert(score, docid)].  The result is [None] exactly when the code
    reads [m_q.front()] of an empty vector; otherwise the returned flag and
    the queue after the call. *)
Definition insert (score : spec_float) (docid : N) (q : topk_queue)
    : option (bool * topk_queue) :=
  if negb (would_enter score q) then Some (false, q)
  else
    let v := m_q q ++ [(score, docid)] in
    if (N.of_nat (length v) <=? m_k q)%N then
      let v := std.push_heap min_heap_order v in
      if (N.of_nat (length v) =? m_k q)%N then
        e ← front v;
        Some (true, {| m_threshold := e.1; m_k := m_k q; m_q := v |})
      else Some (true, {| m_threshold := m_threshold q; m_k := m_k q; m_q := v |})
    else
      let v := removelast (std.pop_heap min_heap_order v) in
      e ← front v;
      Some (true, {| m_threshold := e.1; m_k := m_k q; m_q := v |}).

(** [set_threshold(t)]: [m_threshold = std::max(t - 0.0001, 0.0)], computed
    in [double] and stored into the [float] member. *)
Definition relax (t : spec_float) : spec_float :=
  Float.of_double
    (Float.std_max
       (SFsub Float.prec64 Float.emax64 (Float.to_double t) Float.lit_0_0001)
       Float.zero).

Definition set_threshold (t : spec_float) (q : topk_queue) : topk_queue :=
  {| m_threshold := relax t; m_k := m_k q; m_q := m_q q |}.

(** A queue as a driver sets it up: constructed, then possibly given a
    threshold hint. *)
Definition start (k : N) (hint : option spec_float) : topk_queue :=
  match hint with
  | None => make k
  | Some t => set_threshold t (make k)
  end.

(** [clear()]. *)
Definition clear (q : topk_queue) : topk_queue :=
  {| m_threshold := Float.zero; m_k := m_k q; m_q := [] |}.

(** A sequence of [insert] calls; [None] as soon as one of them is
    undefined. *)
Fixpoint insert_all (ops : list (spec_float * N)) (q : topk_queue)
    : option topk_queue :=
  match ops with
  | [] => Some q
  | (score, docid) :: ops' =>
      r ← insert score docid q; insert_all ops' r.2
  end.

(** [t] is the minimum score in the queue: the score of an entry, and no
    entry has a smaller one. *)
Definition is_min_score (t : spec_float) (v : list entry_type) : Prop :=
  (∃ d, (t, d) ∈ v) ∧ ∀ e, e ∈ v → SFleb t e.1 = true.

(** [insert(score)] is [insert(score, 0)]. *)
Definition insert_score (score : spec_float) (q : topk_queue)
    : option (bool * topk_queue) :=
  insert score 0 q.

(** [finalize()]:
<<
  m_threshold = size() == capacity() ? m_q.front().first : 0.0;
  std::sort_heap(m_q.begin(), m_q.end(), min_heap_order);
  size_t size = std::lower_bound(m_q.begin(), m_q.end(), 0,
                    [](std::pair<float, uint64_t> l, float r) { return l.first > r; })
      - m_q.begin();
  m_q.resize(size);
>>
    The conditional is computed in [double], which holds every [float]
    exactly; the [0] searched for reaches the comparison as the [float]
    zero.  The result is [None] when [m_q.front()] is read while the vector
    is empty. *)
Definition finalize (q : topk_queue) : option topk_queue :=
  t ← (if (size q =? capacity q)%N
       then e ← front (m_q q); Some (Float.of_double (Float.to_double e.1))
       else Some (Float.of_double Float.zero));
  let v := std.sort_heap min_heap_order (m_q q) in
  let size := std.lower_bound v Float.zero (λ l r, Float.gt l.1 r) in
  Some {| m_threshold := t; m_k := m_k q; m_q := take size v |}.

(** [topk()]. *)
Definition topk (q : topk_queue) : list entry_type := m_q q.

End TopK.

(** ** Live-block bitmap (query/live_block_computation.hpp) *)

Module LiveBlock.

(** Modelled from the spec: [bit_vector_builder] (bit_vector.hpp is not among
    the sources) is a growing sequence of bits, "a bit per block";
    [append_bits(bits, len)] appends the [len] low bits of [bits], the least
    significant first. *)
Definition bit_vector : Type := list bool.

Definition append_bits (bits : Z) (len : nat) (bv : bit_vector) : bit_vector :=
  bv ++ map (λ j, Z.testbit bits (Z.of_nat j)) (seq 0 len).

(** Arithmetic of [uint16_t]: the sum is computed in [int] and stored back
    modulo 2^16. *)
Definition u16 (z : Z) : Z := z mod 65536.

(** [scores[term][i]]; the code requires every vector to be as long as
    [scores[0]]. *)
Definition at_ (scores : list (list Z)) (term i : nat) : Z :=
  nth i (nth term scores []) 0%Z.

(** The inner loop of the scalar code:
<<
  uint16_t sum = scores[0][i];
  for (size_t term = 1; term < scores.size(); ++term) sum += scores[term][i];
>> *)
Definition scalar_sum (scores : list (list Z)) (i : nat) : Z :=
  fold_left (λ sum term, u16 (sum + at_ scores term i))
            (seq 1 (length scores - 1)) (at_ scores 0 i).

(** [bv.append_bits(static_cast<uint64_t>(sum >= threshold), 1)]. *)
Definition scalar_step (scores : list (list Z)) (threshold : Z) (i : nat)
    (bv : bit_vector) : bit_vector :=
  append_bits (if (threshold <=? scalar_sum scores i)%Z then 1 else 0) 1 bv.

(** [for (; i < scores[0].size(); i += 1)], from position [i], for [n]
    iterations. *)
Fixpoint scalar_loop (scores : list (list Z)) (threshold : Z) (n i : nat)
    (bv : bit_vector) : bit_vector :=
  match n with
  | O => bv
  | S n' => scalar_loop scores threshold n' (i + 1) (scalar_step scores threshold i bv)
  end.

Definition compute_live_quant16 (scores : list (list Z)) (threshold : Z) : bit_vector :=
  scalar_loop scores threshold (length (nth 0 scores [])) 0 [].

(** *** SSE/AVX registers

    A register is the list of its bytes, lowest first: 16 bytes for
    [__m128i], 32 for [__m256i].  The intrinsics follow the operation
    sections of the Intel Intrinsics Guide. *)
Definition reg : Type := list Z.

(** The eight (sixteen) unsigned 16-bit lanes of a register, and back. *)
Fixpoint lanes16 (r : reg) : list Z :=
  match r with
  | lo :: hi :: r' => (lo + 256 * hi)%Z :: lanes16 r'
  | _ => []
  end.

Definition of_lanes16 (l : list Z) : reg :=
  flat_map (λ w, [w mod 256; (w / 256) mod 256]%Z) l.

Definition lanewise16 (f : Z → Z → Z) (a b : reg) : reg :=
  of_lanes16 (zip_with f (lanes16 a) (lanes16 b)).

(** [_mm_loadu_si128(p)] at [p = data.data() + offset]: the 16 bytes at
    [p].  A load that starts less than 16 bytes before the end of the vector
    reads past its elements, which C++ leaves undefined: [None]. *)
Definition _mm_loadu_si128 (data : list Z) (offset : nat) : option reg :=
  if offset + 16 <=? length data then Some (take 16 (drop offset data)) else None.

Definition _mm_setzero_si128 : reg := replicate 16 0%Z.
Definition _mm256_setzero_si256 : reg := replicate 32 0%Z.

Definition _mm_set1_epi16 (w : Z) : reg := of_lanes16 (replicate 8 w).
Definition _mm256_set1_epi16 (w : Z) : reg := of_lanes16 (replicate 16 w).

(** Interleave the low (high) eight bytes of two 128-bit values. *)
Fixpoint interleave (a b : list Z) : list Z :=
  match a, b with
  | x :: a', y :: b' => x :: y :: interleave a' b'
  | _, _ => []
  end.

Definition _mm_unpacklo_epi8 (a b : reg) : reg := interleave (take 8 a) (take 8 b).
Definition _mm_unpackhi_epi8 (a b : reg) : reg :=
  interleave (take 8 (drop 8 a)) (take 8 (drop 8 b)).

(** The 256-bit forms work on each 128-bit half separately. *)
Definition _mm256_unpacklo_epi8 (a b : reg) : reg :=
  _mm_unpacklo_epi8 (take 16 a) (take 16 b)
  ++ _mm_unpacklo_epi8 (drop 16 a) (drop 16 b).
Definition _mm256_unpackhi_epi8 (a b : reg) : reg :=
  _mm_unpackhi_epi8 (take 16 a) (take 16 b)
  ++ _mm_unpackhi_epi8 (drop 16 a) (drop 16 b).

(** [_mm256_set_m128i(hi, lo)] and [_mm256_extractf128_si256(a, imm)]. *)
Definition _mm256_set_m128i (hi lo : reg) : reg := lo ++ hi.
Definition _mm256_extractf128_si256 (a : reg) (imm : nat) : reg :=
  match imm with
  | O => take 16 a
  | _ => take 16 (drop 16 a)
  end.

(** Unsigned saturating addition, unsigned maximum and equality test of the
    16-bit lanes. *)
Definition adds_epu16 : reg → reg → reg :=
  lanewise16 (λ x y, Z.min (x + y) 65535).
Definition max_epu16 : reg → reg → reg := lanewise16 Z.max.
Definition cmpeq_epi16 : reg → reg → reg :=
  lanewise16 (λ x y, if (x =? y)%Z then 65535 else 0)%Z.

Definition _mm_adds_epu16 := adds_epu16.
Definition _mm_max_epu16 := max_epu16.
Definition _mm_cmpeq_epi16 := cmpeq_epi16.
Definition _mm256_adds_epu16 := adds_epu16.
Definition _mm256_max_epu16 := max_epu16.
Definition _mm256_cmpeq_epi16 := cmpeq_epi16.

(** [_mm_setr_epi8(e0, ..., e15)]: the bytes in memory order; [-1] is the
    byte 255. *)
Definition _mm_setr_epi8 (es : list Z) : reg := map (λ e, e mod 256)%Z es.

(** [_mm_shuffle_epi8(a, b)]: byte [i] is 0 when bit 7 of [b[i]] is set,
    and [a[b[i] & 15]] otherwise. *)
Definition _mm_shuffle_epi8 (a b : reg) : reg :=
  map (λ c, if Z.testbit c 7 then 0%Z else nth (Z.to_nat (Z.land c 15)) a 0%Z) b.

(** [_mm_packs_epi16(a, b)]: the signed 16-bit lanes of [a], then of [b],
    each saturated to a signed byte. *)
Definition signed16 (w : Z) : Z := if (w <? 32768)%Z then w else (w - 65536)%Z.
Definition saturate_i8 (x : Z) : Z := (Z.max (-128) (Z.min 127 x) mod 256)%Z.
Definition _mm_packs_epi16 (a b : reg) : reg :=
  map (λ w, saturate_i8 (signed16 w)) (lanes16 a ++ lanes16 b).

(** [_mm_movemask_epi8(a)]: bit [i] is the top bit of byte [i]. *)
Fixpoint _mm_movemask_epi8 (a : reg) : Z :=
  match a with
  | [] => 0
  | c :: a' => ((if Z.testbit c 7 then 1 else 0) + 2 * _mm_movemask_epi8 a')%Z
  end.

(** [load64(data)]: eight bytes widened to eight 16-bit lanes.  The load
    itself takes sixteen bytes. *)
Definition load64 (data : list Z) (offset : nat) : option reg :=
  a ← _mm_loadu_si128 data offset;
  Some (_mm_unpacklo_epi8 a _mm_setzero_si128).

(** One iteration of the 128-bit loop, at position [i]. *)
Definition avx_step (scores : list (list Z)) (threshold : Z) (i : nat)
    (bv : bit_vector) : option bit_vector :=
  let thresholds := _mm_set1_epi16 threshold in
  sum ← fold_left (λ sum term,
                     sum ← sum; x ← load64 (nth term scores []) i;
                     Some (_mm_adds_epu16 sum x))
                  (seq 1 (length scores - 1)) (load64 (nth 0 scores []) i);
  let masksL1 := _mm_cmpeq_epi16 (_mm_max_epu16 sum thresholds) sum in
  let lensAll :=
    _mm_shuffle_epi8 masksL1
      (_mm_setr_epi8 [0; 2; 4; 6; 8; 10; 12; 14; -1; -1; -1; -1; -1; -1; -1; -1]%Z) in
  let maskBitsL1 := _mm_movemask_epi8 lensAll in
  Some (append_bits maskBitsL1 8 bv).

(** [for (; i < size and size - i >= 8; i += 8)]; returns the bits and the
    position at which the loop stops. *)
Fixpoint avx_loop (fuel : nat) (scores : list (list Z)) (threshold : Z)
    (i : nat) (bv : bit_vector) : option (bit_vector * nat) :=
  let size := length (nth 0 scores []) in
  match fuel with
  | S fuel' =>
      if (i <? size) && (8 <=? size - i)
      then bv' ← avx_step scores threshold i bv;
           avx_loop fuel' scores threshold (i + 8) bv'
      else Some (bv, i)
  | O => Some (bv, i)
  end.

(** [avx_compute_live_quant16]: [None] when a load reads past a vector. *)
Definition avx_compute_live_quant16 (scores : list (list Z)) (threshold : Z)
    : option bit_vector :=
  let size := length (nth 0 scores []) in
  '(bv, i) ← avx_loop size scores threshold 0 [];
  Some (scalar_loop scores threshold (size - i) i bv).

(** [load(data)]: sixteen bytes widened to sixteen 16-bit lanes. *)
Definition load (data : list Z) (offset : nat) : option reg :=
  hi ← _mm_loadu_si128 data offset;
  lo ← _mm_loadu_si128 data offset;
  let _a := _mm256_set_m128i hi lo in
  let _b := _mm256_unpacklo_epi8 _a _mm256_setzero_si256 in
  let _a := _mm256_unpackhi_epi8 _a _mm256_setzero_si256 in
  Some (_mm256_set_m128i (_mm256_extractf128_si256 _a 0) (_mm256_extractf128_si256 _b 0)).

Definition avx2_step (scores : list (list Z)) (threshold : Z) (i : nat)
    (bv : bit_vector) : option bit_vector :=
  let thresholds := _mm256_set1_epi16 threshold in
  sum ← fold_left (λ sum term,
                     sum ← sum; x ← load (nth term scores []) i;
                     Some (_mm256_adds_epu16 sum x))
                  (seq 1 (length scores - 1)) (load (nth 0 scores []) i);
  let masksL1 := _mm256_cmpeq_epi16 (_mm256_max_epu16 sum thresholds) sum in
  let maskBitsL1 :=
    _mm_movemask_epi8
      (_mm_packs_epi16 (_mm256_extractf128_si256 masksL1 0)
                       (_mm256_extractf128_si256 masksL1 1)) in
  Some (append_bits maskBitsL1 16 bv).

Fixpoint avx2_loop (fuel : nat) (scores : list (list Z)) (threshold : Z)
    (i : nat) (bv : bit_vector) : option (bit_vector * nat) :=
  let size := length (nth 0 scores []) in
  match fuel with
  | S fuel' =>
      if (i <? size) && (16 <=? size - i)
      then bv' ← avx2_step scores threshold i bv;
           avx2_loop fuel' scores threshold (i + 16) bv'
      else Some (bv, i)
  | O => Some (bv, i)
  end.

(** [avx2_compute_live_quant16]: [None] when a load reads past a vector. *)
Definition avx2_compute_live_quant16 (scores : list (list Z)) (threshold : Z)
    : option bit_vector :=
  let size := length (nth 0 scores []) in
  '(bv, i) ← avx2_loop size scores threshold 0 [];
  Some (scalar_loop scores threshold (size - i) i bv).

(** The sum the specification describes: clamped at the largest [uint16_t]. *)
Definition saturated_sum (scores : list (list Z)) (i : nat) : Z :=
  Z.min 65535 (fold_left (λ sum term, sum + at_ scores term i)%Z
                         (seq 0 (length scores)) 0%Z).

(** A well-formed input: at least one term, vectors of bytes, all of the
    length of the first. *)
Definition well_formed (scores : list (list Z)) : Prop :=
  scores ≠ []
  ∧ Forall (λ v, length v = length (nth 0 scores [])
                 ∧ Forall (λ b, 0 <= b < 256)%Z v) scores.

End LiveBlock.

(** ** Raw cursor (v1/raw_cursor.hpp) *)

Module RawCursor.

(** What the template needs of [T]: its size, how [bit_cast<T>] reads it
    from bytes, and [std::numeric_limits<T>::max()]. *)
Class TriviallyCopyable (T : Type) : Type := {
  sizeof : N;
  bit_cast : list Byte.byte → T;
  numeric_limits_max : T;
  sizeof_pos : (0 < sizeof)%N;
  sizeof_small : (sizeof < 2 ^ 32)%N
}.

(** Arithmetic of [std::size_t]. *)
Definition size_t (n : N) : N := (n mod 2 ^ 64)%N.

Record RawCursor : Type := Build {
  m_current : N;
  m_bytes : list Byte.byte
}.

Section cursor.
Context {T : Type} `{TriviallyCopyable T}.

(** [gsl::span::subspan(offset, count)]: [None] when the range is not inside
    the span ([Expects] fails and the program terminates). *)
Definition subspan (bytes : list Byte.byte) (offset count : N)
    : option (list Byte.byte) :=
  if (offset <=? N.of_nat (length bytes))%N
     && (count <=? N.of_nat (length bytes) - offset)%N
  then Some (take (N.to_nat count) (drop (N.to_nat offset) bytes))
  else None.

(** The constructor: skips the 4-byte length prefix, then
    [Expects(m_bytes.size() % sizeof(T) == 0)] and
    [Expects(not m_bytes.empty())]. *)
Definition make (bytes : list Byte.byte) : option RawCursor :=
  if (4 <=? N.of_nat (length bytes))%N then
    let m_bytes := drop 4 bytes in
    if (N.of_nat (length m_bytes) mod sizeof =? 0)%N
       && negb (N.of_nat (length m_bytes) =? 0)%N
    then Some {| m_current := 0%N; m_bytes := m_bytes |}
    else None
  else None.

(** [empty()]: [m_current == m_bytes.size()]. *)
Definition empty (c : RawCursor) : bool :=
  (m_current c =? N.of_nat (length (m_bytes c)))%N.

(** [sentinel()]. *)
Definition sentinel : T := numeric_limits_max.

(** [operator*()]: the sentinel when [empty()], else the value at
    [m_current]; [None] when the [subspan] is out of bounds. *)
Definition deref (c : RawCursor) : option T :=
  if empty c then Some sentinel
  else bit_cast <$> subspan (m_bytes c) (m_current c) sizeof.

(** [value()] is an alias of the dereference. *)
Definition value (c : RawCursor) : option T := deref c.

(** [advance()]: [m_current += sizeof(T)]. *)
Definition advance (c : RawCursor) : RawCursor :=
  {| m_current := size_t (m_current c + sizeof); m_bytes := m_bytes c |}.

(** [advance_to_position(pos)]. *)
Definition advance_to_position (pos : N) (c : RawCursor) : RawCursor :=
  {| m_current := pos; m_bytes := m_bytes c |}.

Definition position (c : RawCursor) : N := m_current c.

(** [size()]: the number of elements. *)
Definition size (c : RawCursor) : N := (N.of_nat (length (m_bytes c)) / sizeof)%N.

(** The free function [next(cursor)]: advance, then [nullopt] when empty,
    else the value.  The outer [None] is a failed [Expects]. *)
Definition next (c : RawCursor) : option (RawCursor * option T) :=
  let c := advance c in
  if empty c then Some (c, None)
  else x ← value c; Some (c, Some x).

End cursor.

(** [T = std::uint32_t] (a [DocId]), read in little-endian order. *)
Definition le_value (bytes : list Byte.byte) : N :=
  fold_right (λ b acc, Byte.to_N b + 256 * acc)%N 0%N bytes.

#[global, refine] Instance uint32_copyable : TriviallyCopyable N := {|
  sizeof := 4%N;
  bit_cast := le_value;
  numeric_limits_max := 4294967295%N
|}.
Proof. all: reflexivity. Defined.

(** *** [advance_to_geq], [RawReader] and [RawWriter]

    What these need of [T] besides: the bytes of a value as [gsl::as_bytes]
    exposes them, and [operator<].  [in_range] holds of the values of the
    C++ type, which are the ones [bit_cast] reads back from their bytes and
    the largest of which is [std::numeric_limits<T>::max()]. *)
Class Writable (T : Type) `{TriviallyCopyable T} : Type := {
  as_bytes : T → list Byte.byte;
  less : T → T → bool;
  in_range : T → Prop;
  as_bytes_length x : length (as_bytes x) = N.to_nat sizeof;
  bit_cast_as_bytes x : in_range x → bit_cast (as_bytes x) = x;
  less_max x : in_range x → less numeric_limits_max x = false
}.

Section writer.
Context {T : Type} `{Writable T}.

(** [advance_to_geq(value)]:
<<
  while (this->value() < value) { advance(); }
>>
    The result is [None] when [fuel] iterations do not end the loop, and
    [Some None] when a dereference fails its [Expects]. *)
Fixpoint advance_to_geq (fuel : nat) (v : T) (c : RawCursor)
    : option (option RawCursor) :=
  match fuel with
  | O => None
  | S fuel' =>
      match value c with
      | None => Some None
      | Some x => if less x v then advance_to_geq fuel' v (advance c) else Some (Some c)
      end
  end.

(** [RawReader<T>::read(bytes)]. *)
Definition read (bytes : list Byte.byte) : option RawCursor := make bytes.

(** [RawWriter<T>]: the postings pushed so far. *)
Record RawWriter : Type := BuildWriter { m_postings : list T }.

Definition writer : RawWriter := {| m_postings := [] |}.

(** [push(posting)] and [reset()]. *)
Definition push (posting : T) (w : RawWriter) : RawWriter :=
  {| m_postings := m_postings w ++ [posting] |}.
Definition reset (w : RawWriter) : RawWriter := {| m_postings := [] |}.

(** The four bytes of a [std::uint32_t], lowest first. *)
Definition uint32_bytes (x : N) : list Byte.byte :=
  map (λ j, default Byte.x00 (Byte.of_N ((x / 256 ^ N.of_nat j) mod 256)%N)) (seq 0 4).

(** [write(os)]:
<<
  assert(!m_postings.empty());
  std::uint32_t length = m_postings.size();
  os.write(reinterpret_cast<char const *>(&length), sizeof(length));
  auto memory = gsl::as_bytes(gsl::make_span(m_postings.data(), m_postings.size()));
  os.write(reinterpret_cast<char const *>(memory.data()), memory.size());
  return sizeof(length) + memory.size();
>>
    [os] is what the stream holds before the call; the result is the stream
    after it and the number returned, [None] when the assertion fails. *)
Definition write (os : list Byte.byte) (w : RawWriter) : option (list Byte.byte * N) :=
  match m_postings w with
  | [] => None
  | _ =>
      let length := (N.of_nat (length (m_postings w)) mod 2 ^ 32)%N in
      let os := os ++ uint32_bytes length in
      let memory := flat_map as_bytes (m_postings w) in
      Some (os ++ memory, size_t (4 + N.of_nat (List.length memory)))
  end.

End writer.

Arguments RawWriter T : clear implicits.

#[global, refine] Instance uint32_writable : Writable N := {|
  as_bytes := uint32_bytes;
  less := N.ltb;
  in_range x := (x < 2 ^ 32)%N
|}.
Proof.
  - reflexivity.
  - intros x Hx. cbn. unfold uint32_bytes, le_value. cbn [map seq fold_right].
    assert (B : ∀ y, (y < 256)%N → Byte.to_N (default Byte.x00 (Byte.of_N y)) = y).
    { intros y Hy. destruct (Byte.of_N y) as [b|] eqn:E.
      - by apply Byte.to_of_N.
      - apply Byte.of_N_None_iff in E. lia. }
    rewrite !B by (apply N.mod_lt; lia).
    cbn [N.of_nat Pos.of_succ_nat Pos.succ].
    change (256 ^ 0)%N with 1%N. change (256 ^ 1)%N with 256%N.
    change (256 ^ 2)%N with 65536%N. change (256 ^ 3)%N with 16777216%N.
    change (2 ^ 32)%N with 4294967296%N in Hx. lia.
  - intros x Hx. cbn. apply N.ltb_ge. change (2 ^ 32)%N with 4294967296%N in Hx. lia.
Defined.

End RawCursor.

(** ** Outcomes of code that can throw *)

Inductive exception : Type :=
| domain_error (what : string)
| out_of_range (what : string)
| runtime_error (what : string)
| invalid_argument (what : string)
| json_exception (what : string).   (* nlohmann::detail::exception *)

(** The result of a call: a value, an exception, or no defined behaviour. *)
Inductive outcome (A : Type) : Type :=
| Ok (a : A)
| Throw (e : exception)
| Undefined.
Arguments Ok {A} a.
Arguments Throw {A} e.
Arguments Undefined {A}.

#[global] Instance outcome_ret : MRet outcome := λ A a, Ok a.
#[global] Instance outcome_bind : MBind outcome := λ A B f m,
  match m with
  | Ok a => f a
  | Throw e => Throw e
  | Undefined => Undefined
  end.
#[global] Instance outcome_fmap : FMap outcome := λ A B f m,
  match m with
  | Ok a => Ok (f a)
  | Throw e => Throw e
  | Undefined => Undefined
  end.

(** [try { body } catch (nlohmann::detail::exception const&) { handler }]. *)
Definition catch_json {A} (body : outcome A) (handler : outcome A) : outcome A :=
  match body with
  | Throw (json_exception _) => handler
  | _ => body
  end.

(** [try { body } catch (std::exception const&) { handler }]: every
    exception of the model derives from [std::exception]. *)
Definition catch_all {A} (body : outcome A) (handler : outcome A) : outcome A :=
  match body with
  | Throw _ => handler
  | _ => body
  end.

(** [mapM] for outcomes: the first failure wins. *)
Fixpoint traverse {A B} (f : A → outcome B) (l : list A) : outcome (list B) :=
  match l with
  | [] => Ok []
  | x :: l' => y ← f x; ys ← traverse f l'; Ok (y :: ys)
  end.

(** ** Sorting and deduplication of <algorithm> / range-v3 *)

Module alg.
Section sort.
Context {A : Type} (leb : A → A → bool).

Fixpoint insert_sorted (x : A) (l : list A) : list A :=
  match l with
  | [] => [x]
  | y :: l' => if leb x y then x :: l else y :: insert_sorted x l'
  end.

(** [std::sort] / [ranges::sort]: the elements in ascending order.  The
    element types sorted here ([uint32_t], [size_t], arrays of two of them)
    have no two distinct equivalent values, so the result is the same for
    every sorting algorithm. *)
Definition sort (l : list A) : list A := fold_right insert_sorted [] l.

(** [v.erase(ranges::unique(v), v.end())]: of each run of equal neighbours
    the first is kept. *)
Fixpoint unique (eqb : A → A → bool) (l : list A) : list A :=
  match l with
  | [] => []
  | x :: l' =>
      match l' with
      | [] => [x]
      | y :: _ => if eqb x y then unique eqb l' else x :: unique eqb l'
      end
  end.

End sort.
End alg.

(** ** Request flags (query.cpp, query.hpp) *)

Module Flags.

Inductive RequestFlag : Type := Threshold | Weights | Selection.

(** Modelled from the spec: the enumerators of [RequestFlag] are declared in
    query.hpp, which is not among the sources; "bitset with at least
    {Threshold, Weights, Selection}": one bit each, [0b001], [0b010],
    [0b100]. *)
Definition bits (flag : RequestFlag) : N :=
  match flag with
  | Threshold => 1%N
  | Weights => 2%N
  | Selection => 4%N
  end.

(** [struct RequestFlagSet { std::uint32_t flags; }]. *)
Record RequestFlagSet : Type := Build { flags : N }.

(** [RequestFlagSet::all()]. *)
Definition all : RequestFlagSet := {| flags := 7%N |}.

(** [remove(flag)]: [flags ^= flag]. *)
Definition remove (flag : RequestFlag) (s : RequestFlagSet) : RequestFlagSet :=
  {| flags := N.lxor (flags s) (bits flag) |}.

(** [operator^(flag)]. *)
Definition xor (s : RequestFlagSet) (flag : RequestFlag) : RequestFlagSet :=
  let flags_copy := flags s in
  let flags_copy := N.lxor flags_copy (bits flag) in
  {| flags := flags_copy |}.

(** [contains(flag)]: [(flags & flag) == flag]. *)
Definition contains (s : RequestFlagSet) (flag : RequestFlag) : bool :=
  (N.land (flags s) (bits flag) =? bits flag)%N.

(** [operator|(RequestFlag lhs, RequestFlag rhs)]: the code reads
    [static_cast<std::uint32_t>(lhs) | static_cast<std::uint32_t>(lhs)]. *)
Definition or_flags (lhs rhs : RequestFlag) : RequestFlagSet :=
  {| flags := N.lor (bits lhs) (bits lhs) |}.

(** [operator&(RequestFlag lhs, RequestFlag rhs)]: likewise [lhs & lhs]. *)
Definition and_flags (lhs rhs : RequestFlag) : RequestFlagSet :=
  {| flags := N.land (bits lhs) (bits lhs) |}.

(** [operator|(RequestFlagSet lhs, RequestFlag rhs)] and [operator|=]. *)
Definition or_set (lhs : RequestFlagSet) (rhs : RequestFlag) : RequestFlagSet :=
  {| flags := N.lor (flags lhs) (bits rhs) |}.

(** [operator&(RequestFlagSet lhs, RequestFlag rhs)] and [operator&=]. *)
Definition and_set (lhs : RequestFlagSet) (rhs : RequestFlag) : RequestFlagSet :=
  {| flags := N.land (flags lhs) (bits rhs) |}.

End Flags.

(** ** JSON documents (nlohmann::json)

    The document tree of the JSON library and the conversions [get<T>()] the
    query code uses.  A conversion that the library refuses throws its
    [type_error], here [json_exception].  Strings are sequences of bytes,
    as in [std::string]. *)

Module Json.

#[warnings="-register-all"]
Inductive json : Type :=
| JNull
| JBool (b : bool)
| JUnsigned (n : N)              (* number_unsigned: std::uint64_t *)
| JInteger (z : Z)               (* number_integer: std::int64_t *)
| JFloat (d : spec_float)        (* number_float: double *)
| JString (s : string)
| JArray (elements : list json)
| JObject (members : list (string * json)).

(** [node.find(field)]: the member of an object; [end()] for every other
    kind of node. *)
Fixpoint assoc (field : string) (members : list (string * json)) : option json :=
  match members with
  | [] => None
  | (key, v) :: rest => if String.eqb key field then Some v else assoc field rest
  end.

Definition find (node : json) (field : string) : option json :=
  match node with
  | JObject members => assoc field members
  | _ => None
  end.

(** [node[field] = v]: a null node becomes an object. *)
Fixpoint assoc_set (field : string) (v : json) (members : list (string * json))
    : list (string * json) :=
  match members with
  | [] => [(field, v)]
  | (key, w) :: rest =>
      if String.eqb key field then (key, v) :: rest
      else (key, w) :: assoc_set field v rest
  end.

Definition set (node : json) (field : string) (v : json) : outcome json :=
  match node with
  | JNull => Ok (JObject [(field, v)])
  | JObject members => Ok (JObject (assoc_set field v members))
  | _ => Throw (json_exception "cannot use operator[] with a string argument")
  end.

Definition is_array (node : json) : bool :=
  match node with JArray _ => true | _ => false end.
Definition is_object (node : json) : bool :=
  match node with JObject _ => true | _ => false end.

(** The elements a range-based [for] visits. *)
Definition items (node : json) : list json :=
  match node with
  | JArray elements => elements
  | JObject members => map snd members
  | JNull => []
  | _ => [node]
  end.

Definition type_error {A} : outcome A :=
  Throw (json_exception "type must be something else").

(** [static_cast] of a [double] to an unsigned integer of [width] bits:
    truncation towards zero, without defined behaviour when the truncated
    value does not fit. *)
Definition trunc (d : spec_float) : option Z :=
  match d with
  | S754_zero _ => Some 0%Z
  | S754_finite s m e =>
      Some (cond_Zopp s (if (0 <=? e)%Z then Zpos m * 2 ^ e else Zpos m / 2 ^ (- e)))%Z
  | _ => None
  end.

Definition unsigned_of_double (width : N) (d : spec_float) : outcome N :=
  match trunc d with
  | Some z => if (0 <=? z)%Z && (z <? 2 ^ Z.of_N width)%Z then Ok (Z.to_N z) else Undefined
  | None => Undefined
  end.

(** [get<std::size_t>()]: [size_t] is the library's [number_unsigned_t], for
    which only the three number kinds convert. *)
Definition get_size_t (node : json) : outcome N :=
  match node with
  | JUnsigned n => Ok (n mod 2 ^ 64)%N
  | JInteger z => Ok (Z.to_N (z mod 2 ^ 64))
  | JFloat d => unsigned_of_double 64 d
  | _ => type_error
  end.

(** [get<std::uint32_t>()]: the generic arithmetic conversion, which also
    accepts a boolean. *)
Definition get_uint32 (node : json) : outcome N :=
  match node with
  | JUnsigned n => Ok (n mod 2 ^ 32)%N
  | JInteger z => Ok (Z.to_N (z mod 2 ^ 32))
  | JFloat d => unsigned_of_double 32 d
  | JBool b => Ok (if b then 1 else 0)%N
  | _ => type_error
  end.

(** [get<float>()]. *)
Definition get_float (node : json) : outcome spec_float :=
  match node with
  | JUnsigned n => Ok (Float.of_N n)
  | JInteger z => Ok (Float.of_Z z)
  | JFloat d => Ok (Float.of_double d)
  | JBool b => Ok (if b then Float.one else Float.zero)
  | _ => type_error
  end.

(** [get<std::string>()]. *)
Definition get_string (node : json) : outcome string :=
  match node with
  | JString s => Ok s
  | _ => type_error
  end.

(** [get<std::vector<T>>()]: an array whose elements convert. *)
Definition get_vector {T} (conv : json → outcome T) (node : json) : outcome (list T) :=
  match node with
  | JArray elements => traverse conv elements
  | _ => type_error
  end.

(** A finite number. *)
Definition finite (d : spec_float) : bool :=
  match d with
  | S754_zero _ | S754_finite _ _ _ => true
  | _ => false
  end.

(** Well-formed UTF-8 (the Unicode standard, table 3-7), which is what the
    decoder of the library's serializer accepts: no overlong forms, no
    surrogates, nothing above U+10FFFF, no sequence cut short. *)
Definition between (lo hi b : N) : bool := ((lo <=? b) && (b <=? hi))%N.
Definition continuation (b : N) : bool := between 0x80 0xBF b.

Fixpoint well_formed_utf8 (bytes : list N) : bool :=
  match bytes with
  | [] => true
  | b0 :: rest =>
      if (b0 <=? 0x7F)%N then well_formed_utf8 rest
      else if between 0xC2 0xDF b0 then
        match rest with
        | b1 :: rest => continuation b1 && well_formed_utf8 rest
        | _ => false
        end
      else if between 0xE0 0xEF b0 then
        match rest with
        | b1 :: b2 :: rest =>
            between (if (b0 =? 0xE0)%N then 0xA0 else 0x80)
                    (if (b0 =? 0xED)%N then 0x9F else 0xBF) b1
            && continuation b2 && well_formed_utf8 rest
        | _ => false
        end
      else if between 0xF0 0xF4 b0 then
        match rest with
        | b1 :: b2 :: b3 :: rest =>
            between (if (b0 =? 0xF0)%N then 0x90 else 0x80)
                    (if (b0 =? 0xF4)%N then 0x8F else 0xBF) b1
            && continuation b2 && continuation b3 && well_formed_utf8 rest
        | _ => false
        end
      else false
  end.

Definition utf8 (s : string) : bool :=
  well_formed_utf8 (map N_of_ascii (list_ascii_of_string s)).

(** [dump] with its default, strict error handler refuses a string that is
    not well-formed UTF-8 with the library's [type_error] 316. *)
Definition invalid_utf8 {A} : outcome A :=
  Throw (json_exception "[json.exception.type_error.316] invalid UTF-8 byte").

(** The text in between: [dump] followed by [parse].  The library writes a
    document and reads the same document back, except that it writes a
    number that is NaN or infinite as [null], reads an integer that is not
    negative as unsigned, and throws while writing a string or a key that
    is not well-formed UTF-8. *)
Fixpoint reparse (node : json) : outcome json :=
  match node with
  | JFloat d => Ok (if finite d then node else JNull)
  | JInteger z => Ok (if (0 <=? z)%Z then JUnsigned (Z.to_N z) else node)
  | JString s => if utf8 s then Ok node else invalid_utf8
  | JArray elements => JArray <$> traverse reparse elements
  | JObject members =>
      JObject <$> traverse (λ kv, if utf8 kv.1
                                  then v ← reparse kv.2; Ok (kv.1, v)
                                  else invalid_utf8) members
  | _ => Ok node
  end.

End Json.

(** ** Query containers and requests (query.cpp) *)

Module Query.
Import Flags Json.

(** [Selection<T>]: selected terms and selected pairs
    ([std::array<T, 2>]). *)
Record Selection (T : Type) : Type := BuildSelection {
  selected_terms : list T;
  selected_pairs : list (T * T)
}.
Arguments BuildSelection {T} _ _.
Arguments selected_terms {T} _.
Arguments selected_pairs {T} _.

(** [QueryContainerInner]; a [QueryContainer] owns exactly one, and copies
    copy it. *)
Record QueryContainer : Type := BuildContainer {
  id : option string;
  query_string : option string;
  processed_terms : option (list string);
  term_ids : option (list N);
  thresholds : list (N * spec_float);
  selections : list (N * Selection N)
}.

(** The default constructor. *)
Definition empty : QueryContainer :=
  {| id := None; query_string := None; processed_terms := None;
     term_ids := None; thresholds := []; selections := [] |}.

Definition with_id (x : option string) (q : QueryContainer) : QueryContainer :=
  {| id := x; query_string := query_string q;
     processed_terms := processed_terms q; term_ids := term_ids q;
     thresholds := thresholds q; selections := selections q |}.
Definition with_query_string (x : option string) (q : QueryContainer) : QueryContainer :=
  {| id := id q; query_string := x;
     processed_terms := processed_terms q; term_ids := term_ids q;
     thresholds := thresholds q; selections := selections q |}.
Definition with_processed_terms (x : option (list string)) (q : QueryContainer)
    : QueryContainer :=
  {| id := id q; query_string := query_string q;
     processed_terms := x; term_ids := term_ids q;
     thresholds := thresholds q; selections := selections q |}.
Definition with_term_ids (x : option (list N)) (q : QueryContainer) : QueryContainer :=
  {| id := id q; query_string := query_string q;
     processed_terms := processed_terms q; term_ids := x;
     thresholds := thresholds q; selections := selections q |}.
Definition with_thresholds (x : list (N * spec_float)) (q : QueryContainer)
    : QueryContainer :=
  {| id := id q; query_string := query_string q;
     processed_terms := processed_terms q; term_ids := term_ids q;
     thresholds := x; selections := selections q |}.
Definition with_selections (x : list (N * Selection N)) (q : QueryContainer)
    : QueryContainer :=
  {| id := id q; query_string := query_string q;
     processed_terms := processed_terms q; term_ids := term_ids q;
     thresholds := thresholds q; selections := x |}.

(** [QueryContainer::raw(query_string)]. *)
Definition raw (s : string) : QueryContainer := with_query_string (Some s) empty.

(** [QueryContainer::from_terms(terms, term_processor)]: a term the
    processor rejects is dropped. *)
Definition from_terms (terms : list string)
    (term_processor : option (string → option string)) : QueryContainer :=
  let processed :=
    match term_processor with
    | Some fn => omap fn terms
    | None => terms
    end in
  with_processed_terms (Some processed) empty.

(** [QueryContainer::from_term_ids(term_ids)]. *)
Definition from_term_ids (ids : list N) : QueryContainer :=
  with_term_ids (Some ids) empty.

(** [string(raw_query)], the setter. *)
Definition set_string (raw_query : string) (q : QueryContainer) : QueryContainer :=
  with_query_string (Some raw_query) q.

(** [parse(parse_fn)]: [parse_fn] yields (term id, term) pairs. *)
Definition parse (parse_fn : string → list (N * string)) (q : QueryContainer)
    : outcome QueryContainer :=
  match query_string q with
  | None => Throw (domain_error "Cannot parse, query string not set")
  | Some s =>
      let parsed_terms := parse_fn s in
      Ok (with_processed_terms (Some (map snd parsed_terms))
            (with_term_ids (Some (map fst parsed_terms)) q))
  end.

(** [std::find_if(.., first_equal_to(k))] and the value found. *)
Definition lookup_k {V} (k : N) (entries : list (N * V)) : option V :=
  snd <$> List.find (λ pair, (pair.1 =? k)%N) entries.

(** [threshold(k)] and [selection(k)]. *)
Definition threshold (q : QueryContainer) (k : N) : option spec_float :=
  lookup_k k (thresholds q).
Definition selection (q : QueryContainer) (k : N) : option (Selection N) :=
  lookup_k k (selections q).

(** The upsert of [add_threshold] and [add_selection]: the first entry for
    [k] is overwritten, or a new entry goes to the back; the flag tells
    which. *)
Fixpoint upsert {V} (k : N) (v : V) (entries : list (N * V)) : bool * list (N * V) :=
  match entries with
  | [] => (false, [(k, v)])
  | (k', v') :: rest =>
      if (k' =? k)%N then (true, (k', v) :: rest)
      else let '(found, rest') := upsert k v rest in (found, (k', v') :: rest')
  end.

Definition add_threshold (k : N) (score : spec_float) (q : QueryContainer)
    : bool * QueryContainer :=
  let '(found, entries) := upsert k score (thresholds q) in
  (found, with_thresholds entries q).

Definition add_selection (k : N) (sel : Selection N) (q : QueryContainer)
    : bool * QueryContainer :=
  let '(found, entries) := upsert k sel (selections q) in
  (found, with_selections entries q).

(** [from_colon_format(line)]: the id is what precedes the first colon. *)
Fixpoint split_colon (line : string) : option (string * string) :=
  match line with
  | EmptyString => None
  | String c rest =>
      if Ascii.eqb c ":"%char then Some (EmptyString, rest)
      else match split_colon rest with
           | Some (before, after) => Some (String c before, after)
           | None => None
           end
  end.

Definition from_colon_format (line : string) : QueryContainer :=
  match split_colon line with
  | None => with_query_string (Some line) empty
  | Some (before, after) => with_query_string (Some after) (with_id (Some before) empty)
  end.

(** [filter_terms(term_positions)]:
<<
  auto const& processed_terms = m_data->processed_terms;
  auto const& term_ids = m_data->term_ids;
  if (not processed_terms && not term_ids) { return; }
  auto query_length = 0;
  if (processed_terms) { query_length = processed_terms->size(); }
  else if (term_ids) { query_length = term_ids->size(); }
  std::vector<std::string> filtered_terms;
  std::vector<TermId> filtered_ids;
  for (auto position: term_positions) {
      if (position >= query_length) { throw std::out_of_range(..); }
      if (processed_terms) {
          filtered_terms.push_back(std::move(( *m_data->processed_terms)[position]));
      }
      if (term_ids) { filtered_ids.push_back(( *m_data->term_ids)[position]); }
  }
  if (processed_terms) { m_data->processed_terms = filtered_terms; }
  if (term_ids) { m_data->term_ids = filtered_ids; }
>>
    [query_length] is an [int]: the size is narrowed to 32 bits when it is
    stored and widened to [std::size_t] when a position is compared with it.
    A term is moved out of the container, which leaves the string in the
    container in a state the standard does not specify, [moved_from] of its
    value.  Indexing a vector at or past its size has no defined
    behaviour. *)
Definition int_of_size_t (n : N) : Z :=
  let m := (Z.of_N n mod 2 ^ 32)%Z in
  if (m <? 2 ^ 31)%Z then m else (m - 2 ^ 32)%Z.
Definition size_t_of_int (z : Z) : N := Z.to_N (z mod 2 ^ 64).

Section filter_terms.
Variable moved_from : string → string.

Fixpoint filter_terms_loop (term_positions : list N) (query_length : Z)
    (processed_terms : option (list string)) (term_ids : option (list N))
    (filtered_terms : list string) (filtered_ids : list N)
    : outcome (list string * list N) :=
  match term_positions with
  | [] => Ok (filtered_terms, filtered_ids)
  | position :: rest =>
      if (size_t_of_int query_length <=? position)%N
      then Throw (out_of_range "Passed term position out of range")
      else
        '(processed_terms, filtered_terms) ←
          match processed_terms with
          | Some terms =>
              match terms !! N.to_nat position with
              | Some term =>
                  Ok (Some (<[N.to_nat position := moved_from term]> terms),
                      filtered_terms ++ [term])
              | None => Undefined
              end
          | None => Ok (None, filtered_terms)
          end;
        filtered_ids ←
          match term_ids with
          | Some ids =>
              match ids !! N.to_nat position with
              | Some term_id => Ok (filtered_ids ++ [term_id])
              | None => Undefined
              end
          | None => Ok filtered_ids
          end;
        filter_terms_loop rest query_length processed_terms term_ids
          filtered_terms filtered_ids
  end.

Definition filter_terms (term_positions : list N) (q : QueryContainer)
    : outcome QueryContainer :=
  match processed_terms q, term_ids q with
  | None, None => Ok q
  | _, _ =>
      let query_length := 0%Z in
      let query_length :=
        match processed_terms q with
        | Some terms => int_of_size_t (N.of_nat (length terms))
        | None =>
            match term_ids q with
            | Some ids => int_of_size_t (N.of_nat (length ids))
            | None => query_length
            end
        end in
      '(filtered_terms, filtered_ids) ←
        filter_terms_loop term_positions query_length
          (processed_terms q) (term_ids q) [] [];
      let q' :=
        match processed_terms q with
        | Some _ => with_processed_terms (Some filtered_terms) q
        | None => q
        end in
      let q' :=
        match term_ids q with
        | Some _ => with_term_ids (Some filtered_ids) q'
        | None => q'
        end in
      Ok q'
  end.

End filter_terms.

(** *** [QueryRequest] *)

Record QueryRequest : Type := BuildRequest {
  m_k : N;
  m_threshold : option spec_float;
  m_term_ids : list N;
  m_term_weights : list spec_float;
  m_selection : option (Selection N)
}.

(** [counts[term_id] += 1] on a [std::map<TermId, std::size_t>], kept as the
    list of its entries in key order (a vector has fewer than 2^64 elements,
    so no count wraps). *)
Fixpoint map_incr (term_id : N) (counts : list (N * N)) : list (N * N) :=
  match counts with
  | [] => [(term_id, 1%N)]
  | (key, count) :: rest =>
      if (term_id <? key)%N then (term_id, 1%N) :: counts
      else if (term_id =? key)%N then (key, (count + 1)%N) :: rest
      else (key, count) :: map_incr term_id rest
  end.

Definition count_terms (ids : list N) : list (N * N) :=
  fold_left (λ counts term_id, map_incr term_id counts) ids [].

(** [term_ids->at(position)]. *)
Definition at_ (ids : list N) (position : N) : outcome N :=
  match ids !! N.to_nat position with
  | Some t => Ok t
  | None => Throw (out_of_range "vector::_M_range_check")
  end.

(** The order of [TermPair]s: lexicographic. *)
Definition pair_leb (a b : N * N) : bool :=
  ((a.1 <? b.1) || ((a.1 =? b.1) && (a.2 <=? b.2)))%N.
Definition pair_eqb (a b : N * N) : bool :=
  ((a.1 =? b.1) && (a.2 =? b.2))%N.

(** The selection of a request: term positions become term ids, sorted and
    without duplicates. *)
Definition request_selection (ids : list N) (sel : Selection N)
    : outcome (Selection N) :=
  terms ← traverse (at_ ids) (selected_terms sel);
  let terms := alg.unique N.eqb (alg.sort N.leb terms) in
  pairs ← traverse (λ term_positions,
                      a ← at_ ids term_positions.1;
                      b ← at_ ids term_positions.2;
                      Ok (a, b)) (selected_pairs sel);
  let pairs := alg.unique pair_eqb (alg.sort pair_leb pairs) in
  Ok {| selected_terms := terms; selected_pairs := pairs |}.

(** [QueryRequest::QueryRequest(data, k, flags)]. *)
Definition make_request (data : QueryContainer) (k : N) (flags : RequestFlagSet)
    : outcome QueryRequest :=
  let threshold0 := threshold data k in
  match term_ids data with
  | Some ids =>
      let counts := count_terms ids in
      let ids' := map fst counts in
      let weights := map (λ entry, Float.of_N entry.2) counts in
      sel ← match selection data k with
            | Some sel =>
                if contains flags Flags.Selection
                then Some <$> request_selection ids sel
                else Ok None
            | None => Ok None
            end;
      let threshold1 :=
        if negb (contains flags Flags.Threshold) then None else threshold0 in
      let weights :=
        if negb (contains flags Flags.Weights) then map (λ _, Float.one) weights
        else weights in
      Ok {| m_k := k; m_threshold := threshold1; m_term_ids := ids';
            m_term_weights := weights; m_selection := sel |}
  | None => Throw (domain_error "Query not parsed.")
  end.

(** [QueryContainer::query(k, flags)]. *)
Definition query (q : QueryContainer) (k : N) (flags : RequestFlagSet)
    : outcome QueryRequest :=
  make_request q k flags.

(** *** JSON *)

(** The helper [get<T>(node, field)]: absent fields give [nullopt], a
    conversion the library refuses becomes a [runtime_error]. *)
Definition get {T} (conv : json → outcome T) (node : json) (field : string)
    : outcome (option T) :=
  match find node field with
  | Some pos =>
      catch_json (Some <$> conv pos)
                 (Throw (runtime_error "Requested field is of wrong type"))
  | None => Ok None
  end.

(** [std::bitset<64>::count()]. *)
Fixpoint popcount_pos (p : positive) : nat :=
  match p with
  | xH => 1
  | xO p' => popcount_pos p'
  | xI p' => S (popcount_pos p')
  end.
Definition popcount (m : N) : nat :=
  match m with
  | N0 => 0
  | Npos p => popcount_pos p
  end.

(** The loop that turns one mask into term positions:
<<
  std::array<std::size_t, 2> term_positions{};
  std::size_t pos = 0;
  auto out = term_positions.begin();
  while (m.count() > 0) {
      if (m.test(pos)) { m.reset(pos); *out++ = pos; }
      pos += 1;
  }
>>
    [fuel] counts the positions that remain below 64, where [m.test] would
    throw.  Writing through [out] once it has reached the end of the array
    has no defined behaviour. *)
Fixpoint decode_mask_loop (fuel : nat) (m pos : N) (term_positions : list N)
    (out : nat) : outcome (list N * nat) :=
  if 0 <? popcount m then
    match fuel with
    | O => Throw (out_of_range "bitset::test")
    | S fuel' =>
        if N.testbit m pos then
          if out <? 2
          then decode_mask_loop fuel' (N.clearbit m pos) (pos + 1)
                 (<[out := pos]> term_positions) (out + 1)
          else Undefined
        else decode_mask_loop fuel' m (pos + 1) term_positions out
    end
  else Ok (term_positions, out).

(** The body of [for (auto mask: *masks)].  The test [m.count() > 2] only
    constructs a [std::runtime_error] and drops it: there is no [throw], so
    it has no effect. *)
Definition decode_mask (mask : N) (acc : list N * list (N * N))
    : outcome (list N * list (N * N)) :=
  let m := (mask mod 2 ^ 64)%N in
  let _ := if 2 <? popcount m then tt else tt in
  '(term_positions, out) ← decode_mask_loop 64 m 0 [0; 0]%N 0;
  if out =? 2
  then Ok (acc.1, acc.2 ++ [(term_positions !!! 0, term_positions !!! 1)])
  else Ok (acc.1 ++ [term_positions !!! 0], acc.2).

Fixpoint decode_masks (masks : list N) (acc : list N * list (N * N))
    : outcome (list N * list (N * N)) :=
  match masks with
  | [] => Ok acc
  | mask :: rest => acc' ← decode_mask mask acc; decode_masks rest acc'
  end.

Definition thresholds_invalid {A} : outcome A :=
  Throw (runtime_error "Field thresholds is invalid").
Definition selections_invalid {A} : outcome A :=
  Throw (runtime_error "Field selections is invalid").

Definition parse_threshold_entry (threshold_entry : json) : outcome (N * spec_float) :=
  if negb (is_object threshold_entry) then thresholds_invalid
  else
    k ← get get_size_t threshold_entry "k";
    score ← get get_float threshold_entry "score";
    match k, score with
    | Some k, Some score => Ok (k, score)
    | _, _ => thresholds_invalid
    end.

Definition parse_selections_entry (selections_entry : json)
    : outcome (N * Selection N) :=
  if negb (is_object selections_entry) then selections_invalid
  else
    k ← get get_size_t selections_entry "k";
    masks ← get (get_vector get_size_t) selections_entry "intersections";
    match k, masks with
    | Some k, Some masks =>
        '(terms, pairs) ← decode_masks masks ([], []);
        Ok (k, {| selected_terms := terms; selected_pairs := pairs |})
    | _, _ => selections_invalid
    end.

(** [from_json], after [nlohmann::json::parse]. *)
Definition from_json_document (json : json) : outcome QueryContainer :=
  let data := empty in
  let at_least_one_required := false in
  id' ← get get_string json "id";
  let data := match id' with Some _ => with_id id' data | None => data end in
  raw' ← get get_string json "query";
  let '(data, at_least_one_required) :=
    match raw' with
    | Some _ => (with_query_string raw' data, true)
    | None => (data, at_least_one_required)
    end in
  terms ← get (get_vector get_string) json "terms";
  let '(data, at_least_one_required) :=
    match terms with
    | Some _ => (with_processed_terms terms data, true)
    | None => (data, at_least_one_required)
    end in
  term_ids' ← get (get_vector get_uint32) json "term_ids";
  let '(data, at_least_one_required) :=
    match term_ids' with
    | Some _ => (with_term_ids term_ids' data, true)
    | None => (data, at_least_one_required)
    end in
  data ← match find json "thresholds" with
         | Some thresholds' =>
             if negb (is_array thresholds') then thresholds_invalid
             else
               entries ← traverse parse_threshold_entry (items thresholds');
               Ok (with_thresholds (thresholds data ++ entries) data)
         | None => Ok data
         end;
  data ← match find json "selections" with
         | Some selections' =>
             if negb (is_array selections') then selections_invalid
             else
               entries ← traverse parse_selections_entry (items selections');
               Ok (with_selections (selections data ++ entries) data)
         | None => Ok data
         end;
  if negb at_least_one_required
  then Throw (invalid_argument "JSON must have either raw query, terms, or term IDs")
  else Ok data.

(** [from_json(json_string)]: [parse] is [nlohmann::json::parse], [None]
    when the text is not JSON. *)
Definition from_json (parse : string → option json) (json_string : string)
    : outcome QueryContainer :=
  catch_json
    (json ← match parse json_string with
            | Some json => Ok json
            | None => Throw (json_exception "parse error")
            end;
     from_json_document json)
    (Throw (runtime_error "Failed to parse JSON")).

(** [1U << term]: a shift of a 32-bit [unsigned]; shifting by 32 or more
    has no defined behaviour. *)
Definition shl_1U (term : N) : outcome N :=
  if (term <? 32)%N then Ok (N.shiftl 1 term) else Undefined.

(** The masks of one selection, in the order [to_json] pushes them. *)
Definition intersections_of (sel : Selection N) : outcome (list N) :=
  singles ← traverse shl_1U (selected_terms sel);
  pairs ← traverse (λ pair, l ← shl_1U pair.1; r ← shl_1U pair.2; Ok (N.lor l r))
                   (selected_pairs sel);
  Ok (singles ++ pairs).

(** [to_json()]. *)
Definition to_json (q : QueryContainer) : outcome json :=
  let json := JNull in
  json ← match id q with Some x => set json "id" (JString x) | None => Ok json end;
  json ← match query_string q with
         | Some x => set json "query" (JString x)
         | None => Ok json
         end;
  json ← match processed_terms q with
         | Some x => set json "terms" (JArray (map JString x))
         | None => Ok json
         end;
  json ← match term_ids q with
         | Some x => set json "term_ids" (JArray (map JUnsigned x))
         | None => Ok json
         end;
  json ← match thresholds q with
         | [] => Ok json
         | entries =>
             set json "thresholds"
               (JArray (map (λ entry, JObject [("k"%string, JUnsigned entry.1);
                                                ("score"%string, JFloat (Float.to_double entry.2))])
                            entries))
         end;
  json ← match selections q with
         | [] => Ok json
         | entries =>
             entries' ← traverse
               (λ entry,
                  intersections_vec ← intersections_of entry.2;
                  Ok (JObject [("k"%string, JUnsigned entry.1);
                               ("intersections"%string,
                                JArray (map JUnsigned (alg.sort N.leb intersections_vec)))]))
               entries;
             set json "selections" (JArray entries')
         end;
  Ok json.

(** [to_json_string(indent)]: [to_json().dump(indent)], with no handler
    around [dump].  The text returned is known by the document that
    [nlohmann::json::parse] reads from it. *)
Definition to_json_string (q : QueryContainer) : outcome json :=
  json ← to_json q; reparse json.

(** [from_json(to_json_string(q))].  An exception of [to_json_string]
    leaves before [from_json] is entered, outside its handler.  [from_json]
    then runs on the text written: it looks at the text only through
    [parse], which yields the document [json_string] stands for. *)
Definition json_round_trip (q : QueryContainer) : outcome QueryContainer :=
  json_string ← to_json_string q;
  from_json (λ _, Some json_string) EmptyString.

End Query.

(** ** [QueryReader] (query.cpp) *)

Module Reader.
Import Query.

Inductive Format : Type := Json | Colon.

(** The reader: the lines its stream still holds, the format once it is
    known, and the registered functions in registration order. *)
Record QueryReader : Type := Build {
  m_stream : list string;
  m_format : option Format;
  m_map_functions : list (QueryContainer → QueryContainer);
  m_filter_functions : list (QueryContainer → bool)
}.

(** [from_file] / [from_stdin] on a stream with the given lines. *)
Definition make (lines : list string) : QueryReader :=
  {| m_stream := lines; m_format := None;
     m_map_functions := []; m_filter_functions := [] |}.

(** [map(fn)] and [filter(fn)]: [push_back]. *)
Definition map_ (fn : QueryContainer → QueryContainer) (r : QueryReader) : QueryReader :=
  {| m_stream := m_stream r; m_format := m_format r;
     m_map_functions := m_map_functions r ++ [fn];
     m_filter_functions := m_filter_functions r |}.
Definition filter_ (fn : QueryContainer → bool) (r : QueryReader) : QueryReader :=
  {| m_stream := m_stream r; m_format := m_format r;
     m_map_functions := m_map_functions r;
     m_filter_functions := m_filter_functions r ++ [fn] |}.

Definition with_stream (lines : list string) (fmt : option Format) (r : QueryReader)
    : QueryReader :=
  {| m_stream := lines; m_format := fmt;
     m_map_functions := m_map_functions r;
     m_filter_functions := m_filter_functions r |}.

Section reader.
(** [nlohmann::json::parse]. *)
Variable parse : string → option Json.json.

(** [next_query(reader)]: the reader after the call and the container read,
    [None] at the end of the stream. *)
Definition next_query (r : QueryReader) : outcome (QueryReader * option QueryContainer) :=
  match m_stream r with
  | line :: rest =>
      match m_format r with
      | Some Json =>
          q ← from_json parse line; Ok (with_stream rest (Some Json) r, Some q)
      | Some Colon =>
          Ok (with_stream rest (Some Colon) r, Some (from_colon_format line))
      | None =>
          catch_all
            (q ← from_json parse line; Ok (with_stream rest (Some Json) r, Some q))
            (Ok (with_stream rest (Some Colon) r, Some (from_colon_format line)))
      end
  | [] => Ok (r, None)
  end.

(** The filter loop of [next]:
<<
  for (auto&& fn: m_filter_functions) {
      if (not fn(container)) { continue; }
  }
>>
    [continue] goes on with the next filter, which the loop does anyway. *)
Fixpoint run_filters (fns : list (QueryContainer → bool)) (container : QueryContainer)
    : unit :=
  match fns with
  | [] => tt
  | fn :: fns' =>
      if negb (fn container) then run_filters fns' container
      else run_filters fns' container
  end.

(** The map loop: [container = fn(std::move(container))]. *)
Definition run_maps (fns : list (QueryContainer → QueryContainer))
    (container : QueryContainer) : QueryContainer :=
  fold_left (λ container fn, fn container) fns container.

(** [next()].  The body of [while (true)] returns on every path, so it runs
    once. *)
Definition next (r : QueryReader) : outcome (QueryReader * option QueryContainer) :=
  '(r', query) ← next_query r;
  match query with
  | None => Ok (r', None)
  | Some container =>
      let _ := run_filters (m_filter_functions r) container in
      let container := run_maps (m_map_functions r) container in
      Ok (r', Some container)
  end.

(** What the specification describes: a container that a filter rejects is
    dropped and the next line is read. *)
Fixpoint next_filtered (fuel : nat) (r : QueryReader)
    : outcome (QueryReader * option QueryContainer) :=
  match fuel with
  | O => Ok (r, None)
  | S fuel' =>
      '(r', query) ← next_query r;
      match query with
      | None => Ok (r', None)
      | Some container =>
          if forallb (λ fn, fn container) (m_filter_functions r)
          then Ok (r', Some (run_maps (m_map_functions r) container))
          else next_filtered fuel' r'
      end
  end.

End reader.
End Reader.

(* ===================================================================== *)
(** * Part II: properties                                                 *)
(* ===================================================================== *)

(** ** The order of floating-point scores *)

Section float_order.

(** A key that orders the values that are not NaN the way [SFcompare]
    does: class first, then exponent, then mantissa. *)
Definition fkey (x : spec_float) : Z * Z * Z :=
  match x with
  | S754_nan => (0, 0, 0)
  | S754_zero _ => (0, 0, 0)
  | S754_infinity true => (-2, 0, 0)
  | S754_infinity false => (2, 0, 0)
  | S754_finite true m e => (-1, - e, - Zpos m)
  | S754_finite false m e => (1, e, Zpos m)
  end%Z.

Definition key_le (a b : Z * Z * Z) : Prop :=
  (a.1.1 < b.1.1 ∨ (a.1.1 = b.1.1 ∧ (a.1.2 < b.1.2 ∨ (a.1.2 = b.1.2 ∧ a.2 <= b.2))))%Z.

Definition fle (x y : spec_float) : Prop := key_le (fkey x) (fkey y).

Lemma fle_refl x : fle x x.
Proof. unfold fle, key_le. lia. Qed.

Lemma fle_trans x y z : fle x y → fle y z → fle x z.
Proof. unfold fle, key_le. lia. Qed.

Lemma fle_total x y : fle x y ∨ fle y x.
Proof. unfold fle, key_le. lia. Qed.

Lemma SFcompare_fle x y :
  Float.ordered x → Float.ordered y →
  ∃ c, SFcompare x y = Some c ∧ (c ≠ Gt ↔ fle x y) ∧ (c ≠ Lt ↔ fle y x).
Proof.
  intros Hx Hy.
  destruct x as [[]|[]| |[] mx ex], y as [[]|[]| |[] my ey];
    try contradiction; cbn [SFcompare];
    try (eexists; split; [reflexivity|];
         unfold fle, key_le; cbn; split; split; (congruence || lia)).
  all: change (Pos.compare_cont Eq mx my) with (Pos.compare mx my);
    unfold fle, key_le; cbn;
    destruct (Z.compare_spec ex ey), (Pos.compare_spec mx my); cbn;
    (eexists; split; [reflexivity|]); split; split; (congruence || lia).
Qed.

Lemma SFltb_ordered x y : SFltb x y = true → Float.ordered x ∧ Float.ordered y.
Proof.
  unfold SFltb. destruct x as [[]|[]| |[] mx ex], y as [[]|[]| |[] my ey]; cbn; try discriminate; tauto.
Qed.

Lemma SFltb_fle x y :
  Float.ordered x → Float.ordered y → (SFltb x y = true ↔ ¬ fle y x).
Proof.
  intros Hx Hy. destruct (SFcompare_fle x y Hx Hy) as (c & Hc & H1 & H2).
  unfold SFltb. rewrite Hc. destruct c; split; intros; try discriminate; try reflexivity;
   try tauto; exfalso; intuition congruence.
Qed.

Lemma SFleb_fle x y :
  Float.ordered x → Float.ordered y → (SFleb x y = true ↔ fle x y).
Proof.
  intros Hx Hy. destruct (SFcompare_fle x y Hx Hy) as (c & Hc & H1 & H2).
  unfold SFleb. rewrite Hc. destruct c; split; intros; try discriminate; try reflexivity;
   try tauto; try (apply H1; congruence); exfalso; intuition congruence.
Qed.

Lemma SFltb_false_fle x y :
  Float.ordered x → Float.ordered y → (SFltb x y = false ↔ fle y x).
Proof.
  intros Hx Hy. pose proof (SFltb_fle x y Hx Hy) as E.
  destruct (SFltb x y); split; intros; try discriminate; try reflexivity.
  - exfalso. apply E; auto.
  - destruct (fle_total x y) as [F|F]; [|exact F].
    unfold fle, key_le in *. 
    destruct (Z_lt_le_dec 0 1); [|lia].
    assert (¬ ¬ key_le (fkey y) (fkey x)) by (intros N; apply E in N; discriminate).
    unfold key_le in *. lia.
Qed.

End float_order.

(** ** The heap algorithms keep a heap *)

Section heap_facts.
Context {A : Type} `{Inhabited A} (comp : A → A → bool) (P : A → Prop).
Hypothesis comp_asym : ∀ a b, comp a b = true → comp b a = false.
Hypothesis comp_negtrans :
  ∀ a b c, P a → P b → P c → comp a b = false → comp b c = false → comp a c = false.

Local Abbreviation is_heap_until := (std.is_heap_until comp).

(** The heap order holds on every edge that does not touch [hole], and the
    parent of [hole] is in order with the children of [hole]. *)
Definition hole_inv (len : nat) (v : list A) (hole : nat) : Prop :=
  (∀ i, 0 < i < len → i ≠ hole → (i - 1) / 2 ≠ hole →
        comp (v !!! ((i - 1) / 2)) (v !!! i) = false)
  ∧ (∀ c, 0 < c < len → (c - 1) / 2 = hole → 0 < hole →
        comp (v !!! ((hole - 1) / 2)) (v !!! c) = false).

(** [value] may be stored at [hole] without breaking the order below it. *)
Definition fits_above (len : nat) (v : list A) (hole : nat) (value : A) : Prop :=
  ∀ c, 0 < c < len → (c - 1) / 2 = hole → comp value (v !!! c) = false.

Lemma comp_irrefl a : comp a a = false.
Proof using comp_asym.
  destruct (comp a a) eqn:E; [|reflexivity]. rewrite (comp_asym _ _ E) in E. discriminate.
Qed.

Lemma comp_lt_le_false a b c :
  P a → P b → P c → comp a b = false → comp a c = true → comp c b = false.
Proof using comp_asym comp_negtrans.
  intros Pa Pb Pc Hab Hac.
  destruct (comp c b) eqn:E; [|reflexivity].
  apply comp_asym in E.
  rewrite (comp_negtrans a b c Pa Pb Pc Hab E) in Hac. discriminate.
Qed.

Ltac ins :=
  repeat first
    [ rewrite list_lookup_total_insert_eq by (rewrite ?length_insert; lia)
    | rewrite list_lookup_total_insert_ne by lia ].

Lemma __push_heap_unfold fuel (v : list A) hole value :
  std.__push_heap comp (S fuel) v hole 0 value =
  if (0 <? hole) && comp (v !!! ((hole - 1) / 2)) value
  then std.__push_heap comp fuel (<[hole := v !!! ((hole - 1) / 2)]> v) ((hole - 1) / 2) 0 value
  else <[hole := value]> v.
Proof. reflexivity. Qed.

Lemma __push_heap_length fuel : ∀ (v : list A) hole top value,
  length (std.__push_heap comp fuel v hole top value) = length v.
Proof.
  induction fuel as [|fuel IH]; intros v hole top value; cbn [std.__push_heap].
  - apply length_insert.
  - destruct (_ && _); [rewrite IH|]; apply length_insert.
Qed.

Lemma push_heap_length (v : list A) : length (std.push_heap comp v) = length v.
Proof.
  unfold std.push_heap. destruct (length v) eqn:E; [done|].
  by rewrite __push_heap_length.
Qed.

Lemma __adjust_heap_descend_length fuel : ∀ (v : list A) hole sc len,
  length (std.__adjust_heap_descend comp fuel v hole sc len).1.1 = length v.
Proof.
  induction fuel as [|fuel IH]; intros v hole sc len; cbn [std.__adjust_heap_descend].
  - done.
  - destruct (_ <? _); [|done]. cbv zeta. rewrite IH. apply length_insert.
Qed.

Lemma __adjust_heap_length (v : list A) hole len value :
  length (std.__adjust_heap comp v hole len value) = length v.
Proof.
  unfold std.__adjust_heap.
  pose proof (__adjust_heap_descend_length len v hole hole len) as E.
  destruct (std.__adjust_heap_descend comp len v hole hole len) as [[v' h'] sc'].
  cbn in E. destruct (_ && _); rewrite __push_heap_length, ?length_insert; done.
Qed.

Lemma pop_heap_length (v : list A) : length (std.pop_heap comp v) = length v.
Proof.
  unfold std.pop_heap. destruct (_ <? _); [|done].
  rewrite __adjust_heap_length. apply length_insert.
Qed.

Lemma store_at_hole len (v : list A) hole value :
  hole < len → len ≤ length v →
  hole_inv len v hole → fits_above len v hole value →
  (0 < hole → comp (v !!! ((hole - 1) / 2)) value = false) →
  is_heap_until len (<[hole := value]> v).
Proof.
  intros Hh Hl [I1 I2] F Hp i Hi.
  destruct (decide (i = hole)) as [->|Ni].
  - ins. apply Hp. lia.
  - destruct (decide ((i - 1) / 2 = hole)) as [E|Np].
    + rewrite E. ins. by apply F.
    + ins. by apply I1.
Qed.

Lemma __push_heap_correct fuel : ∀ (v : list A) hole value len,
  hole ≤ fuel → hole < len → len ≤ length v → Forall P v → P value →
  hole_inv len v hole → fits_above len v hole value →
  is_heap_until len (std.__push_heap comp fuel v hole 0 value)
  ∧ Forall P (std.__push_heap comp fuel v hole 0 value)
  ∧ length (std.__push_heap comp fuel v hole 0 value) = length v.
Proof using comp_asym comp_negtrans.
  induction fuel as [|fuel IH]; intros v hole value len Hf Hh Hl Pv Px I F.
  - cbn. split; [|split].
    + apply store_at_hole; auto. lia.
    + by apply Forall_insert.
    + apply length_insert.
  - rewrite __push_heap_unfold.
    set (par := (hole - 1) / 2).
    destruct ((0 <? hole) && comp (v !!! par) value) eqn:E.
    + apply andb_true_iff in E as [E1 E2]. apply Nat.ltb_lt in E1.
      assert (Hpar : par < hole) by (subst par; lia).
      assert (Ppar : P (v !!! par)) by (apply Forall_lookup_total_1; [done|lia]).
      destruct I as [I1 I2].
      destruct (IH (<[hole := v !!! par]> v) par value len) as (R1 & R2 & R3);
        try rewrite length_insert; try lia; auto.
      * by apply Forall_insert.
      * split.
        -- intros i Hi N1 N2.
           destruct (decide (i = hole)) as [->|Ni]; [by subst par|].
           destruct (decide ((i - 1) / 2 = hole)) as [Ei|Np].
           ++ rewrite Ei. ins. apply I2; auto.
           ++ ins. apply I1; auto.
        -- intros c Hc Ec Hp.
           assert (G : comp (v !!! ((par - 1) / 2)) (v !!! par) = false).
           { apply I1; subst par; lia. }
           destruct (decide (c = hole)) as [->|Nc].
           ++ ins. exact G.
           ++ ins. apply (comp_negtrans _ (v !!! par)); auto.
              ** apply Forall_lookup_total_1; [done|lia].
              ** apply Forall_lookup_total_1; [done|lia].
              ** rewrite <- Ec. apply I1; lia.
      * intros c Hc Ec.
        destruct (decide (c = hole)) as [->|Nc].
        -- ins. by apply comp_asym.
        -- ins. apply (comp_lt_le_false (v !!! par)); auto.
           ++ apply Forall_lookup_total_1; [done|lia].
           ++ rewrite <- Ec. apply I1; lia.
      * rewrite length_insert in R3. auto.
    + split; [|split].
      * apply store_at_hole; auto. intros Hp.
        apply andb_false_iff in E as [E|E]; [|exact E].
        apply Nat.ltb_ge in E. lia.
      * by apply Forall_insert.
      * apply length_insert.
Qed.

Lemma heap_front_least (v : list A) len :
  len ≤ length v → Forall P v → is_heap_until len v →
  ∀ i, i < len → comp (v !!! 0) (v !!! i) = false.
Proof using comp_asym comp_negtrans.
  intros Hl Pv Hh i. induction (lt_wf i) as [i _ IH]. intros Hi.
  destruct (decide (i = 0)) as [->|Ni]; [apply comp_irrefl|].
  apply (comp_negtrans _ (v !!! ((i - 1) / 2))).
  - apply Forall_lookup_total_1; [done|lia].
  - apply Forall_lookup_total_1; [done|lia].
  - apply Forall_lookup_total_1; [done|lia].
  - apply IH; lia.
  - apply Hh. lia.
Qed.

Lemma push_heap_correct (v : list A) :
  Forall P v → is_heap_until (length v - 1) v →
  is_heap_until (length v) (std.push_heap comp v)
  ∧ Forall P (std.push_heap comp v)
  ∧ length (std.push_heap comp v) = length v.
Proof using comp_asym comp_negtrans.
  intros Pv Hh. unfold std.push_heap.
  destruct (length v) as [|n] eqn:En.
  - split; [|done]. intros i Hi. lia.
  - destruct (__push_heap_correct (S n) v n (v !!! n) (S n)) as (R1 & R2 & R3);
      [lia|lia|lia|done| | | |].
    + apply Forall_lookup_total_1; [done|lia].
    + split.
      * intros i Hi N1 N2. apply Hh. lia.
      * intros c Hc Ec. lia.
    + intros c Hc Ec. lia.
    + rewrite R3. auto.
Qed.

Lemma __adjust_heap_descend_unfold fuel (v : list A) hole sc len :
  std.__adjust_heap_descend comp (S fuel) v hole sc len =
  if sc <? (len - 1) / 2 then
    let c := if comp (v !!! (2 * (sc + 1))) (v !!! (2 * (sc + 1) - 1))
             then 2 * (sc + 1) - 1 else 2 * (sc + 1) in
    std.__adjust_heap_descend comp fuel (<[hole := v !!! c]> v) c c len
  else (v, hole, sc).
Proof. reflexivity. Qed.

Lemma hole_moves_down len (v : list A) hole c :
  len ≤ length v → 0 < c < len → (c - 1) / 2 = hole →
  hole_inv len v hole →
  (∀ o, 0 < o < len → (o - 1) / 2 = hole → o ≠ c → comp (v !!! c) (v !!! o) = false) →
  hole_inv len (<[hole := v !!! c]> v) c.
Proof.
  intros Hl Hc Ec [I1 I2] Ho. split.
  - intros i Hi N1 N2.
    destruct (decide (i = hole)) as [->|Ni].
    + ins. apply I2; lia.
    + destruct (decide ((i - 1) / 2 = hole)) as [Ei|Np].
      * rewrite Ei. ins. by apply Ho.
      * ins. by apply I1.
  - intros x Hx Ex _. rewrite Ec. ins. rewrite <- Ex. apply I1; lia.
Qed.

Lemma __adjust_heap_descend_correct fuel : ∀ (v : list A) hole len,
  hole < len → len ≤ length v → Forall P v → hole_inv len v hole →
  (len - 1) / 2 ≤ hole + fuel →
  ∃ v' hole',
    std.__adjust_heap_descend comp fuel v hole hole len = (v', hole', hole')
    ∧ hole_inv len v' hole' ∧ hole' < len ∧ (len - 1) / 2 ≤ hole'
    ∧ Forall P v' ∧ length v' = length v.
Proof using comp_asym.
  induction fuel as [|fuel IH]; intros v hole len Hh Hl Pv I Hm.
  - exists v, hole. split; [reflexivity|]. repeat split; try apply I; auto. lia.
  - rewrite __adjust_heap_descend_unfold.
    destruct (hole <? (len - 1) / 2) eqn:E.
    + apply Nat.ltb_lt in E. cbv zeta.
      set (r := 2 * (hole + 1)).
      set (c := if comp (v !!! r) (v !!! (r - 1)) then r - 1 else r).
      assert (Hr : r = 2 * (hole + 1)) by reflexivity.
      assert (Hc : c = r - 1 ∨ c = r) by (subst c; destruct (comp _ _); auto).
      destruct (IH (<[hole := v !!! c]> v) c len) as (v' & hole' & R & R1 & R2 & R3 & R4 & R5).
      * lia.
      * rewrite length_insert. lia.
      * apply Forall_insert; [done|]. apply Forall_lookup_total_1; [done|]. lia.
      * apply hole_moves_down; auto; try lia.
        intros o Ho Eo No. subst c.
        destruct (comp (v !!! r) (v !!! (r - 1))) eqn:Ecmp.
        -- replace o with r by lia. by apply comp_asym.
        -- replace o with (r - 1) by lia. exact Ecmp.
      * lia.
      * exists v', hole'. rewrite length_insert in R5. auto 10.
    + apply Nat.ltb_ge in E. exists v, hole. repeat split; try apply I; auto.
Qed.

Lemma __adjust_heap_correct (v : list A) len value :
  0 < len → len ≤ length v → Forall P v → P value → hole_inv len v 0 →
  is_heap_until len (std.__adjust_heap comp v 0 len value)
  ∧ Forall P (std.__adjust_heap comp v 0 len value)
  ∧ length (std.__adjust_heap comp v 0 len value) = length v.
Proof using comp_asym comp_negtrans.
  intros Hlen Hl Pv Px I. unfold std.__adjust_heap.
  destruct (__adjust_heap_descend_correct len v 0 len) as (v' & hole' & R & R1 & R2 & R3 & R4 & R5);
    auto; [lia|].
  rewrite R.
  destruct (Nat.even len && (hole' =? (len - 2) / 2)) eqn:E.
  - apply andb_true_iff in E as [E1 E2]. apply Nat.eqb_eq in E2.
    apply Nat.even_spec in E1. destruct E1 as [h E1].
    replace (2 * (hole' + 1) - 1) with (len - 1) by lia.
    destruct (__push_heap_correct (S (len - 1)) (<[hole' := v' !!! (len - 1)]> v')
                (len - 1) value len) as (Q1 & Q2 & Q3);
      [lia|lia|rewrite length_insert; lia| | done | | |].
    + apply Forall_insert; [done|]. apply Forall_lookup_total_1; [done|lia].
    + apply hole_moves_down; auto; lia.
    + intros c Hc Ec. lia.
    + rewrite length_insert in Q3. rewrite Q3, R5. auto.
  - destruct (__push_heap_correct (S hole') v' hole' value len) as (Q1 & Q2 & Q3);
      [lia|lia|lia|done|done|done| |].
    + intros c Hc Ec. exfalso.
      apply andb_false_iff in E as [E|E].
      * apply (f_equal negb) in E. rewrite Nat.negb_even in E. cbn in E.
        apply Nat.odd_spec in E. destruct E as [h E]. lia.
      * apply Nat.eqb_neq in E.
        destruct (Nat.Even_or_Odd len) as [[h Eh]|[h Eh]]; lia.
    + rewrite Q3, R5. auto.
Qed.

Lemma pop_heap_correct (v : list A) :
  Forall P v → is_heap_until (length v - 1) v →
  is_heap_until (length v - 1) (std.pop_heap comp v)
  ∧ Forall P (std.pop_heap comp v)
  ∧ length (std.pop_heap comp v) = length v.
Proof using comp_asym comp_negtrans.
  intros Pv Hh. unfold std.pop_heap.
  destruct (1 <? length v) eqn:E.
  - apply Nat.ltb_lt in E.
    destruct (__adjust_heap_correct (<[length v - 1 := v !!! 0]> v) (length v - 1)
                (v !!! (length v - 1))) as (R1 & R2 & R3);
      [lia|rewrite length_insert; lia| | | |].
    + apply Forall_insert; [done|]. apply Forall_lookup_total_1; [done|lia].
    + apply Forall_lookup_total_1; [done|lia].
    + split.
      * intros i Hi N1 N2. ins. apply Hh. lia.
      * intros c Hc Ec Hp. lia.
    + rewrite length_insert in R3. auto.
  - apply Nat.ltb_ge in E. split; [|done]. intros i Hi. lia.
Qed.

End heap_facts.

Section topk_facts.
Import TopK.

Definition ordered_entry (e : entry_type) : Prop := Float.ordered e.1.

Lemma min_heap_order_asym a b :
  min_heap_order a b = true → min_heap_order b a = false.
Proof.
  unfold min_heap_order, Float.gt. intros E.
  destruct (SFltb_ordered _ _ E) as [Ob Oa].
  apply SFltb_fle in E; auto. apply SFltb_false_fle; auto.
  destruct (fle_total b.1 a.1); tauto.
Qed.

Lemma min_heap_order_negtrans a b c :
  ordered_entry a → ordered_entry b → ordered_entry c →
  min_heap_order a b = false → min_heap_order b c = false →
  min_heap_order a c = false.
Proof.
  unfold min_heap_order, Float.gt, ordered_entry. intros Oa Ob Oc E1 E2.
  apply SFltb_false_fle in E1; auto. apply SFltb_false_fle in E2; auto.
  apply SFltb_false_fle; auto. eapply fle_trans; eauto.
Qed.

(** The invariant of the queue between calls. *)
Definition queue_inv (q : topk_queue) : Prop :=
  (size q <= m_k q)%N
  ∧ std.is_heap_until min_heap_order (length (m_q q)) (m_q q)
  ∧ Forall ordered_entry (m_q q)
  ∧ (size q = m_k q → is_min_score (m_threshold q) (m_q q)).

Lemma heap_front_is_min (v : list entry_type) e :
  std.is_heap_until min_heap_order (length v) v → Forall ordered_entry v →
  front v = Some e → is_min_score e.1 v.
Proof.
  intros Hh Ov Hf. destruct v as [|e0 v]; [discriminate|]. cbn in Hf. simplify_eq.
  split.
  - exists e.2. destruct e; cbn. left.
  - intros x Hx. apply list_elem_of_lookup_total in Hx as (i & Hi & <-).
    pose proof (heap_front_least min_heap_order ordered_entry
                  min_heap_order_asym min_heap_order_negtrans
                  (e :: v) (length (e :: v)) (Nat.le_refl _) Ov Hh i Hi) as L.
    cbn [lookup_total list_lookup_total] in L.
    unfold min_heap_order, Float.gt in L.
    pose proof (Forall_lookup_total_1 _ _ i Ov Hi) as Oi.
    pose proof (Forall_lookup_total_1 _ _ 0 Ov ltac:(cbn; lia)) as O0.
    cbn in O0. unfold ordered_entry in *.
    apply SFltb_false_fle in L; auto. apply SFleb_fle; auto.
Qed.

Lemma is_heap_until_take (v : list entry_type) n :
  std.is_heap_until min_heap_order n v → std.is_heap_until min_heap_order n (take n v).
Proof.
  intros Hh i Hi. rewrite !lookup_total_take_lt by lia. by apply Hh.
Qed.

Lemma insert_preserves_inv q score docid :
  (1 <= m_k q)%N → queue_inv q →
  ∃ b q', insert score docid q = Some (b, q') ∧ queue_inv q' ∧ m_k q' = m_k q.
Proof.
  intros Hk (I1 & I2 & I3 & I4). unfold insert, size in *.
  destruct (would_enter score q) eqn:W; cbn [negb].
  2:{ exists false, q. split; [reflexivity|]. split; [|reflexivity].
      unfold queue_inv, size. auto. }
  unfold would_enter, Float.gt in W. apply SFltb_ordered in W as [_ Os].
  set (v := m_q q ++ [(score, docid)]).
  assert (Lv : length v = S (length (m_q q))) by (subst v; rewrite length_app; cbn; lia).
  assert (Ov : Forall ordered_entry v).
  { subst v. apply Forall_app; split; [done|]. by constructor. }
  assert (Hv : std.is_heap_until min_heap_order (length v - 1) v).
  { intros i Hi. subst v. rewrite !lookup_total_app_l by lia. apply I2. lia. }
  destruct (N.of_nat (length v) <=? m_k q)%N eqn:E.
  - apply N.leb_le in E.
    destruct (push_heap_correct min_heap_order ordered_entry
                min_heap_order_asym min_heap_order_negtrans v Ov Hv) as (R1 & R2 & R3).
    rewrite <- R3 in R1.
    destruct (N.of_nat (length (std.push_heap min_heap_order v)) =? m_k q)%N eqn:E2.
    + destruct (std.push_heap min_heap_order v) as [|e0 w] eqn:Ew; [cbn in R3; lia|].
      cbn [front head mbind option_bind]. eexists _, _. split; [reflexivity|].
      unfold queue_inv, size; cbn [m_k m_q m_threshold].
      split; [|reflexivity]. split; [lia|]. split; [done|]. split; [done|].
      intros _. by apply (heap_front_is_min (e0 :: w) e0).
    + apply N.eqb_neq in E2. eexists _, _. split; [reflexivity|].
      unfold queue_inv, size; cbn [m_k m_q m_threshold].
      split; [|reflexivity]. split; [lia|]. split; [done|]. split; [done|].
      intros; lia.
  - apply N.leb_gt in E.
    destruct (pop_heap_correct min_heap_order ordered_entry
                min_heap_order_asym min_heap_order_negtrans v Ov Hv) as (R1 & R2 & R3).
    rewrite removelast_firstn_len, R3, Lv. cbn [Init.Nat.pred].
    set (w := take (length (m_q q)) (std.pop_heap min_heap_order v)).
    assert (Lw : length w = length (m_q q)) by (subst w; rewrite length_take; lia).
    assert (Hw : std.is_heap_until min_heap_order (length w) w).
    { rewrite Lw. apply is_heap_until_take. rewrite Lv in R1.
      by replace (S (length (m_q q)) - 1) with (length (m_q q)) in R1 by lia. }
    assert (Ow : Forall ordered_entry w) by (by apply Forall_take).
    clearbody w. destruct w as [|e0 w']; [cbn in Lw; lia|].
    cbn [front head mbind option_bind]. eexists _, _. split; [reflexivity|].
    unfold queue_inv, size; cbn [m_k m_q m_threshold].
    split; [|reflexivity]. split; [lia|]. split; [done|]. split; [done|].
    intros _. by apply (heap_front_is_min (e0 :: w') e0).
Qed.

Lemma start_inv k hint : (1 <= k)%N → queue_inv (start k hint) ∧ m_k (start k hint) = k.
Proof.
  intros Hk. split; [|by destruct hint].
  assert (E : m_q (start k hint) = []) by (by destruct hint).
  assert (K : m_k (start k hint) = k) by (by destruct hint).
  unfold queue_inv, size. rewrite E, K. cbn.
  split; [lia|]. split; [intros i Hi; lia|]. split; [constructor|]. lia.
Qed.

Lemma insert_all_inv ops : ∀ q,
  (1 <= m_k q)%N → queue_inv q →
  ∃ q', insert_all ops q = Some q' ∧ queue_inv q' ∧ m_k q' = m_k q.
Proof.
  induction ops as [|[score docid] ops IH]; intros q Hk I.
  - exists q. auto.
  - destruct (insert_preserves_inv q score docid Hk I) as (b & q1 & E & I1 & K1).
    destruct (IH q1) as (q' & E' & I' & K'); [lia|done|].
    exists q'. cbn [insert_all]. rewrite E. cbn. split; [done|]. split; [done|]. congruence.
Qed.




(** C10.  With a capacity of at least 1, [insert] never reads the front of
    an empty heap, whatever the queue holds.  With capacity 0 the queue is
    empty, and inserting a score above the threshold pushes the entry, pops
    it again and then reads [m_q.front()] of the empty vector. *)
Theorem insert_front_access (q : topk_queue) (score : spec_float) (docid : N) :
  ((1 <= m_k q)%N → ∃ r, insert score docid q = Some r)
  ∧ (m_k q = 0%N → m_q q = [] → would_enter score q = true →
     insert score docid q = None).
Proof.
  split.
  - intros Hk. unfold insert.
    destruct (negb (would_enter score q)); [by eexists|].
    set (v := m_q q ++ [(score, docid)]).
    assert (Lv : length v = S (length (m_q q))) by (subst v; rewrite length_app; cbn; lia).
    destruct (N.of_nat (length v) <=? m_k q)%N eqn:E.
    + pose proof (push_heap_length min_heap_order v) as L. rewrite Lv in L.
      destruct (_ =? _)%N; [|by eexists].
      destruct (std.push_heap min_heap_order v); [discriminate L|]. by eexists.
    + apply N.leb_gt in E.
      pose proof (pop_heap_length min_heap_order v) as L.
      rewrite removelast_firstn_len, L, Lv. cbn [Init.Nat.pred].
      destruct (take _ _) eqn:T; [|by eexists].
      apply (f_equal length) in T. rewrite length_take, L, Lv in T.
      cbn [length] in T. lia.
  - intros Hk Hq W. unfold insert. rewrite W, Hk, Hq. reflexivity.
Qed.

Lemma insert_front_access_witness :
  (∃ r, insert (Float.of_Z 5) 7 (make 1) = Some r)
  ∧ insert (Float.of_Z 5) 7 (make 0) = None.
Proof.
  split.
  - apply (insert_front_access (make 1) (Float.of_Z 5) 7). reflexivity.
  - apply (insert_front_access (make 0) (Float.of_Z 5) 7); reflexivity.
Defined.

End topk_facts.

(** ** Request flags *)

Section flag_facts.
Import Flags.

Lemma or_flags_is_lhs lhs rhs : or_flags lhs rhs = {| flags := bits lhs |}.
Proof. unfold or_flags. by rewrite N.lor_diag. Qed.

Lemma and_flags_is_lhs lhs rhs : and_flags lhs rhs = {| flags := bits lhs |}.
Proof. unfold and_flags. by rewrite N.land_diag. Qed.

(** C9.  The claim: [a | b] holds exactly the flags of [a] and of [b], and
    [a & b] their bitwise intersection.  The code combines [lhs] with itself:
    for [Threshold] and [Weights] it returns the set [{Threshold}] for both
    operators, where the bitwise union is [0b011] and the intersection is
    empty. *)
Theorem request_flag_operators_ignore_rhs :
  or_flags Threshold Weights = {| flags := 1 |}
  ∧ contains (or_flags Threshold Weights) Weights = false
  ∧ N.lor (bits Threshold) (bits Weights) = 3%N
  ∧ and_flags Threshold Weights = {| flags := 1 |}
  ∧ contains (and_flags Threshold Weights) Threshold = true
  ∧ N.land (bits Threshold) (bits Weights) = 0%N.
Proof. repeat split. Qed.

End flag_facts.

(** ** Raw cursors *)

Section cursor_facts.
Import RawCursor.
Context {T : Type} `{TriviallyCopyable T}.

Lemma subspan_past_end (bytes : list Byte.byte) (offset count : N) :
  (N.of_nat (length bytes) < offset)%N → subspan bytes offset count = None.
Proof.
  intros Hlt. unfold subspan.
  destruct (offset <=? N.of_nat (length bytes))%N eqn:E; [|done].
  apply N.leb_le in E. lia.
Qed.

(** C6 (as amended).  A cursor on its last element becomes exhausted by
    [advance()] and then reads as the sentinel.  On an exhausted cursor
    [advance()] is not guarded: the position moves [sizeof(T)] past the end,
    [empty()] no longer holds and the dereference leaves the span. *)
Theorem raw_cursor_exhaustion (c : RawCursor) :
  (N.of_nat (length (m_bytes c)) + sizeof < 2 ^ 64)%N →
  ((m_current c + sizeof)%N = N.of_nat (length (m_bytes c)) →
     empty (advance c) = true ∧ deref (advance c) = Some sentinel)
  ∧ (empty c = true →
     deref c = Some sentinel
     ∧ m_current (advance c) = (N.of_nat (length (m_bytes c)) + sizeof)%N
     ∧ empty (advance c) = false
     ∧ deref (advance c) = None).
Proof.
  intros Hsz. pose proof sizeof_pos as Hpos. split.
  - intros Hlast.
    assert (E : empty (advance c) = true).
    { unfold empty, advance, size_t; cbn. apply N.eqb_eq.
      rewrite Hlast. apply N.mod_small. lia. }
    split; [exact E|]. unfold deref. by rewrite E.
  - intros He. unfold empty in He. apply N.eqb_eq in He.
    assert (P : m_current (advance c) = (N.of_nat (length (m_bytes c)) + sizeof)%N).
    { unfold advance, size_t; cbn. rewrite He. apply N.mod_small. lia. }
    assert (E : empty (advance c) = false).
    { unfold empty. rewrite P. apply N.eqb_neq. cbn. lia. }
    split; [|split; [exact P|split; [exact E|]]].
    + unfold deref, empty. rewrite He, N.eqb_refl. done.
    + unfold deref. rewrite E, P. cbn [m_bytes advance].
      rewrite subspan_past_end; [done|lia].
Qed.

End cursor_facts.

Section cursor_examples.
Import RawCursor.

(** The encoding of the one-element list [7]: length prefix, then the
    element. *)
Definition one_posting : list Byte.byte :=
  [Byte.x01; Byte.x00; Byte.x00; Byte.x00; Byte.x07; Byte.x00; Byte.x00; Byte.x00].

Definition exhausted_cursor : RawCursor :=
  {| m_current := 4; m_bytes := drop 4 one_posting |}.

Lemma exhausted_cursor_reached :
  (c ← make (T:=N) one_posting; next (T:=N) c) = Some (exhausted_cursor, None).
Proof. reflexivity. Qed.

Lemma raw_cursor_exhaustion_witness :
  deref (T:=N) exhausted_cursor = Some 4294967295%N
  ∧ m_current (advance (T:=N) exhausted_cursor) = 8%N
  ∧ empty (advance (T:=N) exhausted_cursor) = false
  ∧ deref (T:=N) (advance (T:=N) exhausted_cursor) = None.
Proof.
  exact (proj2 (raw_cursor_exhaustion (T:=N) exhausted_cursor eq_refl) eq_refl).
Defined.

(** C6 as stated fails: advancing the exhausted cursor over [7] leaves a
    cursor that is not exhausted and has no value. *)
Lemma raw_cursor_advance_not_noop :
  ¬ (∀ c : RawCursor,
       empty c = true → deref (T:=N) c = Some (sentinel (T:=N)) →
       empty (advance (T:=N) c) = true
       ∧ deref (T:=N) (advance (T:=N) c) = Some (sentinel (T:=N))).
Proof.
  intros C. destruct (C exhausted_cursor eq_refl eq_refl) as [E _].
  discriminate E.
Qed.

End cursor_examples.

(** ** Live blocks *)

Section live_block_facts.
Import LiveBlock.

Lemma append_one_bit (b : bool) (bv : bit_vector) :
  append_bits (if b then 1 else 0) 1 bv = bv ++ [b].
Proof. by destruct b. Qed.

Lemma scalar_loop_spec scores threshold n : ∀ i bv,
  scalar_loop scores threshold n i bv =
  bv ++ map (λ j, (threshold <=? scalar_sum scores j)%Z) (seq i n).
Proof.
  induction n as [|n IH]; intros i bv; cbn [scalar_loop seq map].
  - by rewrite app_nil_r.
  - rewrite IH. unfold scalar_step. rewrite append_one_bit, <- app_assoc.
    by replace (i + 1) with (S i) by lia.
Qed.

(** The scalar code emits one bit per position of [scores[0]], and bit [i]
    compares the threshold with the 16-bit running sum. *)
Lemma compute_live_quant16_spec scores threshold :
  compute_live_quant16 scores threshold =
  map (λ i, (threshold <=? scalar_sum scores i)%Z) (seq 0 (length (nth 0 scores []))).
Proof. unfold compute_live_quant16. by rewrite scalar_loop_spec. Qed.

Lemma compute_live_quant16_length scores threshold :
  length (compute_live_quant16 scores threshold) = length (nth 0 scores []).
Proof. by rewrite compute_live_quant16_spec, length_map, length_seq. Qed.

Lemma wrapped_fold (f : nat → Z) (l : list nat) : ∀ a,
  (0 <= a < 65536)%Z →
  fold_left (λ sum term, u16 (sum + f term)) l a =
  u16 (fold_left (λ sum term, sum + f term)%Z l a).
Proof.
  unfold u16. induction l as [|t l IH]; intros a Ha; cbn [fold_left].
  - by rewrite Z.mod_small.
  - rewrite IH by (apply Z.mod_pos_bound; lia).
    clear IH. revert a Ha.
    assert (G : ∀ a : Z, (fold_left (λ sum term, sum + f term) l a
                          = a + fold_left (λ sum term, sum + f term) l 0)%Z).
    { clear. induction l as [|t l IH]; intros a; cbn [fold_left]; [lia|].
      rewrite (IH (a + f t)%Z), (IH (0 + f t)%Z). lia. }
    intros a Ha. rewrite (G ((a + f t) mod 65536)%Z), (G (a + f t)%Z).
    by rewrite Zplus_mod_idemp_l.
Qed.

Lemma plain_fold_bounds (f : nat → Z) (l : list nat) : ∀ a,
  (∀ t, t ∈ l → 0 <= f t <= 255)%Z →
  (a <= fold_left (λ sum term, sum + f term) l a <= a + 255 * Z.of_nat (length l))%Z.
Proof.
  induction l as [|t l IH]; intros a Hf; cbn [fold_left length]; [lia|].
  specialize (IH (a + f t)%Z (λ t' Ht', Hf t' (list_elem_of_further _ _ _ Ht'))).
  specialize (Hf t (list_elem_of_here _ _)). lia.
Qed.

Lemma at_bounds scores term i :
  well_formed scores → (0 <= at_ scores term i <= 255)%Z.
Proof.
  intros [_ Hwf]. unfold at_.
  destruct (decide (term < length scores)) as [Ht|Ht].
  - pose proof (proj1 (Forall_nth _ [] scores) Hwf term Ht) as [_ Hb]. cbn in Hb.
    destruct (decide (i < length (nth term scores []))) as [Hi|Hi].
    + pose proof (proj1 (Forall_nth _ 0%Z _) Hb i Hi). cbn in *. lia.
    + rewrite (nth_overflow (nth term scores [])) by lia. lia.
  - rewrite (nth_overflow scores) by lia. destruct i; cbn; lia.
Qed.

(** Up to 257 terms the 16-bit sum cannot overflow and is the saturated
    sum; from 258 terms on it can wrap around. *)
Lemma scalar_sum_saturated scores i :
  well_formed scores → length scores <= 257 →
  scalar_sum scores i = saturated_sum scores i.
Proof.
  intros Hwf Hn. unfold scalar_sum, saturated_sum.
  assert (Hlen : 0 < length scores) by (destruct Hwf as [Hne _]; destruct scores; cbn; [done|lia]).
  pose proof (at_bounds scores 0 i Hwf) as H0.
  rewrite wrapped_fold by lia.
  replace (length scores) with (S (length scores - 1)) at 2 by lia.
  cbn [seq fold_left]. rewrite Z.add_0_l.
  pose proof (plain_fold_bounds (λ term, at_ scores term i) (seq 1 (length scores - 1))
                (at_ scores 0 i)) as B.
  rewrite length_seq in B.
  unfold u16. rewrite Z.mod_small, Z.min_r; try reflexivity.
  all: lapply B; [lia|]; intros t Ht; by apply at_bounds.
Qed.

Definition saturating_input (positions : nat) : list (list Z) :=
  replicate 258 (replicate positions 255%Z).

Lemma saturating_input_well_formed positions : well_formed (saturating_input positions).
Proof.
  split; [done|]. apply Forall_replicate. split.
  - cbn. reflexivity.
  - apply Forall_replicate. lia.
Qed.

(** C4.  The claim: bit [i] of the scalar result is 1 exactly when the
    saturated sum at [i] reaches the threshold.  With 258 terms of score 255
    and threshold 255 the saturated sum is 65535, but the code's [uint16_t]
    sum has wrapped to 254 and the bit is 0. *)
Theorem scalar_sum_wraps_instead_of_saturating :
  well_formed (saturating_input 1)
  ∧ saturated_sum (saturating_input 1) 0 = 65535%Z
  ∧ scalar_sum (saturating_input 1) 0 = 254%Z
  ∧ compute_live_quant16 (saturating_input 1) 255 = [false].
Proof.
  split; [apply saturating_input_well_formed|]. by vm_compute.
Qed.

(** C3.  The claim: the scalar, 128-bit and 256-bit variants return the same
    bits.  With 258 terms of score 255 over 24 positions and threshold 255
    the scalar sums wrap and the vector sums saturate, so the results
    differ: the scalar code clears every bit, and the 256-bit code sets the
    16 bits of its vector loop and clears the 8 bits of its scalar tail.
    The 128-bit loop sets the 8 bits of its first group, and returns
    nothing defined: its last load of 16 bytes starts 8 bytes before the end
    of the vectors. *)
Theorem live_block_variants_disagree :
  well_formed (saturating_input 24)
  ∧ compute_live_quant16 (saturating_input 24) 255 = replicate 24 false
  ∧ avx_step (saturating_input 24) 255 0 [] = Some (replicate 8 true)
  ∧ avx_compute_live_quant16 (saturating_input 24) 255 = None
  ∧ avx2_compute_live_quant16 (saturating_input 24) 255
    = Some (replicate 16 true ++ replicate 8 false).
Proof.
  split; [apply saturating_input_well_formed|]. by vm_compute.
Qed.

(** The scenario of the specification: two terms, four blocks. *)
Example live_block_scenario :
  compute_live_quant16 [[200; 200; 200; 200]; [100; 100; 100; 100]]%Z 255
    = [true; true; true; true]
  ∧ compute_live_quant16 [[200; 200; 200; 200]; [100; 100; 100; 100]]%Z 301
    = [false; false; false; false].
Proof. by vm_compute. Qed.

End live_block_facts.

(** ** The vector loops compute the saturated sums *)

Section simd_facts.
Import LiveBlock.

Definition in_u8 (b : Z) : Prop := (0 <= b < 256)%Z.
Definition in_u16 (w : Z) : Prop := (0 <= w < 65536)%Z.

(** The register whose 16-bit lane [j] holds [f j]. *)
Definition lanes_reg (width : nat) (f : nat → Z) : reg :=
  of_lanes16 (map f (seq 0 width)).

Lemma lanes16_of_lanes16 l : Forall in_u16 l → lanes16 (of_lanes16 l) = l.
Proof.
  unfold of_lanes16, in_u16.
  induction 1 as [|w l Hw _ IH]; cbn [flat_map app lanes16]; [done|].
  rewrite IH. f_equal. lia.
Qed.

Lemma zip_with_map {A B C D} (g : B → C → D) (f1 : A → B) (f2 : A → C) l :
  zip_with g (map f1 l) (map f2 l) = map (λ x, g (f1 x) (f2 x)) l.
Proof. induction l as [|x l IH]; cbn; [done|]. by rewrite IH. Qed.

Lemma lanewise16_lanes_reg g width f1 f2 :
  (∀ j, j < width → in_u16 (f1 j)) → (∀ j, j < width → in_u16 (f2 j)) →
  lanewise16 g (lanes_reg width f1) (lanes_reg width f2)
  = lanes_reg width (λ j, g (f1 j) (f2 j)).
Proof.
  intros H1 H2. unfold lanewise16, lanes_reg.
  rewrite !lanes16_of_lanes16, zip_with_map; [done| |].
  - apply Forall_forall. intros w Hw. apply list_elem_of_In, in_map_iff in Hw as (j & <- & Hj).
    apply in_seq in Hj. apply H2. lia.
  - apply Forall_forall. intros w Hw. apply list_elem_of_In, in_map_iff in Hw as (j & <- & Hj).
    apply in_seq in Hj. apply H1. lia.
Qed.

Lemma lanes_reg_ext width f g :
  (∀ j, j < width → f j = g j) → lanes_reg width f = lanes_reg width g.
Proof.
  intros E. unfold lanes_reg. f_equal. apply map_ext_in. intros j Hj.
  apply in_seq in Hj. apply E. lia.
Qed.

(** [load64] and [load] widen bytes to lanes. *)
Lemma widen_bytes (f : nat → Z) (s : list nat) :
  (∀ j, in_u8 (f j)) →
  interleave (map f s) (replicate (length s) 0%Z) = of_lanes16 (map f s).
Proof.
  intros Hb. unfold of_lanes16.
  induction s as [|j s IH]; cbn [map length replicate interleave flat_map app]; [done|].
  rewrite IH. specialize (Hb j). unfold in_u8 in Hb.
  f_equal; [|f_equal]; lia.
Qed.

Lemma loadu_in_bounds data i :
  i + 16 <= length data →
  _mm_loadu_si128 data i = Some (map (λ j, nth (i + j) data 0%Z) (seq 0 16)).
Proof.
  intros Hi. unfold _mm_loadu_si128.
  destruct (Nat.leb_spec (i + 16) (length data)) as [_|]; [|lia]. f_equal.
  set (f := λ j, nth (i + j) data 0%Z).
  apply (nth_ext _ _ 0%Z (f 0)).
  - rewrite length_take, length_drop, length_map, length_seq. lia.
  - intros k Hk. rewrite length_take, length_drop in Hk.
    rewrite nth_firstn, nth_skipn, map_nth, seq_nth by lia.
    by destruct (Nat.ltb_spec k 16) as [_|]; [|lia].
Qed.

Lemma loadu_past_end data i :
  length data < i + 16 → _mm_loadu_si128 data i = None.
Proof.
  intros Hi. unfold _mm_loadu_si128.
  destruct (Nat.leb_spec (i + 16) (length data)); [lia|done].
Qed.

Lemma load64_lanes data i :
  i + 16 <= length data → (∀ j, in_u8 (nth (i + j) data 0%Z)) →
  load64 data i = Some (lanes_reg 8 (λ j, nth (i + j) data 0%Z)).
Proof.
  intros Hi Hb. unfold load64. rewrite loadu_in_bounds by done.
  cbn [mbind option_bind]. f_equal.
  unfold _mm_unpacklo_epi8, _mm_setzero_si128, lanes_reg.
  rewrite <- (widen_bytes (λ j, nth (i + j) data 0%Z) (seq 0 8) Hb). reflexivity.
Qed.

Lemma load_lanes data i :
  i + 16 <= length data → (∀ j, in_u8 (nth (i + j) data 0%Z)) →
  load data i = Some (lanes_reg 16 (λ j, nth (i + j) data 0%Z)).
Proof.
  intros Hi Hb. unfold load. rewrite loadu_in_bounds by done.
  cbn [mbind option_bind]. f_equal. unfold lanes_reg.
  rewrite <- (widen_bytes (λ j, nth (i + j) data 0%Z) (seq 0 16) Hb). reflexivity.
Qed.

(** In a well-formed input every term has a vector as long as the first. *)
Lemma term_vector_length scores term :
  well_formed scores → term < length scores →
  length (nth term scores []) = length (nth 0 scores []).
Proof.
  intros [_ Hwf] Ht.
  by pose proof (proj1 (Forall_nth _ [] scores) Hwf term Ht) as [Hl _].
Qed.

Lemma at_in_u8 scores term j : well_formed scores → in_u8 (at_ scores term j).
Proof. intros Hwf. pose proof (at_bounds scores term j Hwf). unfold in_u8. lia. Qed.

(** The saturating sum of a lane over the terms [terms], from [a]. *)
Definition sat_fold (scores : list (list Z)) (pos : nat) (terms : list nat) (a : Z) : Z :=
  fold_left (λ s term, Z.min (s + at_ scores term pos) 65535) terms a.

Lemma sat_fold_in_u16 scores pos terms : ∀ a,
  well_formed scores → in_u16 a → in_u16 (sat_fold scores pos terms a).
Proof.
  unfold sat_fold. induction terms as [|t terms IH]; intros a Hwf Ha; cbn [fold_left]; [done|].
  apply IH; [done|]. pose proof (at_in_u8 scores t pos Hwf). unfold in_u8, in_u16 in *. lia.
Qed.

Lemma sat_fold_total scores pos terms : ∀ a,
  well_formed scores → in_u16 a →
  sat_fold scores pos terms a
  = Z.min 65535 (fold_left (λ s term, s + at_ scores term pos)%Z terms a).
Proof.
  unfold sat_fold. induction terms as [|t terms IH]; intros a Hwf Ha; cbn [fold_left].
  - unfold in_u16 in Ha. lia.
  - pose proof (at_in_u8 scores t pos Hwf) as Hb. unfold in_u8, in_u16 in *.
    rewrite IH by (done || lia).
    destruct (Z.le_gt_cases (a + at_ scores t pos) 65535) as [Hle|Hgt].
    + rewrite (Z.min_l (a + at_ scores t pos) 65535) by lia. done.
    + rewrite (Z.min_r (a + _)) by lia.
      pose proof (plain_fold_bounds (λ term, at_ scores term pos) terms 65535) as B1.
      pose proof (plain_fold_bounds (λ term, at_ scores term pos) terms
                    (a + at_ scores t pos)) as B2.
      lapply B1; [|intros t' _; pose proof (at_in_u8 scores t' pos Hwf); unfold in_u8 in *; lia].
      lapply B2; [|intros t' _; pose proof (at_in_u8 scores t' pos Hwf); unfold in_u8 in *; lia].
      lia.
Qed.

Lemma sat_fold_saturated scores pos :
  well_formed scores →
  sat_fold scores pos (seq 1 (length scores - 1)) (at_ scores 0 pos)
  = saturated_sum scores pos.
Proof.
  intros Hwf. pose proof (at_in_u8 scores 0 pos Hwf) as H0.
  rewrite sat_fold_total by (done || unfold in_u8, in_u16 in *; lia).
  unfold saturated_sum. f_equal.
  assert (Hlen : 0 < length scores)
    by (destruct Hwf as [Hne _]; destruct scores; cbn; [done|lia]).
  replace (length scores) with (S (length scores - 1)) at 2 by lia.
  cbn [seq fold_left]. by rewrite Z.add_0_l.
Qed.

(** A load function that widens the bytes of every term's vector at [i]. *)
Definition loads_lanes (width : nat) (loadf : list Z → nat → option reg)
    (scores : list (list Z)) (i : nat) : Prop :=
  ∀ term, term < length scores →
    loadf (nth term scores []) i = Some (lanes_reg width (λ j, at_ scores term (i + j))).

Lemma load64_loads_lanes scores i :
  well_formed scores → i + 16 <= length (nth 0 scores []) →
  loads_lanes 8 load64 scores i.
Proof.
  intros Hwf Hi term Ht. apply load64_lanes.
  - by rewrite term_vector_length.
  - intros j. apply (at_in_u8 scores term (i + j) Hwf).
Qed.

Lemma load_loads_lanes scores i :
  well_formed scores → i + 16 <= length (nth 0 scores []) →
  loads_lanes 16 load scores i.
Proof.
  intros Hwf Hi term Ht. apply load_lanes.
  - by rewrite term_vector_length.
  - intros j. apply (at_in_u8 scores term (i + j) Hwf).
Qed.

(** The sum a vector loop accumulates at position [i]: lane [j] holds the
    saturated sum at [i + j]. *)
Lemma adds_fold width (loadf : list Z → nat → option reg) scores i :
  well_formed scores → loads_lanes width loadf scores i →
  ∀ terms f0,
    Forall (λ term, term < length scores) terms →
    (∀ j, in_u16 (f0 j)) →
    fold_left (λ sum term,
                 sum ← sum; x ← loadf (nth term scores []) i; Some (adds_epu16 sum x))
              terms (Some (lanes_reg width f0))
    = Some (lanes_reg width (λ j, sat_fold scores (i + j) terms (f0 j))).
Proof.
  intros Hwf Hload terms.
  induction terms as [|t terms IH]; intros f0 Hts H0; cbn [fold_left sat_fold]; [done|].
  apply Forall_cons in Hts as [Ht Hts].
  rewrite Hload by done. cbn [mbind option_bind].
  unfold adds_epu16 at 2. rewrite lanewise16_lanes_reg.
  - rewrite IH; [done|done|]. intros j.
    pose proof (H0 j). pose proof (at_in_u8 scores t (i + j) Hwf).
    unfold in_u8, in_u16, at_ in *. lia.
  - intros j _. apply H0.
  - intros j _. pose proof (at_in_u8 scores t (i + j) Hwf). unfold in_u8, in_u16, at_ in *. lia.
Qed.

(** The comparison with the threshold, lane by lane. *)
Lemma compare_lanes width threshold (f : nat → Z) :
  in_u16 threshold → (∀ j, in_u16 (f j)) →
  cmpeq_epi16 (max_epu16 (lanes_reg width f) (lanes_reg width (λ _, threshold)))
              (lanes_reg width f)
  = lanes_reg width (λ j, if (threshold <=? f j)%Z then 65535 else 0)%Z.
Proof.
  intros Ht Hf. unfold max_epu16, cmpeq_epi16.
  rewrite lanewise16_lanes_reg; [|by intros|by intros].
  rewrite lanewise16_lanes_reg.
  - apply lanes_reg_ext. intros j _. pose proof (Hf j). unfold in_u16 in *.
    destruct (Z.max (f j) threshold =? f j)%Z eqn:E1, (threshold <=? f j)%Z eqn:E2; try done.
    + apply Z.eqb_eq in E1. apply Z.leb_gt in E2. lia.
    + apply Z.eqb_neq in E1. apply Z.leb_le in E2. lia.
  - intros j _. pose proof (Hf j). unfold in_u16 in *. lia.
  - intros; by apply Hf.
Qed.

(** Bit [j] of the result of [_mm_movemask_epi8] is the top bit of byte
    [j]. *)
Lemma movemask_testbit (bytes : reg) : ∀ j,
  Z.testbit (_mm_movemask_epi8 bytes) (Z.of_nat j)
  = default false ((λ c, Z.testbit c 7) <$> bytes !! j).
Proof.
  induction bytes as [|c bytes IH]; intros j; cbn [_mm_movemask_epi8].
  - by rewrite Z.testbit_0_l.
  - replace ((if Z.testbit c 7 then 1 else 0) + 2 * _mm_movemask_epi8 bytes)%Z
      with (2 * _mm_movemask_epi8 bytes + Z.b2z (Z.testbit c 7))%Z
      by (destruct (Z.testbit c 7); cbn; lia).
    destruct j as [|j].
    + by rewrite Z.testbit_0_r.
    + rewrite Nat2Z.inj_succ, Z.testbit_succ_r by lia. apply IH.
Qed.

Lemma append_movemask (bytes : reg) len bv :
  append_bits (_mm_movemask_epi8 bytes) len bv
  = bv ++ map (λ j, default false ((λ c, Z.testbit c 7) <$> bytes !! j)) (seq 0 len).
Proof.
  unfold append_bits. f_equal. apply map_ext. intros j. apply movemask_testbit.
Qed.

(** What the scalar code would emit if its sum saturated. *)
Definition live_bit (scores : list (list Z)) (threshold : Z) (pos : nat) : bool :=
  (threshold <=? saturated_sum scores pos)%Z.

Lemma top_bit_of_mask (b : bool) :
  Z.testbit ((if b then 65535 else 0) mod 256) 7 = b.
Proof. by destruct b. Qed.

Lemma top_bit_of_packed_mask (b : bool) :
  Z.testbit
    (saturate_i8 (signed16 ((if b then 65535 else 0) mod 256
                            + 256 * ((if b then 65535 else 0) / 256 mod 256)))) 7 = b.
Proof. by destruct b. Qed.

Lemma sum_register width (loadf : list Z → nat → option reg) scores i :
  well_formed scores → loads_lanes width loadf scores i →
  fold_left (λ sum term,
               sum ← sum; x ← loadf (nth term scores []) i; Some (adds_epu16 sum x))
            (seq 1 (length scores - 1)) (loadf (nth 0 scores []) i)
  = Some (lanes_reg width (λ j, saturated_sum scores (i + j))).
Proof.
  intros Hwf Hload.
  assert (Hlen : 0 < length scores)
    by (destruct Hwf as [Hne _]; destruct scores; cbn; [done|lia]).
  rewrite (Hload 0) by done.
  rewrite (adds_fold width loadf scores i Hwf Hload).
  - f_equal. apply lanes_reg_ext. intros j _. by apply sat_fold_saturated.
  - apply Forall_forall. intros t Ht. apply list_elem_of_In, in_seq in Ht. lia.
  - intros j. pose proof (at_in_u8 scores 0 (i + j) Hwf). unfold in_u8, in_u16, at_ in *. lia.
Qed.

(** Once a load has read past a vector, nothing defined follows. *)
Lemma fold_undefined (loadf : list Z → nat → option reg) (adds : reg → reg → reg)
    scores i terms :
  fold_left (λ sum term,
               sum ← sum; x ← loadf (nth term scores []) i; Some (adds sum x))
            terms None
  = None.
Proof. induction terms as [|t terms IH]; cbn [fold_left mbind option_bind]; done. Qed.

Lemma saturated_sum_in_u16 scores pos :
  well_formed scores → in_u16 (saturated_sum scores pos).
Proof.
  intros Hwf. rewrite <- sat_fold_saturated by done.
  apply sat_fold_in_u16; [done|].
  pose proof (at_in_u8 scores 0 pos Hwf). unfold in_u8, in_u16 in *. lia.
Qed.

(** The shuffle of the 128-bit code keeps the low byte of every lane. *)
Lemma shuffle_low_bytes (a0 a1 a2 a3 a4 a5 a6 a7 a8 a9 a10 a11 a12 a13 a14 a15 : Z) :
  _mm_shuffle_epi8 [a0; a1; a2; a3; a4; a5; a6; a7; a8; a9; a10; a11; a12; a13; a14; a15]
    (_mm_setr_epi8 [0; 2; 4; 6; 8; 10; 12; 14; -1; -1; -1; -1; -1; -1; -1; -1]%Z)
  = [a0; a2; a4; a6; a8; a10; a12; a14; 0; 0; 0; 0; 0; 0; 0; 0]%Z.
Proof. reflexivity. Qed.

(** One iteration of the 128-bit loop whose loads stay inside the vectors
    emits the saturated bits of eight positions. *)
Lemma avx_step_spec scores threshold i bv :
  well_formed scores → in_u16 threshold → i + 16 <= length (nth 0 scores []) →
  avx_step scores threshold i bv
  = Some (bv ++ map (λ j, live_bit scores threshold (i + j)) (seq 0 8)).
Proof.
  intros Hwf Ht Hi. unfold avx_step. cbv zeta.
  unfold _mm_adds_epu16, _mm_cmpeq_epi16, _mm_max_epu16.
  rewrite (sum_register 8 load64 scores i Hwf) by (by apply load64_loads_lanes).
  cbn [mbind option_bind]. f_equal.
  change (_mm_set1_epi16 threshold) with (lanes_reg 8 (λ _, threshold)).
  rewrite compare_lanes by (done || intros; by apply saturated_sum_in_u16).
  rewrite append_movemask. f_equal.
  unfold lanes_reg, of_lanes16. cbn [seq map flat_map app].
  rewrite shuffle_low_bytes.
  cbn [map seq lookup list_lookup fmap option_fmap option_map default].
  by rewrite !top_bit_of_mask.
Qed.

(** An iteration that starts less than sixteen positions before the end
    reads past [scores[0]]. *)
Lemma avx_step_past_end scores threshold i bv :
  length (nth 0 scores []) < i + 16 → avx_step scores threshold i bv = None.
Proof.
  intros Hi. unfold avx_step, load64 at 2. rewrite loadu_past_end by done.
  cbn [mbind option_bind]. by rewrite fold_undefined.
Qed.

(** One iteration of the 256-bit loop emits the saturated bits of sixteen
    positions. *)
Lemma avx2_step_spec scores threshold i bv :
  well_formed scores → in_u16 threshold → i + 16 <= length (nth 0 scores []) →
  avx2_step scores threshold i bv
  = Some (bv ++ map (λ j, live_bit scores threshold (i + j)) (seq 0 16)).
Proof.
  intros Hwf Ht Hi. unfold avx2_step. cbv zeta.
  unfold _mm256_adds_epu16, _mm256_cmpeq_epi16, _mm256_max_epu16.
  rewrite (sum_register 16 load scores i Hwf) by (by apply load_loads_lanes).
  cbn [mbind option_bind]. f_equal.
  change (_mm256_set1_epi16 threshold) with (lanes_reg 16 (λ _, threshold)).
  rewrite compare_lanes by (done || intros; by apply saturated_sum_in_u16).
  rewrite append_movemask. f_equal.
  unfold lanes_reg, of_lanes16. cbn [seq map flat_map app].
  unfold _mm_packs_epi16, _mm256_extractf128_si256.
  cbn [take drop lanes16 app map seq lookup list_lookup fmap option_fmap option_map default].
  by rewrite !top_bit_of_packed_mask.
Qed.

Lemma map_seq_shift {A} (f : nat → A) i k :
  map (λ j, f (i + j)) (seq 0 k) = map f (seq i k).
Proof.
  revert i. induction k as [|k IH]; intros i; cbn [seq map]; [done|].
  rewrite Nat.add_0_r. f_equal.
  rewrite <- (IH (S i)), <- seq_shift, map_map.
  apply map_ext. intros j. f_equal. lia.
Qed.

Lemma scalar_bits_saturated scores threshold i k :
  well_formed scores → length scores <= 257 →
  map (λ j, (threshold <=? scalar_sum scores j)%Z) (seq i k)
  = map (live_bit scores threshold) (seq i k).
Proof.
  intros Hwf Hn. apply map_ext. intros j. unfold live_bit.
  by rewrite scalar_sum_saturated.
Qed.

(** The 256-bit loop stops after the last full group of sixteen positions. *)
Lemma avx2_loop_groups fuel scores threshold : ∀ i bv,
  well_formed scores → in_u16 threshold →
  (length (nth 0 scores []) - i) / 16 <= fuel →
  avx2_loop fuel scores threshold i bv
  = Some (bv ++ map (live_bit scores threshold)
                    (seq i (16 * ((length (nth 0 scores []) - i) / 16))),
          i + 16 * ((length (nth 0 scores []) - i) / 16)).
Proof.
  induction fuel as [|fuel IH]; intros i bv Hwf Ht Hf; cbn [avx2_loop].
  - assert ((length (nth 0 scores []) - i) / 16 = 0) as -> by lia.
    cbn. by rewrite app_nil_r, Nat.add_0_r.
  - destruct ((i <? length (nth 0 scores [])) && (16 <=? length (nth 0 scores []) - i)) eqn:E.
    + apply andb_true_iff in E as [_ E]. apply Nat.leb_le in E.
      rewrite avx2_step_spec by (done || lia). cbn [mbind option_bind].
      rewrite IH by (done || lia).
      rewrite map_seq_shift, <- app_assoc, <- map_app, <- seq_app.
      f_equal. f_equal; [f_equal; f_equal; f_equal; lia | lia].
    + assert ((length (nth 0 scores []) - i) / 16 = 0) as ->.
      { apply andb_false_iff in E as [E|E];
          [apply Nat.ltb_ge in E | apply Nat.leb_gt in E]; lia. }
      cbn. by rewrite app_nil_r, Nat.add_0_r.
Qed.

(** The 128-bit loop, once it runs, reaches a group whose load reads past
    the end of [scores[0]]. *)
Lemma avx_loop_past_end fuel scores threshold : ∀ i bv,
  8 <= length (nth 0 scores []) - i →
  (length (nth 0 scores []) - i) / 8 <= fuel →
  avx_loop fuel scores threshold i bv = None.
Proof.
  induction fuel as [|fuel IH]; intros i bv Hi Hf.
  - lia.
  - cbn [avx_loop].
    destruct (Nat.ltb_spec i (length (nth 0 scores []))) as [_|]; [|lia].
    destruct (Nat.leb_spec 8 (length (nth 0 scores []) - i)) as [_|]; [|lia].
    cbn [andb].
    destruct (le_lt_dec (i + 16) (length (nth 0 scores []))) as [Hin|Hout].
    + destruct (avx_step scores threshold i bv) as [bv'|]; [|done].
      cbn [mbind option_bind]. apply IH; lia.
    + by rewrite avx_step_past_end.
Qed.

(** With fewer than eight positions the 128-bit loop does not run, and the
    scalar loop does all the work. *)
Lemma avx_short_input scores threshold :
  length (nth 0 scores []) < 8 →
  avx_compute_live_quant16 scores threshold
  = Some (compute_live_quant16 scores threshold).
Proof.
  intros Hlt. unfold avx_compute_live_quant16, compute_live_quant16.
  assert (avx_loop (length (nth 0 scores [])) scores threshold 0 [] = Some ([], 0)) as ->.
  { destruct (length (nth 0 scores [])) as [|n] eqn:E; [done|]. cbn [avx_loop].
    rewrite E. destruct (Nat.leb_spec 8 (S n - 0)) as [|_]; [lia|].
    by rewrite andb_false_r. }
  cbn [mbind option_bind]. by rewrite Nat.sub_0_r.
Qed.

(** X8.  While the 16-bit sums cannot overflow, that is for at most 257 terms,
    the scalar and the 256-bit variant return the same bits: bit [i] tells
    whether the saturated sum at [i] reaches the threshold.  So does the
    128-bit variant when there are fewer than eight positions and only its
    scalar loop runs. *)
Theorem live_block_variants_agree_without_overflow scores threshold :
  well_formed scores → length scores <= 257 → in_u16 threshold →
  compute_live_quant16 scores threshold
  = map (live_bit scores threshold) (seq 0 (length (nth 0 scores [])))
  ∧ avx2_compute_live_quant16 scores threshold
    = Some (compute_live_quant16 scores threshold)
  ∧ (length (nth 0 scores []) < 8 →
     avx_compute_live_quant16 scores threshold
     = Some (compute_live_quant16 scores threshold)).
Proof.
  intros Hwf Hn Ht.
  assert (Hs : compute_live_quant16 scores threshold
              = map (live_bit scores threshold) (seq 0 (length (nth 0 scores [])))).
  { rewrite compute_live_quant16_spec. by apply scalar_bits_saturated. }
  split; [exact Hs|]. rewrite Hs. split.
  - unfold avx2_compute_live_quant16.
    rewrite avx2_loop_groups by (done || lia). cbn [mbind option_bind].
    rewrite scalar_loop_spec, scalar_bits_saturated by done.
    cbn [app Nat.add]. rewrite <- map_app, <- seq_app. f_equal. f_equal. f_equal.
    rewrite Nat.sub_0_r.
    pose proof (Nat.div_mod_eq (length (nth 0 scores [])) 16). lia.
  - intros Hlt. rewrite <- Hs. by apply avx_short_input.
Qed.

End simd_facts.

(** ** Query requests *)

Section request_facts.
Import Flags Query.

(** The multiplicity of a term id in the container. *)
Definition multiplicity (ids : list N) (t : N) : N :=
  N.of_nat (count_occ N.eq_dec ids t).

(** The count a [std::map] holds for a key; 0 when the key is absent. *)
Fixpoint count_of (t : N) (counts : list (N * N)) : N :=
  match counts with
  | [] => 0
  | (key, count) :: rest => if (key =? t)%N then count else count_of t rest
  end.

Definition keys_sorted (counts : list (N * N)) : Prop :=
  StronglySorted N.lt (map fst counts).

Lemma map_incr_keys t counts x :
  x ∈ map fst (map_incr t counts) ↔ x = t ∨ x ∈ map fst counts.
Proof.
  induction counts as [|[key count] rest IH]; cbn [map_incr map fst].
  - rewrite list_elem_of_singleton, elem_of_nil. tauto.
  - destruct (t <? key)%N eqn:E1; [cbn [map fst]; rewrite !elem_of_cons; tauto|].
    destruct (t =? key)%N eqn:E2.
    + apply N.eqb_eq in E2. subst. cbn [map fst]. rewrite !elem_of_cons. tauto.
    + cbn [map fst]. rewrite !elem_of_cons, IH. tauto.
Qed.

Lemma map_incr_sorted t counts : keys_sorted counts → keys_sorted (map_incr t counts).
Proof.
  unfold keys_sorted.
  induction counts as [|[key count] rest IH]; intros Hs; cbn [map_incr map fst].
  - repeat constructor.
  - apply StronglySorted_inv in Hs as [Hs Hall]. cbn [map fst] in *.
    destruct (t <? key)%N eqn:E1.
    + apply N.ltb_lt in E1. cbn [map fst]. constructor.
      * by constructor.
      * constructor; [done|]. eapply Forall_impl; [exact Hall|]. cbn. intros; lia.
    + apply N.ltb_ge in E1. destruct (t =? key)%N eqn:E2.
      * by constructor.
      * apply N.eqb_neq in E2. cbn [map fst]. constructor; [by apply IH|].
        apply Forall_forall. intros x Hx.
        apply map_incr_keys in Hx.
        destruct Hx as [->|Hx]; [lia|].
        rewrite Forall_forall in Hall. by apply Hall.
Qed.

Lemma count_of_absent t counts : t ∉ map fst counts → count_of t counts = 0%N.
Proof.
  induction counts as [|[key count] rest IH]; intros Hn; cbn [count_of]; [done|].
  cbn [map fst] in Hn. rewrite elem_of_cons in Hn. destruct (key =? t)%N eqn:E.
  - apply N.eqb_eq in E. subst. tauto.
  - apply IH. tauto.
Qed.

Lemma count_of_map_incr t counts x :
  keys_sorted counts →
  count_of x (map_incr t counts) = (count_of x counts + if (x =? t)%N then 1 else 0)%N.
Proof.
  unfold keys_sorted.
  induction counts as [|[key count] rest IH]; intros Hs; cbn [map_incr count_of].
  - rewrite (N.eqb_sym t x). destruct (x =? t)%N; lia.
  - apply StronglySorted_inv in Hs as [Hs Hall]. cbn [map fst] in *.
    destruct (t <? key)%N eqn:E1.
    + apply N.ltb_lt in E1. cbn [count_of]. rewrite (N.eqb_sym t x).
      destruct (x =? t)%N eqn:E3.
      * apply N.eqb_eq in E3. subst x.
        assert ((key =? t)%N = false) as -> by (apply N.eqb_neq; lia).
        rewrite count_of_absent; [lia|].
        intros Hin. rewrite Forall_forall in Hall.
        apply Hall in Hin. lia.
      * lia.
    + apply N.ltb_ge in E1. destruct (t =? key)%N eqn:E2.
      * apply N.eqb_eq in E2. subst key. cbn [count_of]. rewrite (N.eqb_sym t x).
        destruct (x =? t)%N; lia.
      * cbn [count_of]. destruct (key =? x)%N eqn:E3.
        -- apply N.eqb_eq in E3. subst x. rewrite (N.eqb_sym key t), E2. lia.
        -- by apply IH.
Qed.

Lemma count_terms_fold ids : ∀ counts,
  keys_sorted counts →
  let result := fold_left (λ counts term_id, map_incr term_id counts) ids counts in
  keys_sorted result
  ∧ (∀ x, x ∈ map fst result ↔ x ∈ ids ∨ x ∈ map fst counts)
  ∧ (∀ x, count_of x result = (count_of x counts + multiplicity ids x)%N).
Proof.
  unfold multiplicity.
  induction ids as [|t ids IH]; intros counts Hs; cbn [fold_left count_occ].
  - split; [done|]. split; [intros x; rewrite elem_of_nil; tauto|]. intros; lia.
  - destruct (IH (map_incr t counts) (map_incr_sorted t counts Hs)) as (R1 & R2 & R3).
    split; [done|]. split.
    + intros x. rewrite R2, map_incr_keys, elem_of_cons. tauto.
    + intros x. rewrite R3, count_of_map_incr by done.
      destruct (N.eq_dec t x) as [->|Hne].
      * rewrite N.eqb_refl. lia.
      * assert ((x =? t)%N = false) as -> by (apply N.eqb_neq; congruence). lia.
Qed.

Lemma counts_by_key counts :
  keys_sorted counts →
  map snd counts = map (λ t, count_of t counts) (map fst counts).
Proof.
  unfold keys_sorted.
  induction counts as [|[key count] rest IH]; intros Hs; cbn [map fst snd count_of]; [done|].
  apply StronglySorted_inv in Hs as [Hs Hall]. cbn [map fst] in *.
  rewrite N.eqb_refl. f_equal. rewrite IH by done.
  apply map_ext_in. intros x Hx. apply list_elem_of_In in Hx.
  rewrite Forall_forall in Hall. apply Hall in Hx.
  assert ((key =? x)%N = false) as -> by (apply N.eqb_neq; lia). done.
Qed.

Lemma count_terms_spec ids :
  StronglySorted N.lt (map fst (count_terms ids))
  ∧ (∀ x, x ∈ map fst (count_terms ids) ↔ x ∈ ids)
  ∧ map snd (count_terms ids) = map (multiplicity ids) (map fst (count_terms ids)).
Proof.
  destruct (count_terms_fold ids [] ltac:(constructor)) as (R1 & R2 & R3).
  fold (count_terms ids) in *. split; [done|]. split.
  - intros x. rewrite R2. cbn [map]. rewrite elem_of_nil. tauto.
  - rewrite counts_by_key by done. apply map_ext. intros x. rewrite R3. cbn. lia.
Qed.

(** Every position a selection names indexes [ids]. *)
Definition positions_in_range (ids : list N) (sel : Selection N) : Prop :=
  Forall (λ p, N.to_nat p < length ids) (selected_terms sel)
  ∧ Forall (λ p, N.to_nat p.1 < length ids ∧ N.to_nat p.2 < length ids)
           (selected_pairs sel).

Lemma at_in_range ids p : N.to_nat p < length ids → ∃ t, at_ ids p = Ok t.
Proof.
  intros Hp. unfold at_. destruct (lookup_lt_is_Some_2 ids _ Hp) as [t ->]. by exists t.
Qed.

Lemma traverse_total {A B} (f : A → outcome B) (P : A → Prop) l :
  (∀ x, P x → ∃ y, f x = Ok y) → Forall P l → ∃ ys, traverse f l = Ok ys.
Proof.
  intros Hf. induction 1 as [|x l Hx _ [ys IH]]; cbn [traverse].
  - by exists [].
  - destruct (Hf x Hx) as [y ->]. rewrite IH. by exists (y :: ys).
Qed.

Lemma request_selection_total ids sel :
  positions_in_range ids sel → ∃ s, request_selection ids sel = Ok s.
Proof.
  intros [Ht Hp]. unfold request_selection.
  destruct (traverse_total (at_ ids) _ _ (at_in_range ids) Ht) as [ts ->].
  cbn [mbind outcome_bind].
  assert (Hpair : ∀ x : N * N,
            N.to_nat x.1 < length ids ∧ N.to_nat x.2 < length ids →
            ∃ y, (a ← at_ ids x.1; b ← at_ ids x.2; Ok (a, b)) = Ok y).
  { intros [p1 p2] [H1 H2]. cbn [fst snd] in *.
    destruct (at_in_range ids p1 H1) as [a ->], (at_in_range ids p2 H2) as [b ->].
    by eexists. }
  destruct (traverse_total _ _ _ Hpair Hp) as [ps ->]. by eexists.
Qed.

(** [vector::at] returns the element or throws [std::out_of_range]. *)
Lemma at_cases ids p :
  (∃ t, at_ ids p = Ok t ∧ ids !! N.to_nat p = Some t)
  ∨ (∃ w, at_ ids p = Throw (out_of_range w) ∧ length ids ≤ N.to_nat p).
Proof.
  unfold at_. destruct (ids !! N.to_nat p) as [t|] eqn:E.
  - left. by eexists.
  - right. eexists. split; [done|]. by apply lookup_ge_None.
Qed.

Lemma traverse_at ids (l : list N) :
  (∃ ts, traverse (at_ ids) l = Ok ts
         ∧ Forall2 (λ p t, ids !! N.to_nat p = Some t) l ts)
  ∨ (∃ w, traverse (at_ ids) l = Throw (out_of_range w)
          ∧ ¬ Forall (λ p, N.to_nat p < length ids) l).
Proof.
  induction l as [|p l IH]; [left; by eexists|]. cbn [traverse].
  destruct (at_cases ids p) as [(t & -> & E)|(w & -> & E)]; cbn [mbind outcome_bind].
  - destruct IH as [(ts & -> & Hf)|(w & -> & Hn)]; cbn [mbind outcome_bind].
    + left. eexists. split; [done|]. by constructor.
    + right. eexists. split; [done|]. intros Hf. by apply Forall_cons in Hf as [_ Hf].
  - right. eexists. split; [done|]. intros Hf. apply Forall_cons in Hf as [Hp _]. lia.
Qed.

Lemma traverse_at_pairs ids (l : list (N * N)) :
  (∃ ts, traverse (λ tp, a ← at_ ids tp.1; b ← at_ ids tp.2; Ok (a, b)) l = Ok ts
         ∧ Forall2 (λ p t, ids !! N.to_nat p.1 = Some t.1 ∧ ids !! N.to_nat p.2 = Some t.2) l ts)
  ∨ (∃ w, traverse (λ tp, a ← at_ ids tp.1; b ← at_ ids tp.2; Ok (a, b)) l
          = Throw (out_of_range w)
          ∧ ¬ Forall (λ p, N.to_nat p.1 < length ids ∧ N.to_nat p.2 < length ids) l).
Proof.
  induction l as [|[p1 p2] l IH]; [left; by eexists|]. cbn [traverse fst snd].
  destruct (at_cases ids p1) as [(t1 & -> & E1)|(w & -> & E1)]; cbn [mbind outcome_bind].
  - destruct (at_cases ids p2) as [(t2 & -> & E2)|(w & -> & E2)]; cbn [mbind outcome_bind].
    + destruct IH as [(ts & -> & Hf)|(w & -> & Hn)]; cbn [mbind outcome_bind].
      * left. eexists. split; [done|]. by constructor.
      * right. eexists. split; [done|]. intros Hf. by apply Forall_cons in Hf as [_ Hf].
    + right. eexists. split; [done|]. intros Hf. apply Forall_cons in Hf as [[_ Hp] _].
      cbn in Hp. lia.
  - right. eexists. split; [done|]. intros Hf. apply Forall_cons in Hf as [[Hp _] _].
    cbn in Hp. lia.
Qed.

(** A selection that names a position outside [ids] cannot be translated:
    [vector::at] throws. *)
Lemma request_selection_out_of_range ids sel :
  ¬ positions_in_range ids sel →
  ∃ w, request_selection ids sel = Throw (out_of_range w).
Proof.
  intros Hn. unfold request_selection.
  destruct (traverse_at ids (selected_terms sel)) as [(ts & -> & Ft)|(w & -> & _)];
    cbn [mbind outcome_bind]; [|by eexists].
  destruct (traverse_at_pairs ids (selected_pairs sel)) as [(ps & -> & Fp)|(w & -> & _)];
    cbn [mbind outcome_bind]; [|by eexists].
  exfalso. apply Hn. split.
  - clear -Ft. induction Ft as [|p t l k' Hp _ IH]; constructor; [|done].
    by apply lookup_lt_Some in Hp.
  - clear -Fp. induction Fp as [|p t l k' [H1 H2] _ IH]; constructor; [|done].
    apply lookup_lt_Some in H1, H2. done.
Qed.

(** C2 (as amended).  [query(k, flags)] throws when the term ids are not
    set.  When they are set and the selection it has to translate (flag
    [Selection] set, selection present for [k]) names a position outside the
    term ids, it throws the [std::out_of_range] of [vector::at].  Otherwise
    it returns a request, and every request it returns lists the distinct
    term ids in ascending order, with the multiplicity of each as its
    weight, or 1.0 for every weight when the [Weights] flag is cleared, and
    carries the container's threshold for [k] only when the [Threshold] flag
    is set. *)
Theorem query_request_terms (q : QueryContainer) (k : N) (flags : RequestFlagSet) :
  (term_ids q = None → query q k flags = Throw (domain_error "Query not parsed."))
  ∧ (∀ ids, term_ids q = Some ids →
       (∀ r, query q k flags = Ok r →
          m_k r = k
          ∧ StronglySorted N.lt (m_term_ids r)
          ∧ (∀ t, t ∈ m_term_ids r ↔ t ∈ ids)
          ∧ m_term_weights r =
              map (λ t, if contains flags Weights
                        then Float.of_N (multiplicity ids t) else Float.one)
                  (m_term_ids r)
          ∧ (contains flags Threshold = false → m_threshold r = None)
          ∧ (contains flags Threshold = true → m_threshold r = threshold q k))
       ∧ ((contains flags Flags.Selection = true →
           ∀ sel, selection q k = Some sel → positions_in_range ids sel) →
          ∃ r, query q k flags = Ok r)
       ∧ (contains flags Flags.Selection = true →
          ∀ sel, selection q k = Some sel → ¬ positions_in_range ids sel →
          ∃ w, query q k flags = Throw (out_of_range w))).
Proof.
  unfold query, make_request. split.
  - intros ->. done.
  - intros ids ->.
    destruct (count_terms_spec ids) as (S1 & S2 & S3).
    set (sel' := match selection q k with
                 | Some sel => if contains flags Flags.Selection
                               then Some <$> request_selection ids sel else Ok None
                 | None => Ok None
                 end).
    split.
    + intros r Hr. destruct sel' as [s| |]; cbn in Hr; try discriminate.
      injection Hr as <-. cbn [m_k m_term_ids m_term_weights m_threshold].
      split; [done|]. split; [done|]. split; [done|]. split.
      * destruct (contains flags Weights); cbn [negb].
        -- rewrite <- (map_map snd Float.of_N), S3, map_map. done.
        -- by rewrite !map_map.
      * split; intros ->; done.
    + split.
      * intros Hsel.
        assert (∃ s, sel' = Ok s) as [s ->]; [|by eexists].
        subst sel'. destruct (selection q k) as [sel|]; [|by eexists].
        destruct (contains flags Flags.Selection); [|by eexists].
        destruct (request_selection_total ids sel (Hsel eq_refl sel eq_refl)) as [s ->].
        by eexists.
      * intros Hc sel Hsel Hn. subst sel'. rewrite Hsel, Hc.
        destruct (request_selection_out_of_range ids sel Hn) as [w ->].
        by exists w.
Qed.

(** Three term ids and, for k = 10, a selection of the term at position 3. *)
Definition position_past_ids : QueryContainer :=
  (add_selection 10 {| selected_terms := [3]%N; selected_pairs := [] |}
     (from_term_ids [5; 3; 7]%N)).2.

(** C2 as stated fails: the term ids are set, and still [query] returns no
    request when a selected position lies outside them. *)
Lemma query_throws_with_term_ids_set :
  term_ids position_past_ids = Some [5; 3; 7]%N
  ∧ query position_past_ids 10 Flags.all
    = Throw (out_of_range "vector::_M_range_check")
  ∧ ¬ (∀ q k flags ids, term_ids q = Some ids → ∃ r, query q k flags = Ok r).
Proof.
  split; [reflexivity|]. split; [reflexivity|].
  intros C. destruct (C position_past_ids 10%N Flags.all _ eq_refl) as [r Hr].
  discriminate Hr.
Qed.

Definition example_query : QueryContainer :=
  (add_threshold 10 (Float.of_N 3) (from_term_ids [5; 3; 5; 7; 3; 5]%N)).2.

Example query_request_example :
  query example_query 10 Flags.all
  = Ok {| m_k := 10; m_threshold := Some (Float.of_N 3);
          m_term_ids := [3; 5; 7]%N;
          m_term_weights := [Float.of_N 2; Float.of_N 3; Float.of_N 1];
          m_selection := None |}
  ∧ query example_query 10 (Flags.remove Weights (Flags.remove Threshold Flags.all))
  = Ok {| m_k := 10; m_threshold := None;
          m_term_ids := [3; 5; 7]%N;
          m_term_weights := [Float.one; Float.one; Float.one];
          m_selection := None |}.
Proof. split; reflexivity. Qed.

Lemma query_request_terms_witness :
  ∃ r, query example_query 10 Flags.all = Ok r
       ∧ StronglySorted N.lt (m_term_ids r)
       ∧ (∀ t, t ∈ m_term_ids r ↔ t ∈ [5; 3; 5; 7; 3; 5]%N).
Proof.
  destruct (query_request_terms example_query 10 Flags.all) as [_ H].
  destruct (H [5; 3; 5; 7; 3; 5]%N eq_refl) as (Hprop & Htotal & _).
  destruct Htotal as [r Hr]; [intros _ sel Hsel; discriminate Hsel|].
  exists r. destruct (Hprop r Hr) as (_ & Hs & Hm & _). auto.
Defined.

End request_facts.

(** ** Selection masks *)

Section mask_facts.
Import Query Json.

Lemma popcount_pos_positive p : 0 < popcount_pos p.
Proof. induction p; cbn; lia. Qed.

Lemma popcount_nonzero m : (0 <? popcount m) = negb (m =? 0)%N.
Proof.
  destruct m as [|p]; [done|]. cbn [popcount N.eqb negb].
  pose proof (popcount_pos_positive p). by apply Nat.ltb_lt.
Qed.

Lemma clearbit_pow2 t : N.clearbit (2 ^ t) t = 0%N.
Proof.
  apply N.bits_inj. intros i. rewrite N.clearbit_eqb, N.pow2_bits_eqb, N.bits_0.
  destruct (t =? i)%N; done.
Qed.

Lemma clearbit_pair l r : l ≠ r → N.clearbit (N.lor (2 ^ l) (2 ^ r)) l = (2 ^ r)%N.
Proof.
  intros Hne. apply N.bits_inj. intros i.
  rewrite N.clearbit_eqb, N.lor_spec, !N.pow2_bits_eqb.
  destruct (l =? i)%N eqn:E1, (r =? i)%N eqn:E2; try done.
  apply N.eqb_eq in E1, E2. congruence.
Qed.

Lemma pow2_nonzero t : ((2 ^ t =? 0) = false)%N.
Proof. apply N.eqb_neq, N.pow_nonzero. done. Qed.

Lemma pair_nonzero l r : ((N.lor (2 ^ l) (2 ^ r) =? 0) = false)%N.
Proof.
  apply N.eqb_neq. intros E. apply N.lor_eq_0_l in E.
  by apply (N.pow_nonzero 2 l).
Qed.

(** A mask with the single bit [t]: the loop stores [t] at [out]. *)
Lemma decode_single n : ∀ fuel pos tp out,
  n < fuel → out < 2 →
  decode_mask_loop fuel (2 ^ (pos + N.of_nat n)) pos tp out
  = Ok (<[out := (pos + N.of_nat n)%N]> tp, out + 1).
Proof.
  induction n as [|n IH]; intros fuel pos tp out Hf Ho;
    (destruct fuel as [|fuel]; [lia|]); cbn [decode_mask_loop];
    rewrite popcount_nonzero, pow2_nonzero; cbn [negb].
  - rewrite N.add_0_r, N.pow2_bits_true.
    apply Nat.ltb_lt in Ho. rewrite Ho, clearbit_pow2.
    by destruct fuel.
  - rewrite N.pow2_bits_false by lia.
    replace (pos + N.of_nat (S n))%N with (pos + 1 + N.of_nat n)%N by lia.
    apply IH; lia.
Qed.

(** A mask with the two bits [l < r]: the loop stores [l], then [r]. *)
Lemma decode_pair n : ∀ fuel pos tp d,
  n + S d < fuel →
  decode_mask_loop fuel
    (N.lor (2 ^ (pos + N.of_nat n)) (2 ^ (pos + N.of_nat n + 1 + N.of_nat d))) pos tp 0
  = Ok (<[1 := (pos + N.of_nat n + 1 + N.of_nat d)%N]> (<[0 := (pos + N.of_nat n)%N]> tp), 2).
Proof.
  induction n as [|n IH]; intros fuel pos tp d Hf;
    (destruct fuel as [|fuel]; [lia|]); cbn [decode_mask_loop];
    rewrite popcount_nonzero, pair_nonzero; cbn [negb].
  - rewrite N.add_0_r, N.lor_spec, N.pow2_bits_true. cbn [orb Nat.ltb Nat.leb].
    rewrite clearbit_pair by lia.
    rewrite (decode_single d fuel (pos + 1) _ 1) by lia. done.
  - rewrite N.lor_spec, !N.pow2_bits_false by lia. cbn [orb].
    replace (pos + N.of_nat (S n))%N with (pos + 1 + N.of_nat n)%N by lia.
    apply IH; lia.
Qed.

Lemma decode_mask_single t acc :
  (t < 64)%N → decode_mask (2 ^ t) acc = Ok (acc.1 ++ [t], acc.2).
Proof.
  intros Ht. unfold decode_mask.
  rewrite N.mod_small by (apply N.pow_lt_mono_r; lia).
  pose proof (decode_single (N.to_nat t) 64 0 [0; 0]%N 0) as E.
  rewrite N.add_0_l, N2Nat.id in E. rewrite E by lia. done.
Qed.

Lemma decode_mask_pair l r acc :
  (l < r < 64)%N →
  decode_mask (N.lor (2 ^ l) (2 ^ r)) acc = Ok (acc.1, acc.2 ++ [(l, r)]).
Proof.
  intros Hlr. unfold decode_mask.
  assert (B : ∀ t, (t < 64 → 2 ^ t < 2 ^ 64)%N) by (intros; apply N.pow_lt_mono_r; lia).
  rewrite N.mod_small.
  2:{ destruct (N.lt_ge_cases (N.lor (2 ^ l) (2 ^ r)) (2 ^ 64)) as [|Hge]; [done|].
      exfalso. apply N.log2_le_mono in Hge.
      rewrite N.log2_lor, !N.log2_pow2 in Hge by lia. lia. }
  pose proof (decode_pair (N.to_nat l) 64 0 [0; 0]%N (N.to_nat (r - l - 1))) as E.
  rewrite N.add_0_l, !N2Nat.id in E.
  replace (l + 1 + (r - l - 1))%N with r in E by lia.
  rewrite E by lia. done.
Qed.

(** A mask with three bits: the third position is written past the end of
    the two-element array. *)
Lemma decode_mask_seven acc : decode_mask 7 acc = Undefined.
Proof. reflexivity. Qed.

Definition three_term_line : json :=
  JObject [("term_ids"%string, JArray [JUnsigned 4; JUnsigned 8; JUnsigned 15]);
           ("selections"%string,
            JArray [JObject [("k"%string, JUnsigned 10);
                             ("intersections"%string, JArray [JUnsigned 7])]])].

(** C7.  The claim: a selection mask with more than two bits makes
    [from_json] fail with a malformed-input error.  The code builds the
    [std::runtime_error] without throwing it and goes on: for the mask 7 it
    writes the third position past the end of [term_positions], so the call
    has no defined behaviour and, in particular, raises no error.  Masks
    with one and two bits are read as the claim says. *)
Theorem from_json_accepts_mask_with_three_bits :
  from_json_document three_term_line = Undefined
  ∧ (∀ parse line, parse line = Some three_term_line →
       from_json parse line = Undefined)
  ∧ from_json_document
      (JObject [("term_ids"%string, JArray [JUnsigned 4; JUnsigned 8; JUnsigned 15]);
                ("selections"%string,
                 JArray [JObject [("k"%string, JUnsigned 10);
                                  ("intersections"%string,
                                   JArray [JUnsigned 1; JUnsigned 6])]])])
    = Ok {| id := None; query_string := None; processed_terms := None;
            term_ids := Some [4; 8; 15]%N; thresholds := [];
            selections := [(10%N, {| selected_terms := [0%N];
                                     selected_pairs := [(1, 2)%N] |})] |}.
Proof.
  split; [reflexivity|]. split; [|reflexivity].
  intros parse line E. unfold from_json. rewrite E. reflexivity.
Qed.

End mask_facts.

(** ** The query reader *)

Section reader_facts.
Import Query Reader.
Variable parse : string → option Json.json.

Lemma run_filters_no_effect fns container : run_filters fns container = tt.
Proof. by destruct (run_filters fns container). Qed.

(** [next] does not depend on the registered filters. *)
Lemma next_ignores_filters (r : QueryReader) (fns : list (QueryContainer → bool)) :
  Reader.next parse r =
  (res ← Reader.next parse {| m_stream := m_stream r; m_format := m_format r;
                              m_map_functions := m_map_functions r;
                              m_filter_functions := fns |};
   Ok ({| m_stream := m_stream res.1; m_format := m_format res.1;
          m_map_functions := m_map_functions res.1;
          m_filter_functions := m_filter_functions r |}, res.2)).
Proof.
  unfold Reader.next, next_query. destruct r as [lines fmt maps filters]. cbn.
  destruct lines as [|line rest]; [done|].
  destruct fmt as [[]|]; cbn; try done.
  - destruct (from_json parse line); done.
  - destruct (from_json parse line) as [q|e|]; done.
Qed.

End reader_facts.

Section reader_examples.
Import Query Reader.

Definition rejecting_reader : QueryReader :=
  filter_ (λ _, false) (make ["q1:hello world"%string]).

(** C8.  The claim: a container that a filter rejects is dropped.  The
    [continue] of the filter loop belongs to that loop, so no container is
    ever dropped: with one colon line and a filter that rejects everything,
    [next] returns the container of the line, where dropping it would reach
    the end of the stream and return nothing. *)
Theorem reader_next_keeps_rejected_container :
  Reader.next (λ _, None) rejecting_reader
  = Ok (with_stream [] (Some Colon) rejecting_reader,
        Some (from_colon_format "q1:hello world"))
  ∧ next_filtered (λ _, None) 2 rejecting_reader
  = Ok (with_stream [] (Some Colon) rejecting_reader, None).
Proof. split; reflexivity. Qed.

End reader_examples.

(** ** A [float] survives the conversion to [double] and back *)

Section float_conversion.

Lemma digits2_pos_shift m k :
  digits2_pos (Pos.iter xO m k) = (digits2_pos m + k)%positive.
Proof.
  induction k as [|k IH] using Pos.peano_ind.
  - cbn. lia.
  - rewrite Pos.iter_succ. cbn [digits2_pos]. rewrite IH. lia.
Qed.

Lemma iter_pos_iter {A} (f : A → A) k : ∀ x, SpecFloat.iter_pos f k x = Pos.iter f x k.
Proof.
  induction k as [k IH|k IH|]; intros x; cbn [SpecFloat.iter_pos Pos.iter].
  - by rewrite !IH, <- !Pos.iter_swap.
  - by rewrite !IH.
  - done.
Qed.

Lemma shr_shift m k :
  SpecFloat.iter_pos shr_1 k {| shr_m := Zpos (Pos.iter xO m k); shr_r := false; shr_s := false |}
  = {| shr_m := Zpos m; shr_r := false; shr_s := false |}.
Proof.
  rewrite iter_pos_iter.
  induction k as [|k IH] using Pos.peano_ind.
  - done.
  - rewrite Pos.iter_succ_r, Pos.iter_succ. cbn [shr_1 orb]. exact IH.
Qed.

Lemma bounded32_inv m e :
  bounded Float.prec32 Float.emax32 m e = true →
  (Z.max (Zpos (digits2_pos m) + e - 24) (-149) = e ∧ e <= 104)%Z.
Proof.
  unfold bounded, canonical_mantissa, fexp, emin, Float.prec32, Float.emax32.
  intros Hb. apply andb_true_iff in Hb as [H1 H2].
  apply Z.eqb_eq in H1. apply Z.leb_le in H2. lia.
Qed.

Lemma to_double_finite s m e :
  bounded Float.prec32 Float.emax32 m e = true →
  ∃ k, (Zpos k = 53 - Zpos (digits2_pos m))%Z
       ∧ Float.to_double (S754_finite s m e)
         = S754_finite s (Pos.iter xO m k) (e - Zpos k).
Proof.
  intros Hb. apply bounded32_inv in Hb as [Hc He].
  set (d := Zpos (digits2_pos m)) in *.
  assert (Hd : (1 <= d <= 24)%Z) by lia.
  destruct (53 - d)%Z as [|k|] eqn:Ek; try lia.
  exists k. split; [done|].
  unfold Float.to_double, binary_normalize.
  assert (R : binary_round Float.prec64 Float.emax64 s m e
              = S754_finite s (Pos.iter xO m k) (e - Zpos k)).
  { unfold binary_round, shl_align, fexp, emin, Float.prec64, Float.emax64.
    fold d.
    replace (Z.max (d + e - 53) (3 - 1024 - 53) - e)%Z with (Zneg k) by lia.
    replace (Z.max (d + e - 53) (3 - 1024 - 53))%Z with (e - Zpos k)%Z by lia.
    unfold binary_round_aux, shr_fexp, fexp, emin, Zdigits2.
    rewrite digits2_pos_shift. cbn [shr_record_of_loc].
    replace (Z.max (Zpos (digits2_pos m + k) + (e - Zpos k) - 53) (3 - 1024 - 53)
             - (e - Zpos k))%Z with 0%Z by lia.
    cbn [shr loc_of_shr_record round_nearest_even shr_m Zdigits2].
    rewrite digits2_pos_shift.
    replace (Z.max (Zpos (digits2_pos m + k) + (e - Zpos k) - 53) (3 - 1024 - 53)
             - (e - Zpos k))%Z with 0%Z by lia.
    cbn [shr shr_m].
    assert ((e - Zpos k <=? 1024 - 53)%Z = true) as -> by (apply Z.leb_le; lia).
    done. }
  destruct s; cbn [cond_Zopp]; exact R.
Qed.

Lemma of_double_to_double x :
  valid_binary Float.prec32 Float.emax32 x = true →
  Float.of_double (Float.to_double x) = x.
Proof.
  destruct x as [s|s| |s m e]; try done.
  intros Hb. cbn [valid_binary] in Hb.
  destruct (to_double_finite s m e Hb) as (k & Hk & ->).
  apply bounded32_inv in Hb as [Hc He].
  set (d := Zpos (digits2_pos m)) in *.
  unfold Float.of_double, binary_normalize.
  assert (R : binary_round Float.prec32 Float.emax32 s (Pos.iter xO m k) (e - Zpos k)
              = S754_finite s m e).
  { unfold binary_round, shl_align, fexp, emin, Float.prec32, Float.emax32.
    rewrite digits2_pos_shift.
    replace (Z.max (Zpos (digits2_pos m + k) + (e - Zpos k) - 24) (3 - 128 - 24)
             - (e - Zpos k))%Z with (Zpos k) by lia.
    unfold binary_round_aux, shr_fexp, fexp, emin, Zdigits2.
    rewrite digits2_pos_shift. cbn [shr_record_of_loc].
    replace (Z.max (Zpos (digits2_pos m + k) + (e - Zpos k) - 24) (3 - 128 - 24)
             - (e - Zpos k))%Z with (Zpos k) by lia.
    cbn [shr]. rewrite shr_shift.
    cbn [loc_of_shr_record round_nearest_even shr_m shr_record_of_loc].
    replace (e - Zpos k + Zpos k)%Z with e by lia.
    fold d.
    replace (Z.max (d + e - 24) (3 - 128 - 24) - e)%Z with 0%Z by lia.
    cbn [shr shr_m].
    assert ((e <=? 128 - 24)%Z = true) as -> by (apply Z.leb_le; lia).
    done. }
  destruct s; cbn [cond_Zopp]; exact R.
Qed.

Lemma to_double_finite_preserved x :
  valid_binary Float.prec32 Float.emax32 x = true →
  Json.finite (Float.to_double x) = Json.finite x.
Proof.
  destruct x as [s|s| |s m e]; try done.
  intros Hb. cbn [valid_binary] in Hb.
  by destruct (to_double_finite s m e Hb) as (k & Hk & ->).
Qed.

End float_conversion.

(** ** Sorting *)

Section sort_facts.
Context {A : Type} (leb : A → A → bool).
Hypothesis leb_total : ∀ a b, leb a b = false → leb b a = true.
Hypothesis leb_trans : ∀ a b c, leb a b = true → leb b c = true → leb a c = true.

Local Abbreviation R := (λ a b : A, leb a b = true).

Lemma insert_sorted_perm x l : alg.insert_sorted leb x l ≡ₚ x :: l.
Proof.
  induction l as [|y l IH]; cbn [alg.insert_sorted]; [done|].
  destruct (leb x y); [done|]. rewrite IH. apply Permutation_swap.
Qed.

Lemma sort_perm l : alg.sort leb l ≡ₚ l.
Proof.
  induction l as [|x l IH]; cbn [alg.sort fold_right]; [done|].
  fold (alg.sort leb l). by rewrite insert_sorted_perm, IH.
Qed.

Lemma insert_sorted_sorted x l :
  StronglySorted R l → StronglySorted R (alg.insert_sorted leb x l).
Proof using leb_total leb_trans.
  induction l as [|y l IH]; intros Hs; cbn [alg.insert_sorted].
  - repeat constructor.
  - apply StronglySorted_inv in Hs as [Hs Hall].
    destruct (leb x y) eqn:E.
    + constructor; [by constructor|]. constructor; [done|].
      eapply Forall_impl; [exact Hall|]. cbn. intros z Hz. eauto.
    + constructor; [by apply IH|].
      rewrite insert_sorted_perm. constructor; [by apply leb_total|done].
Qed.

Lemma sort_sorted l : StronglySorted R (alg.sort leb l).
Proof using leb_total leb_trans.
  induction l as [|x l IH]; cbn [alg.sort fold_right]; [constructor|].
  by apply insert_sorted_sorted.
Qed.

End sort_facts.

Lemma sort_map {A B} (f : A → B) (leb : B → B → bool) (l : list A) :
  alg.sort leb (map f l) = map f (alg.sort (λ a b, leb (f a) (f b)) l).
Proof.
  induction l as [|x l IH]; cbn [alg.sort fold_right map]; [done|].
  fold (alg.sort leb (map f l)). fold (alg.sort (λ a b, leb (f a) (f b)) l).
  rewrite IH. generalize (alg.sort (λ a b, leb (f a) (f b)) l). clear.
  intros l. induction l as [|y l IH]; cbn [alg.insert_sorted map]; [done|].
  destruct (leb (f x) (f y)); cbn [map]; [done|]. by rewrite IH.
Qed.

Lemma omap_sorted {A B} (f : A → option B) (R1 : relation A) (R2 : relation B) l :
  (∀ x y x' y', f x = Some x' → f y = Some y' → R1 x y → R2 x' y') →
  StronglySorted R1 l → StronglySorted R2 (omap f l).
Proof.
  intros Hf. induction 1 as [|x l Hs IH Hall]; cbn [omap list_omap]; [constructor|].
  destruct (f x) as [x'|] eqn:Ex; [|done].
  constructor; [done|].
  apply Forall_forall. intros y' Hy'. apply list_elem_of_omap in Hy' as (y & Hy & Ey).
  rewrite Forall_forall in Hall. eauto.
Qed.

(** ** Selections and their masks *)

Section selection_masks.
Import Query Json.

(** What a mask stands for. *)
Inductive item : Type := Single (t : N) | Pair (l r : N).

Definition enc (i : item) : N :=
  match i with
  | Single t => 2 ^ t
  | Pair l r => N.lor (2 ^ l) (2 ^ r)
  end%N.

Definition item_valid (i : item) : Prop :=
  match i with
  | Single t => t < 64
  | Pair l r => l < r < 64
  end%N.

Definition single_of (i : item) : option N :=
  match i with Single t => Some t | Pair _ _ => None end.
Definition pair_of (i : item) : option (N * N) :=
  match i with Single _ => None | Pair l r => Some (l, r) end.

(** The mask [to_json] writes for a pair. *)
Definition pair_mask (p : N * N) : N := N.lor (2 ^ p.1) (2 ^ p.2).

Definition items_of (sel : Selection N) : list item :=
  map Single (selected_terms sel) ++ map (λ p, Pair p.1 p.2) (selected_pairs sel).

Lemma decode_items items : ∀ acc,
  Forall item_valid items →
  decode_masks (map enc items) acc
  = Ok (acc.1 ++ omap single_of items, acc.2 ++ omap pair_of items).
Proof.
  induction items as [|i items IH]; intros acc Hv; cbn [map decode_masks omap list_omap].
  - rewrite !app_nil_r. by destruct acc.
  - apply Forall_cons in Hv as [Hi Hv].
    destruct i as [t|l r]; cbn [enc item_valid single_of pair_of] in *.
    + rewrite decode_mask_single by done. cbn [mbind outcome_bind].
      rewrite IH by done. cbn [fst snd]. by rewrite <- app_assoc.
    + rewrite decode_mask_pair by done. cbn [mbind outcome_bind].
      rewrite IH by done. cbn [fst snd]. by rewrite <- app_assoc.
Qed.

Lemma pair_mask_inj p q :
  (p.1 < p.2 < 64)%N → (q.1 < q.2 < 64)%N → pair_mask p = pair_mask q → p = q.
Proof.
  destruct p as [pl pr], q as [ql qr]. unfold pair_mask. cbn [fst snd].
  intros Hp Hq E.
  pose proof (decode_mask_pair pl pr ([], []) Hp) as Dp.
  pose proof (decode_mask_pair ql qr ([], []) Hq) as Dq.
  rewrite E, Dq in Dp. cbn [fst snd app] in Dp. by injection Dp as -> ->.
Qed.

(** A selection in the form [from_json] produces: singleton positions in
    ascending order, each pair with its smaller position first, pairs in
    ascending order of their masks, and every position below 32, the width
    of the [1U] that [to_json] shifts. *)
Definition canonical_selection (sel : Selection N) : Prop :=
  Sorted N.le (selected_terms sel)
  ∧ Forall (λ t, t < 32)%N (selected_terms sel)
  ∧ Forall (λ p, p.1 < p.2 < 32)%N (selected_pairs sel)
  ∧ Sorted N.le (map pair_mask (selected_pairs sel)).

Lemma items_of_valid sel : canonical_selection sel → Forall item_valid (items_of sel).
Proof.
  intros (_ & Ht & Hp & _). unfold items_of. apply Forall_app. split.
  - apply Forall_fmap. eapply Forall_impl; [exact Ht|]. cbn. lia.
  - apply Forall_fmap. eapply Forall_impl; [exact Hp|]. cbn. lia.
Qed.

Lemma shl_1U_small t : (t < 32)%N → shl_1U t = Ok (2 ^ t)%N.
Proof.
  intros Hlt. unfold shl_1U. apply N.ltb_lt in Hlt. by rewrite Hlt, N.shiftl_1_l.
Qed.

Lemma shift_singles (ts : list N) :
  Forall (λ t, t < 32)%N ts → traverse shl_1U ts = Ok (map enc (map Single ts)).
Proof.
  induction 1 as [|t ts Hlt _ IH]; cbn [traverse map]; [done|].
  by rewrite shl_1U_small, IH.
Qed.

Lemma shift_pairs (ps : list (N * N)) :
  Forall (λ p, p.1 < p.2 < 32)%N ps →
  traverse (λ pair, l ← shl_1U pair.1; r ← shl_1U pair.2; Ok (N.lor l r)) ps
  = Ok (map enc (map (λ p, Pair p.1 p.2) ps)).
Proof.
  induction 1 as [|p ps Hlt _ IH]; cbn [traverse map]; [done|].
  rewrite !shl_1U_small, IH by lia. done.
Qed.

Lemma intersections_of_canonical sel :
  canonical_selection sel → intersections_of sel = Ok (map enc (items_of sel)).
Proof.
  intros (_ & Ht & Hp & _). unfold intersections_of, items_of.
  rewrite (shift_singles _ Ht), (shift_pairs _ Hp).
  cbn [mbind outcome_bind]. by rewrite map_app.
Qed.

Definition enc_leb (a b : item) : bool := (enc a <=? enc b)%N.

Lemma enc_leb_total a b : enc_leb a b = false → enc_leb b a = true.
Proof. unfold enc_leb. intros E. apply N.leb_gt in E. apply N.leb_le. lia. Qed.

Lemma enc_leb_trans a b c : enc_leb a b = true → enc_leb b c = true → enc_leb a c = true.
Proof. unfold enc_leb. rewrite !N.leb_le. lia. Qed.

Lemma omap_single_items sel : omap single_of (items_of sel) = selected_terms sel.
Proof.
  unfold items_of. rewrite omap_app.
  assert (omap single_of (map Single (selected_terms sel)) = selected_terms sel) as ->.
  { induction (selected_terms sel) as [|t ts IH]; cbn; [done|]. by rewrite IH. }
  assert (omap single_of (map (λ p, Pair p.1 p.2) (selected_pairs sel)) = []) as ->.
  { induction (selected_pairs sel) as [|p ps IH]; cbn; done. }
  apply app_nil_r.
Qed.

Lemma omap_pair_items sel : omap pair_of (items_of sel) = selected_pairs sel.
Proof.
  unfold items_of. rewrite omap_app.
  assert (omap pair_of (map Single (selected_terms sel)) = []) as ->.
  { induction (selected_terms sel) as [|t ts IH]; cbn; done. }
  assert (omap pair_of (map (λ p, Pair p.1 p.2) (selected_pairs sel))
          = selected_pairs sel) as ->.
  { induction (selected_pairs sel) as [|[l r] ps IH]; cbn; [done|]. by rewrite IH. }
  done.
Qed.

(** Sorting the masks of a canonical selection and reading them back gives
    the selection. *)
Lemma decode_sorted_masks sel :
  canonical_selection sel →
  decode_masks (alg.sort N.leb (map enc (items_of sel))) ([], [])
  = Ok (selected_terms sel, selected_pairs sel).
Proof.
  intros Hc. pose proof (items_of_valid sel Hc) as Hv.
  destruct Hc as (St & Ht & Hp & Sp).
  rewrite sort_map. fold enc_leb.
  set (X := alg.sort enc_leb (items_of sel)).
  assert (PX : X ≡ₚ items_of sel) by apply sort_perm.
  assert (SX : StronglySorted (λ a b, enc_leb a b = true) X)
    by (apply sort_sorted; [apply enc_leb_total|apply enc_leb_trans]).
  assert (VX : Forall item_valid X) by (by rewrite PX).
  rewrite decode_items by done. cbn [fst snd app]. f_equal. f_equal.
  - apply (StronglySorted_unique_strong N.le).
    + intros; lia.
    + apply (omap_sorted single_of (λ a b, enc_leb a b = true)); [|done].
      intros [x|] [y|] x' y' Ex Ey; cbn in Ex, Ey; try done. simplify_eq.
      unfold enc_leb. cbn [enc]. rewrite N.leb_le.
      by apply N.pow_le_mono_r_iff.
    + apply Sorted_StronglySorted; [intros x y z; apply N.le_trans|done].
    + by rewrite PX, omap_single_items.
  - apply (StronglySorted_unique_strong (λ p q, pair_mask p ≤ pair_mask q)%N).
    + intros p q Hp1 Hq1 Hpq Hqp. apply pair_mask_inj; [| |lia].
      * apply list_elem_of_omap in Hp1 as ([|l r] & Hi & Ei); [done|].
        cbn in Ei. simplify_eq. rewrite Forall_forall in VX. apply (VX _ Hi).
      * rewrite Forall_forall in Hp. specialize (Hp _ Hq1). cbn in Hp. lia.
    + apply (omap_sorted pair_of (λ a b, enc_leb a b = true)); [|done].
      intros [|xl xr] [|yl yr] x' y' Ex Ey; cbn in Ex, Ey; try done. simplify_eq.
      unfold enc_leb, pair_mask. cbn [enc fst snd]. by rewrite N.leb_le.
    + apply Sorted_StronglySorted in Sp; [|intros x y z; apply N.le_trans].
      clear -Sp. induction (selected_pairs sel) as [|p ps IH]; [constructor|].
      cbn [map] in Sp. apply StronglySorted_inv in Sp as [Sp Hall].
      constructor; [by apply IH|].
      apply Forall_forall. intros q Hq. rewrite Forall_forall in Hall.
      apply Hall. apply list_elem_of_In, in_map, list_elem_of_In, Hq.
    + by rewrite PX, omap_pair_items.
Qed.

Lemma masks_below_2_64 sel :
  canonical_selection sel →
  Forall (λ m, m < 2 ^ 64)%N (alg.sort N.leb (map enc (items_of sel))).
Proof.
  intros Hc. rewrite sort_perm. apply Forall_fmap.
  eapply Forall_impl; [exact (items_of_valid sel Hc)|].
  intros [t|l r]; cbn [item_valid enc compose].
  - intros Ht. apply N.pow_lt_mono_r; lia.
  - intros Hlr. destruct (N.lt_ge_cases (N.lor (2 ^ l) (2 ^ r)) (2 ^ 64)) as [|Hge]; [done|].
    exfalso. apply N.log2_le_mono in Hge.
    rewrite N.log2_lor, !N.log2_pow2 in Hge by lia. lia.
Qed.

End selection_masks.

(** ** The JSON round trip *)

Section round_trip.
Import Query Json.

Lemma read_strings (ts : list string) :
  traverse get_string (map JString ts) = Ok ts.
Proof. induction ts as [|t ts IH]; cbn [map traverse get_string mbind outcome_bind]; [done|]. by rewrite IH. Qed.

Lemma read_uint32s (ids : list N) :
  Forall (λ t, t < 2 ^ 32)%N ids →
  traverse get_uint32 (map JUnsigned ids) = Ok ids.
Proof.
  induction 1 as [|t ts Hlt _ IH]; cbn [map traverse get_uint32 mbind outcome_bind]; [done|].
  rewrite IH. cbn [mbind outcome_bind]. by rewrite N.mod_small.
Qed.

Lemma read_size_ts (ms : list N) :
  Forall (λ m, m < 2 ^ 64)%N ms →
  traverse get_size_t (map JUnsigned ms) = Ok ms.
Proof.
  induction 1 as [|t ts Hlt _ IH]; cbn [map traverse get_size_t mbind outcome_bind]; [done|].
  rewrite IH. cbn [mbind outcome_bind]. by rewrite N.mod_small.
Qed.

(** Strings of well-formed UTF-8 and unsigned numbers are written and read
    back unchanged. *)
Lemma reparse_strings (ts : list string) :
  Forall (λ t, utf8 t = true) ts →
  traverse reparse (map JString ts) = Ok (map JString ts).
Proof.
  induction 1 as [|t ts Ht _ IH]; cbn [map traverse reparse]; [done|].
  by rewrite Ht, IH.
Qed.

Lemma reparse_unsigneds (ns : list N) :
  traverse reparse (map JUnsigned ns) = Ok (map JUnsigned ns).
Proof.
  induction ns as [|n ns IH]; cbn [map traverse reparse]; [done|]. by rewrite IH.
Qed.

(** The entry [to_json] writes for a threshold and for a selection. *)
Definition threshold_entry (entry : N * spec_float) : json :=
  JObject [("k"%string, JUnsigned entry.1);
           ("score"%string, JFloat (Float.to_double entry.2))].

Definition selection_entry (entry : N * Selection N) : json :=
  JObject [("k"%string, JUnsigned entry.1);
           ("intersections"%string,
            JArray (map JUnsigned (alg.sort N.leb (map enc (items_of entry.2)))))].

(** A threshold that JSON text can carry: a key that is a [size_t] and a
    score that is a finite [float]. *)
Definition threshold_ok (entry : N * spec_float) : Prop :=
  (entry.1 < 2 ^ 64)%N
  ∧ valid_binary Float.prec32 Float.emax32 entry.2 = true
  ∧ finite entry.2 = true.

Definition selection_ok (entry : N * Selection N) : Prop :=
  (entry.1 < 2 ^ 64)%N ∧ canonical_selection entry.2.

Lemma reparse_threshold_entry entry :
  threshold_ok entry → reparse (threshold_entry entry) = Ok (threshold_entry entry).
Proof.
  intros (Hk & Hv & Hf). unfold threshold_entry.
  cbn [reparse traverse fst snd].
  change (utf8 "k") with true. change (utf8 "score") with true. cbv iota.
  by rewrite to_double_finite_preserved, Hf by done.
Qed.

Lemma reparse_threshold_entries entries :
  Forall threshold_ok entries →
  traverse reparse (map threshold_entry entries) = Ok (map threshold_entry entries).
Proof.
  induction 1 as [|e es He _ IH]; cbn [map traverse]; [done|].
  by rewrite reparse_threshold_entry, IH.
Qed.

Lemma read_threshold_entry entry :
  threshold_ok entry →
  parse_threshold_entry (threshold_entry entry) = Ok entry.
Proof.
  intros (Hk & Hv & Hf). destruct entry as [k score]. cbn [fst snd] in *.
  unfold threshold_entry, parse_threshold_entry, get.
  cbn. rewrite N.mod_small by done. by rewrite of_double_to_double.
Qed.

Lemma read_threshold_entries entries :
  Forall threshold_ok entries →
  traverse parse_threshold_entry (map threshold_entry entries) = Ok entries.
Proof.
  induction 1 as [|e es He _ IH]; cbn [map traverse]; [done|].
  by rewrite read_threshold_entry, IH.
Qed.

Lemma reparse_selection_entry entry :
  reparse (selection_entry entry) = Ok (selection_entry entry).
Proof.
  unfold selection_entry. cbn [reparse traverse fst snd].
  change (utf8 "k") with true. change (utf8 "intersections") with true. cbv iota.
  by rewrite reparse_unsigneds.
Qed.

Lemma reparse_selection_entries entries :
  traverse reparse (map selection_entry entries) = Ok (map selection_entry entries).
Proof.
  induction entries as [|e es IH]; cbn [map traverse]; [done|].
  by rewrite reparse_selection_entry, IH.
Qed.

Lemma read_selection_entry entry :
  selection_ok entry →
  parse_selections_entry (selection_entry entry) = Ok entry.
Proof.
  intros (Hk & Hc). destruct entry as [k sel]. cbn [fst snd] in *.
  unfold selection_entry, parse_selections_entry, get.
  cbn [is_object negb find assoc String.eqb Ascii.eqb Bool.eqb get_size_t
       fmap outcome_fmap catch_json mbind outcome_bind get_vector fst snd].
  rewrite read_size_ts by (by apply masks_below_2_64).
  cbn [fmap outcome_fmap catch_json mbind outcome_bind].
  rewrite decode_sorted_masks by done. cbn [mbind outcome_bind].
  rewrite N.mod_small by done. by destruct sel.
Qed.

Lemma read_selection_entries entries :
  Forall selection_ok entries →
  traverse parse_selections_entry (map selection_entry entries) = Ok entries.
Proof.
  induction 1 as [|e es He _ IH]; cbn [map traverse]; [done|].
  by rewrite read_selection_entry, IH.
Qed.

Lemma write_selection_entries entries :
  Forall selection_ok entries →
  traverse (λ entry : N * Selection N,
              intersections_vec ← intersections_of entry.2;
              Ok (JObject [("k"%string, JUnsigned entry.1);
                           ("intersections"%string,
                            JArray (map JUnsigned (alg.sort N.leb intersections_vec)))]))
           entries
  = Ok (map selection_entry entries).
Proof.
  induction 1 as [|e es [_ He] _ IH]; cbn [map traverse]; [done|].
  rewrite intersections_of_canonical, IH by done. done.
Qed.

(** Strings that [dump] writes: the id, the raw query and the processed
    terms are well-formed UTF-8. *)
Definition strings_ok (q : QueryContainer) : Prop :=
  (∀ s, id q = Some s → utf8 s = true)
  ∧ (∀ s, query_string q = Some s → utf8 s = true)
  ∧ (∀ ts, processed_terms q = Some ts → Forall (λ t, utf8 t = true) ts).

(** A container whose JSON text [from_json] reads back unchanged. *)
Definition round_trippable (q : QueryContainer) : Prop :=
  (is_Some (query_string q) ∨ is_Some (processed_terms q) ∨ is_Some (term_ids q))
  ∧ strings_ok q
  ∧ (∀ ids, term_ids q = Some ids → Forall (λ t, t < 2 ^ 32)%N ids)
  ∧ Forall threshold_ok (thresholds q)
  ∧ Forall selection_ok (selections q).

(** [from_json] looks at its text only through [parse]. *)
Lemma from_json_of_text parse json_string json :
  parse json_string = Some json →
  from_json parse json_string = from_json (λ _, Some json) EmptyString.
Proof. intros E. unfold from_json. by rewrite E. Qed.

(** Such a container is read back unchanged from the JSON that [to_json]
    writes for it. *)
Lemma json_round_trip_of_round_trippable (q : QueryContainer) :
  round_trippable q → json_round_trip q = Ok q.
Proof.
  intros (H1 & (Hi & Hs & Ht) & H2 & H3 & H4).
  destruct q as [oi os ot oids ths sels].
  cbn [id query_string processed_terms term_ids thresholds selections] in *.
  unfold json_round_trip, to_json_string, to_json.
  cbn [id query_string processed_terms term_ids thresholds selections].
  destruct oi as [i|], os as [s|], ot as [t|], oids as [ids|],
           ths as [|th ths], sels as [|se ses]; cbv beta iota.
  all: try (set (ths0 := th :: ths) in * ; clearbody ths0).
  all: try (set (sels0 := se :: ses) in * ; clearbody sels0).
  all: rewrite ?write_selection_entries by done.
  all: cbn [mbind outcome_bind Json.set assoc_set String.eqb Ascii.eqb Bool.eqb].
  all: try (exfalso; destruct H1 as [[? H]|[[? H]|[? H]]]; discriminate H).
  all: fold threshold_entry.
  all: cbn [reparse traverse fst snd].
  all: change (utf8 "id") with true; change (utf8 "query") with true;
       change (utf8 "terms") with true; change (utf8 "term_ids") with true;
       change (utf8 "thresholds") with true; change (utf8 "selections") with true;
       cbv iota.
  all: rewrite ?(Hi _ eq_refl), ?(Hs _ eq_refl).
  all: rewrite ?reparse_strings by (by apply Ht).
  all: rewrite ?reparse_unsigneds, ?reparse_selection_entries.
  all: rewrite ?reparse_threshold_entries by done.
  all: cbn [mbind outcome_bind fmap outcome_fmap].
  all: unfold from_json, from_json_document, get; cbn.
  all: repeat (first [ rewrite read_strings
                     | rewrite read_uint32s by (by apply H2)
                     | rewrite read_threshold_entries by done
                     | rewrite read_selection_entries by done ]; cbn).
  all: reflexivity.
Qed.

(** The containers the documented constructors and mutators build. *)
Inductive documented : QueryContainer → Prop :=
| documented_raw s : documented (raw s)
| documented_from_terms terms term_processor :
    documented (from_terms terms term_processor)
| documented_from_term_ids ids : documented (from_term_ids ids)
| documented_from_colon_format line : documented (from_colon_format line)
| documented_set_string s q : documented q → documented (set_string s q)
| documented_parse parse_fn q q' :
    documented q → parse parse_fn q = Ok q' → documented q'
| documented_add_threshold k score q :
    documented q → documented (add_threshold k score q).2
| documented_add_selection k sel q :
    documented q → documented (add_selection k sel q).2.

Lemma with_thresholds_upsert k score q :
  (add_threshold k score q).2 = with_thresholds (upsert k score (thresholds q)).2 q.
Proof. unfold add_threshold. by destruct (upsert k score (thresholds q)). Qed.

Lemma with_selections_upsert k sel q :
  (add_selection k sel q).2 = with_selections (upsert k sel (selections q)).2 q.
Proof. unfold add_selection. by destruct (upsert k sel (selections q)). Qed.

(** Every documented way to build a container sets the raw query, the
    terms or the term ids, so [to_json] never throws on its result. *)
Lemma documented_has_query q :
  documented q →
  is_Some (query_string q) ∨ is_Some (processed_terms q) ∨ is_Some (term_ids q).
Proof.
  induction 1 as [s|terms fn|ids|line|s q _ _|parse_fn q q' _ _ E
                 |k score q _ IH|k sel q _ IH].
  - left. by eexists.
  - right. left. by eexists.
  - right. right. by eexists.
  - left. unfold from_colon_format.
    destruct (split_colon line) as [[before after]|]; by eexists.
  - left. by eexists.
  - unfold parse in E. destruct (query_string q) as [s|] eqn:Es; [|discriminate E].
    injection E as <-. right. left. by eexists.
  - by rewrite with_thresholds_upsert.
  - by rewrite with_selections_upsert.
Qed.

(** C5 (as amended).  A container built with the documented constructors
    and mutators, whose strings are well-formed UTF-8, whose term ids and
    keys fit their C++ types, whose threshold scores are finite and whose
    selections are canonical, is read back unchanged by [from_json] from
    the text that [to_json_string] writes for it. *)
Theorem json_round_trip_canonical (q : QueryContainer) :
  documented q →
  strings_ok q →
  (∀ ids, term_ids q = Some ids → Forall (λ t, t < 2 ^ 32)%N ids) →
  Forall threshold_ok (thresholds q) →
  Forall selection_ok (selections q) →
  json_round_trip q = Ok q.
Proof.
  intros D Hs H2 H3 H4. apply json_round_trip_of_round_trippable.
  split; [by apply documented_has_query|]. by split; [|split; [|split]].
Qed.

(** A string that is not well-formed UTF-8, here the single byte 255, is
    refused by [dump]: [to_json_string] throws the library's exception,
    which nothing in between handles. *)
Lemma json_round_trip_refuses_invalid_utf8 :
  json_round_trip (raw (String (ascii_of_N 255) EmptyString)) = invalid_utf8.
Proof. reflexivity. Qed.

(** Four term ids and, for k = 10, the two pairs (0, 3) and (1, 2). *)
Definition two_pairs_query : QueryContainer :=
  (add_selection 10 {| selected_terms := []; selected_pairs := [(0, 3); (1, 2)]%N |}
     (from_term_ids [11; 12; 13; 14]%N)).2.

(** C5 as stated fails: [to_json] sorts the masks of a selection, 9 for
    (0, 3) and 6 for (1, 2), so the pairs come back in the other order. *)
Lemma json_round_trip_reorders_pairs :
  ¬ (∀ q : QueryContainer, documented q → json_round_trip q = Ok q).
Proof.
  intros C.
  assert (D : documented two_pairs_query)
    by (apply documented_add_selection, documented_from_term_ids).
  specialize (C two_pairs_query D). vm_compute in C. discriminate C.
Qed.

(** A raw query with an id, parsed into four terms, with a threshold and
    a canonical selection for k = 10. *)
Definition example_parse_fn (_ : string) : list (N * string) :=
  [(11, "a"); (12, "b"); (13, "c"); (14, "d")]%N%string.

Definition canonical_query : QueryContainer :=
  let parsed :=
    with_processed_terms (Some (map snd (example_parse_fn "a b c d"%string)))
      (with_term_ids (Some (map fst (example_parse_fn "a b c d"%string)))
         (from_colon_format "q1:a b c d"%string)) in
  (add_selection 10 {| selected_terms := [0; 2]%N;
                       selected_pairs := [(1, 2); (0, 3)]%N |}
     (add_threshold 10 (Float.of_N 3) parsed).2).2.

Lemma json_round_trip_canonical_witness :
  json_round_trip canonical_query = Ok canonical_query.
Proof.
  apply (json_round_trip_canonical canonical_query).
  - apply documented_add_selection, documented_add_threshold.
    apply (documented_parse example_parse_fn (from_colon_format "q1:a b c d"%string));
      [apply documented_from_colon_format | reflexivity].
  - split; [|split].
    + intros s [= <-]. reflexivity.
    + intros s [= <-]. reflexivity.
    + intros ts [= <-]. repeat (constructor; [reflexivity|]). constructor.
  - intros ids E. injection E as <-. repeat (constructor; [reflexivity|]). constructor.
  - constructor; [|constructor]. split; [reflexivity|]. split; reflexivity.
  - constructor; [|constructor]. split; [reflexivity|].
    unfold canonical_selection. cbn [snd selected_terms selected_pairs].
    split; [|split; [|split]].
    + repeat first [apply Sorted_nil | apply Sorted_cons | apply HdRel_nil
                   | apply HdRel_cons | lia].
    + repeat (constructor; [reflexivity|]). constructor.
    + repeat (constructor; [cbn; lia|]). constructor.
    + change (Sorted N.le [6; 9]%N).
      repeat first [apply Sorted_nil | apply Sorted_cons | apply HdRel_nil
                   | apply HdRel_cons | lia].
Defined.

End round_trip.

(* ===================================================================== *)
(** * Part III: further properties of the code                  *)
(* ===================================================================== *)

(** ** The top-k queue: what it keeps, and [finalize] *)

Section heap_contents.
Context {A : Type} `{Inhabited A} (comp : A → A → bool).

(** Moving the hole from [hole] to [p] keeps the elements. *)
Lemma hole_shift_perm (v : list A) hole p x :
  hole < length v → p < length v → p ≠ hole →
  <[p := x]> (<[hole := v !!! p]> v) ≡ₚ <[hole := x]> v.
Proof.
  intros Hh Hp Hne.
  rewrite <- (list_insert_insert_eq v hole (v !!! p) x).
  apply Permutation_insert_swap.
  - apply list_lookup_insert_eq. done.
  - rewrite list_lookup_insert_ne by done. by apply list_lookup_lookup_total_lt.
Qed.

Lemma __push_heap_contents fuel : ∀ (v : list A) hole top value,
  hole < length v →
  std.__push_heap comp fuel v hole top value ≡ₚ <[hole := value]> v
  ∧ ∀ i, hole < i → std.__push_heap comp fuel v hole top value !! i = v !! i.
Proof.
  induction fuel as [|fuel IH]; intros v hole top value Hh; cbn [std.__push_heap].
  - split; [done|]. intros i Hi. apply list_lookup_insert_ne. lia.
  - destruct ((top <? hole) && comp (v !!! ((hole - 1) / 2)) value) eqn:E.
    + apply andb_true_iff in E as [Ht _]. apply Nat.ltb_lt in Ht.
      assert (Hp : (hole - 1) / 2 < hole) by (apply Nat.Div0.div_lt_upper_bound; lia).
      destruct (IH (<[hole := v !!! ((hole - 1) / 2)]> v) ((hole - 1) / 2) top value)
        as [I1 I2]; [rewrite length_insert; lia|].
      split.
      * rewrite I1. apply hole_shift_perm; lia.
      * intros i Hi. rewrite I2 by lia. apply list_lookup_insert_ne. lia.
    + split; [done|]. intros i Hi. apply list_lookup_insert_ne. lia.
Qed.

Lemma __adjust_heap_descend_contents fuel : ∀ (v : list A) hole len,
  hole < len → len ≤ length v →
  ∃ v' hole',
    std.__adjust_heap_descend comp fuel v hole hole len = (v', hole', hole')
    ∧ hole ≤ hole' < len ∧ length v' = length v
    ∧ (∀ x, <[hole' := x]> v' ≡ₚ <[hole := x]> v)
    ∧ (∀ i, len ≤ i → v' !! i = v !! i).
Proof.
  induction fuel as [|fuel IH]; intros v hole len Hh Hl.
  - exists v, hole. cbn. repeat split; try done; lia.
  - cbn [std.__adjust_heap_descend].
    destruct (hole <? (len - 1) / 2) eqn:E.
    + apply Nat.ltb_lt in E.
      set (r := 2 * (hole + 1)).
      assert (Hr : r = 2 * (hole + 1)) by reflexivity.
      set (c := if comp (v !!! r) (v !!! (r - 1)) then r - 1 else r).
      assert (Hc : hole < c < len).
      { unfold c. destruct (comp _ _); lia. }
      destruct (IH (<[hole := v !!! c]> v) c len) as (v' & hole' & E' & Hb & Hlen & Hp & Hi);
        [lia | rewrite length_insert; lia |].
      exists v', hole'. split; [exact E'|].
      rewrite length_insert in Hlen.
      split; [lia|]. split; [done|]. split.
      * intros x. rewrite Hp. apply hole_shift_perm; lia.
      * intros i Hi'. rewrite Hi by done. apply list_lookup_insert_ne. lia.
    + exists v, hole. repeat split; try done; lia.
Qed.

Lemma __adjust_heap_contents (v : list A) len value :
  0 < len → len ≤ length v →
  std.__adjust_heap comp v 0 len value ≡ₚ <[0 := value]> v
  ∧ ∀ i, len ≤ i → std.__adjust_heap comp v 0 len value !! i = v !! i.
Proof.
  intros H0 Hl. unfold std.__adjust_heap.
  destruct (__adjust_heap_descend_contents len v 0 len) as (v' & hole' & E & Hb & Hlen & Hp & Hi);
    [done..|].
  rewrite E.
  destruct (Nat.even len && (hole' =? (len - 2) / 2)) eqn:Ev.
  - apply andb_true_iff in Ev as [Ev Eh]. apply Nat.eqb_eq in Eh.
    apply Nat.even_spec in Ev as [m Hm].
    assert (Hc : 2 * (hole' + 1) - 1 = len - 1 ∧ hole' < len - 1).
    { subst len. replace (2 * m - 2) with (2 * (m - 1)) in Eh by lia.
      rewrite (Nat.mul_comm 2 (m - 1)), Nat.div_mul in Eh by lia. lia. }
    destruct Hc as [Hc1 Hc2]. rewrite Hc1.
    destruct (__push_heap_contents (S (len - 1)) (<[hole' := v' !!! (len - 1)]> v')
                (len - 1) 0 value) as [P1 P2]; [rewrite length_insert; lia|].
    split.
    + rewrite P1, <- Hp. apply hole_shift_perm; lia.
    + intros i Hi'. rewrite P2 by lia. rewrite list_lookup_insert_ne by lia. by apply Hi.
  - destruct (__push_heap_contents (S hole') v' hole' 0 value) as [P1 P2]; [lia|].
    split.
    + by rewrite P1, Hp.
    + intros i Hi'. rewrite P2 by lia. by apply Hi.
Qed.

Lemma pop_heap_contents (v : list A) :
  1 < length v →
  std.pop_heap comp v ≡ₚ v
  ∧ std.pop_heap comp v !! (length v - 1) = v !! 0.
Proof.
  intros Hl. unfold std.pop_heap.
  destruct (1 <? length v) eqn:E; [|apply Nat.ltb_ge in E; lia].
  destruct (__adjust_heap_contents (<[length v - 1 := v !!! 0]> v) (length v - 1)
              (v !!! (length v - 1))) as [P1 P2];
    [lia | rewrite length_insert; lia |].
  split.
  - rewrite P1. apply Permutation_insert_swap.
    + apply list_lookup_lookup_total_lt. lia.
    + apply list_lookup_lookup_total_lt. lia.
  - rewrite P2 by lia. rewrite list_lookup_insert_eq by lia.
    symmetry. apply list_lookup_lookup_total_lt. lia.
Qed.

Lemma push_heap_contents (v : list A) : std.push_heap comp v ≡ₚ v.
Proof.
  unfold std.push_heap. destruct (length v) as [|n] eqn:E; [done|].
  destruct (__push_heap_contents (S n) v n 0 (v !!! n)) as [P _]; [lia|].
  rewrite P. rewrite list_insert_id; [done|].
  apply list_lookup_lookup_total_lt. lia.
Qed.

End heap_contents.

(** The components of the queue that [insert] returns. *)
Ltac insert_result E :=
  match type of E with
  | Some (?b0, TopK.Build ?t0 ?k0 ?w0) = Some (?b, TopK.Build ?t ?k ?w) =>
      assert (b = b0 ∧ t = t0 ∧ k = k0 ∧ w = w0) as (-> & -> & -> & ->)
        by (repeat split; congruence);
      clear E
  end.

Section topk_contents.
Import TopK.

(** The threshold [t'] is [t] or a score that is not below it. *)
Definition not_lowered (t t' : spec_float) : Prop :=
  t' = t ∨ (Float.ordered t ∧ Float.ordered t' ∧ fle t t').

Lemma not_lowered_refl t : not_lowered t t.
Proof. by left. Qed.

Lemma not_lowered_trans t1 t2 t3 :
  not_lowered t1 t2 → not_lowered t2 t3 → not_lowered t1 t3.
Proof.
  intros [->|(O1 & O2 & L12)] [->|(O2' & O3 & L23)].
  - by left.
  - right. auto.
  - right. auto.
  - right. split; [done|]. split; [done|]. by apply (fle_trans _ t2).
Qed.

Lemma SFltb_irrefl t : SFltb t t = false.
Proof.
  destruct t as [s| s| |s m e]; try reflexivity.
  - by destruct s.
  - unfold SFltb, SFcompare. destruct s; rewrite Z.compare_refl.
    + by rewrite Pos.compare_cont_refl.
    + by rewrite Pos.compare_cont_refl.
Qed.

Lemma not_lowered_SFltb t t' : not_lowered t t' → SFltb t' t = false.
Proof.
  intros [->|(O1 & O2 & L)]; [apply SFltb_irrefl|].
  by apply SFltb_false_fle.
Qed.

Lemma SFltb_nan_r t : SFltb t S754_nan = false.
Proof. by destruct t as [[]|[]| |[] ? ?]. Qed.

(** A score not above [t] is not above a threshold that was not lowered. *)
Lemma not_above_not_lowered t t' d :
  not_lowered t t' → SFltb t d = false → SFltb t' d = false.
Proof.
  intros [->|(O1 & O2 & L)] Hd; [done|].
  destruct d as [s| s| |s m e] eqn:Ed; [| |apply SFltb_nan_r|].
  all: rewrite <- Ed in *; assert (Od : Float.ordered d) by (by subst d).
  all: apply SFltb_false_fle; [done..|].
  all: apply SFltb_false_fle in Hd; [|done..].
  all: by apply (fle_trans _ t).
Qed.

Lemma SFleb_ordered x y : SFleb x y = true → Float.ordered x ∧ Float.ordered y.
Proof.
  unfold SFleb, SFcompare. destruct x as [[]|[]| |[] ? ?], y as [[]|[]| |[] ? ?]; done.
Qed.

Lemma SFltb_SFleb x y : SFltb x y = true → SFleb x y = true.
Proof.
  unfold SFltb, SFleb. destruct (SFcompare x y) as [[]|]; done.
Qed.

Lemma SFleb_fle_1 x y : SFleb x y = true → fle x y.
Proof. intros E. destruct (SFleb_ordered _ _ E). by apply SFleb_fle. Qed.

(** The invariant of [insert], with what it says of the entries kept. *)
Definition kept_inv (q : topk_queue) : Prop :=
  queue_inv q ∧ Forall (λ e, SFleb (m_threshold q) e.1 = true) (m_q q).

Lemma min_score_kept t v :
  is_min_score t v → Forall (λ e, SFleb t e.1 = true) v.
Proof. intros [_ Hm]. apply Forall_forall. exact Hm. Qed.

Lemma min_score_unique t t' v :
  is_min_score t v → is_min_score t' v → fle t t' ∧ fle t' t.
Proof.
  intros [[d Hd] Hm] [[d' Hd'] Hm'].
  split; apply SFleb_fle_1.
  - apply (Hm _ Hd').
  - apply (Hm' _ Hd).
Qed.

Lemma insert_step q score docid :
  (1 <= m_k q)%N → kept_inv q →
  ∃ b q' out,
    insert score docid q = Some (b, q')
    ∧ kept_inv q' ∧ m_k q' = m_k q
    ∧ not_lowered (m_threshold q) (m_threshold q')
    ∧ m_q q ++ [(score, docid)] ≡ₚ m_q q' ++ out
    ∧ Forall (λ d, SFltb (m_threshold q') d.1 = false) out
    ∧ (size q <= size q')%N
    ∧ ((size q' < m_k q)%N → m_threshold q' = m_threshold q).
Proof.
  intros Hk [I K].
  destruct (insert_preserves_inv q score docid Hk I) as (b & q' & E & I' & K').
  exists b, q'. pose proof E as E0. unfold insert in E.
  destruct I as (I1 & I2 & I3 & I4). destruct I' as (I1' & I2' & I3' & I4').
  unfold kept_inv, queue_inv, size in *.
  destruct q' as [t' k' w']. cbn [m_threshold m_q m_k] in *.
  destruct (would_enter score q) eqn:W; cbn [negb] in E.
  2:{ injection E as <-. subst q. cbn [m_threshold m_q m_k] in *. exists [(score, docid)].
      split; [exact E0|]. split; [done|]. split; [done|]. split; [by left|].
      split; [done|]. split; [by constructor|]. split; [lia|done]. }
  unfold would_enter, Float.gt in W.
  pose proof (SFltb_ordered _ _ W) as [Ot Os].
  assert (Ls : fle (m_threshold q) score) by (by apply SFleb_fle_1, SFltb_SFleb).
  set (v := m_q q ++ [(score, docid)]) in *.
  assert (Lv : length v = S (length (m_q q))) by (subst v; rewrite length_app; cbn; lia).
  assert (Kv : Forall (λ e, SFleb (m_threshold q) e.1 = true) v).
  { subst v. apply Forall_app. split; [done|]. constructor; [|done]. by apply SFltb_SFleb. }
  destruct (N.of_nat (length v) <=? m_k q)%N eqn:E1.
  - apply N.leb_le in E1.
    pose proof (push_heap_contents min_heap_order v) as Pv.
    pose proof (push_heap_length min_heap_order v) as Lp.
    destruct (N.of_nat (length (std.push_heap min_heap_order v)) =? m_k q)%N eqn:E2.
    + apply N.eqb_eq in E2.
      destruct (front (std.push_heap min_heap_order v)) as [e|] eqn:Ef; [|discriminate E].
      cbn [mbind option_bind] in E. insert_result E.
      exists []. split; [exact E0|].
      specialize (I4' E2).
      split; [split; [done|by apply min_score_kept]|].
      split; [done|]. split.
      { right. destruct I4' as [[d Hd] _]. rewrite Pv in Hd.
        pose proof (proj1 (Forall_forall _ _) Kv _ Hd) as Le. cbn in Le.
        destruct (SFleb_ordered _ _ Le). split; [done|]. split; [done|].
        by apply SFleb_fle_1. }
      split; [by rewrite app_nil_r, Pv|]. split; [constructor|].
      split; [lia|]. lia.
    + apply N.eqb_neq in E2. insert_result E.
      exists []. split; [exact E0|].
      split; [split; [done|by rewrite Pv]|].
      split; [done|]. split; [by left|].
      split; [by rewrite app_nil_r, Pv|]. split; [constructor|].
      split; [lia|done].
  - apply N.leb_gt in E1.
    assert (Lq : N.of_nat (length (m_q q)) = m_k q) by lia.
    destruct (pop_heap_contents min_heap_order v) as [Pv Pl]; [lia|].
    pose proof (pop_heap_length min_heap_order v) as Lp.
    set (v1 := std.pop_heap min_heap_order v) in *.
    rewrite removelast_firstn_len, Lp, Lv in E. cbn [Init.Nat.pred] in E.
    set (w := take (length (m_q q)) v1) in *.
    destruct (front w) as [e|] eqn:Ef; [|discriminate E].
    cbn [mbind option_bind] in E. insert_result E.
    destruct (m_q q) as [|x0 rest] eqn:Eq; [cbn in Lq; lia|].
    assert (Ew : v1 = w ++ [x0]).
    { rewrite <- (take_drop (length (x0 :: rest)) v1). fold w. f_equal.
      rewrite Lv in Pl. replace (S (length (x0 :: rest)) - 1) with (length (x0 :: rest)) in Pl by lia.
      subst v. cbn [app lookup list_lookup] in Pl.
      apply drop_S in Pl. rewrite Pl, drop_ge; [done|]. rewrite Lp, Lv. lia. }
    assert (Lw : length w = length (x0 :: rest)).
    { subst w. rewrite length_take. lia. }
    assert (Sw : N.of_nat (length w) = m_k q) by lia.
    specialize (I4' Sw). specialize (I4 Lq).
    exists [x0]. split; [exact E0|].
    split; [split; [done|by apply min_score_kept]|].
    split; [done|].
    assert (Le : not_lowered (m_threshold q) e.1).
    { right. destruct I4' as [[d Hd] _].
      assert (Hin : (e.1, d) ∈ v).
      { rewrite <- Pv, Ew. apply elem_of_app. by left. }
      pose proof (proj1 (Forall_forall _ _) Kv _ Hin) as Le. cbn in Le.
      destruct (SFleb_ordered _ _ Le). split; [done|]. split; [done|].
      by apply SFleb_fle_1. }
    split; [done|].
    split; [by rewrite <- Ew, Pv|].
    split.
    { constructor; [|constructor].
      apply (not_above_not_lowered (m_threshold q)); [done|].
      assert (M0 : is_min_score x0.1 (x0 :: rest)).
      { apply heap_front_is_min; [done|done|reflexivity]. }
      destruct (min_score_unique _ _ _ I4 M0) as [_ L0].
      destruct I4 as [[d Hd] Hm].
      pose proof (Hm x0 ltac:(left)) as L1.
      destruct (SFleb_ordered _ _ L1).
      by apply SFltb_false_fle. }
    split; [lia|]. lia.
Qed.

Lemma insert_all_history ops : ∀ q,
  (1 <= m_k q)%N → kept_inv q →
  ∃ q' dropped,
    insert_all ops q = Some q'
    ∧ kept_inv q' ∧ m_k q' = m_k q
    ∧ not_lowered (m_threshold q) (m_threshold q')
    ∧ m_q q ++ ops ≡ₚ m_q q' ++ dropped
    ∧ Forall (λ d, SFltb (m_threshold q') d.1 = false) dropped
    ∧ (size q <= size q')%N
    ∧ ((size q' < m_k q)%N → m_threshold q' = m_threshold q).
Proof.
  induction ops as [|[score docid] ops IH]; intros q Hk I.
  - exists q, []. split; [done|]. split; [done|]. split; [done|].
    split; [by left|]. split; [done|]. split; [constructor|]. split; [lia|done].
  - destruct (insert_step q score docid Hk I)
      as (b & q1 & out & E & I1 & K1 & N1 & P1 & D1 & S1 & T1).
    destruct (IH q1) as (q' & dropped & E' & I' & K' & N' & P' & D' & S' & T');
      [lia|done|].
    exists q', (dropped ++ out). cbn [insert_all]. rewrite E. cbn.
    split; [done|]. split; [done|]. split; [congruence|].
    split; [by apply (not_lowered_trans _ (m_threshold q1))|].
    split.
    { rewrite (app_assoc (m_q q')), <- P'.
      change ((score, docid) :: ops) with ([(score, docid)] ++ ops).
      rewrite app_assoc, P1, <- !app_assoc. f_equiv. apply Permutation_app_comm. }
    split.
    { apply Forall_app. split; [done|].
      eapply Forall_impl; [exact D1|]. cbn. intros d.
      by apply not_above_not_lowered. }
    split; [lia|].
    intros Hs. rewrite T' by lia. apply T1. lia.
Qed.

Lemma start_kept_inv k hint : (1 <= k)%N → kept_inv (start k hint).
Proof.
  intros Hk. split; [by apply start_inv|].
  by destruct hint.
Qed.





End topk_contents.

Section sort_heap_facts.
Context {A : Type} `{Inhabited A} (comp : A → A → bool) (P : A → Prop).
Hypothesis comp_asym : ∀ a b, comp a b = true → comp b a = false.
Hypothesis comp_negtrans :
  ∀ a b c, P a → P b → P c → comp a b = false → comp b c = false → comp a c = false.

(** Ascending in the order of [comp]: [comp] prefers no element to an
    earlier one. *)
Definition comp_sorted : list A → Prop :=
  StronglySorted (λ a b, comp b a = false).

(** One iteration of [sort_heap]: the root goes to the end of the heap. *)
Lemma sort_heap_step (v : list A) last :
  1 < last → last ≤ length v → Forall P v → std.is_heap_until comp last v →
  let v' := std.__adjust_heap comp (<[last - 1 := v !!! 0]> v) 0 (last - 1)
              (v !!! (last - 1)) in
  std.is_heap_until comp (last - 1) v' ∧ Forall P v' ∧ length v' = length v
  ∧ v' ≡ₚ v
  ∧ take (last - 1) v' ++ [v !!! 0] ≡ₚ take last v
  ∧ drop (last - 1) v' = v !!! 0 :: drop last v.
Proof using comp_asym comp_negtrans.
  intros H1 Hl Pv Hh v'.
  destruct (__adjust_heap_correct comp P comp_asym comp_negtrans
              (<[last - 1 := v !!! 0]> v) (last - 1) (v !!! (last - 1)))
    as (R1 & R2 & R3); [lia|rewrite length_insert; lia| | | |].
  { apply Forall_insert; [done|]. apply Forall_lookup_total_1; [done|lia]. }
  { apply Forall_lookup_total_1; [done|lia]. }
  { split.
    - intros i Hi N1 N2. rewrite !list_lookup_total_insert_ne by lia. apply Hh. lia.
    - intros c Hc Ec Hp. lia. }
  destruct (__adjust_heap_contents comp (<[last - 1 := v !!! 0]> v) (last - 1)
              (v !!! (last - 1))) as [C1 C2]; [lia|rewrite length_insert; lia|].
  fold v' in R1, R2, R3, C1, C2. rewrite length_insert in R3.
  split; [done|]. split; [done|]. split; [done|].
  assert (D : drop (last - 1) v' = v !!! 0 :: drop last v).
  { apply list_eq. intros i. rewrite lookup_drop, C2 by lia.
    destruct i as [|i].
    - rewrite Nat.add_0_r, list_lookup_insert_eq by lia. done.
    - rewrite list_lookup_insert_ne by lia.
      change ((v !!! 0 :: drop last v) !! S i) with (drop last v !! i).
      rewrite lookup_drop. f_equal. lia. }
  assert (C3 : v' ≡ₚ v).
  { rewrite C1. apply Permutation_insert_swap; apply list_lookup_lookup_total_lt; lia. }
  split; [done|]. split; [|done].
  apply (Permutation_app_inv_r (drop last v)).
  rewrite <- app_assoc. cbn [app]. rewrite <- D, !take_drop. done.
Qed.

Lemma __sort_heap_correct fuel : ∀ (v : list A) last,
  last ≤ fuel → last ≤ length v → Forall P v →
  std.is_heap_until comp last v →
  comp_sorted (drop last v) →
  (∀ x y, x ∈ take last v → y ∈ drop last v → comp y x = false) →
  std.__sort_heap comp fuel v last ≡ₚ v
  ∧ comp_sorted (std.__sort_heap comp fuel v last).
Proof using comp_asym comp_negtrans.
  induction fuel as [|fuel IH]; intros v last Hf Hl Pv Hh Hs Hps.
  - assert (last = 0) as -> by lia. cbn. split; [done|]. by rewrite drop_0 in Hs.
  - cbn [std.__sort_heap]. destruct (1 <? last) eqn:E.
    + apply Nat.ltb_lt in E.
      destruct (sort_heap_step v last E Hl Pv Hh) as (S1 & S2 & S3 & Pv' & S4 & S5).
      set (v' := std.__adjust_heap comp (<[last - 1 := v !!! 0]> v) 0 (last - 1)
                   (v !!! (last - 1))) in *.
      assert (F0 : ∀ x, x ∈ take last v → comp (v !!! 0) x = false).
      { intros x Hx. apply list_elem_of_lookup_total in Hx as (i & Hi & <-).
        rewrite length_take in Hi. rewrite lookup_total_take_lt by lia.
        apply (heap_front_least comp P comp_asym comp_negtrans v last); [lia|done|done|lia]. }
      assert (I0 : v !!! 0 ∈ take last v).
      { apply list_elem_of_lookup_total. exists 0. rewrite length_take.
        split; [lia|]. rewrite lookup_total_take_lt by lia. done. }
      destruct (IH v' (last - 1)) as [R1 R2]; [lia|lia|done|done| | |].
      * rewrite S5. constructor; [done|].
        apply Forall_forall. intros y Hy. by apply Hps.
      * intros x y Hx Hy. rewrite S5 in Hy.
        assert (Hx' : x ∈ take last v).
        { rewrite <- S4. apply elem_of_app. by left. }
        apply elem_of_cons in Hy as [->|Hy]; [by apply F0|by apply Hps].
      * split; [by rewrite R1|done].
    + apply Nat.ltb_ge in E. split; [done|].
      rewrite <- (take_drop last v).
      destruct (take last v) as [|x [|x' t]] eqn:Et.
      * done.
      * cbn [app]. constructor; [done|].
        apply Forall_forall. intros y Hy. apply Hps; [by left|done].
      * apply (f_equal length) in Et. rewrite length_take in Et. cbn in Et. lia.
Qed.

Lemma sort_heap_correct (v : list A) :
  Forall P v → std.is_heap_until comp (length v) v →
  std.sort_heap comp v ≡ₚ v ∧ comp_sorted (std.sort_heap comp v).
Proof using comp_asym comp_negtrans.
  intros Pv Hh. apply __sort_heap_correct; [done|done|done|done| |].
  - rewrite drop_all. constructor.
  - intros x y _ Hy. rewrite drop_all in Hy. by apply elem_of_nil in Hy.
Qed.

End sort_heap_facts.

(** The search of [lower_bound] in a range where [comp] holds of every
    element ends at the end of the range. *)
Lemma __lower_bound_all {A B} `{Inhabited A} (v : list A) (val : B) comp fuel :
  ∀ first len,
    len ≤ fuel →
    (∀ i, first ≤ i < first + len → comp (v !!! i) val = true) →
    std.__lower_bound fuel v first len val comp = first + len.
Proof.
  induction fuel as [|fuel IH]; intros first len Hf Hc.
  - cbn. lia.
  - cbn [std.__lower_bound]. destruct (0 <? len) eqn:E.
    + apply Nat.ltb_lt in E.
      assert (Hh : len / 2 < len) by (apply Nat.div_lt; lia).
      rewrite Hc by lia. rewrite IH; [lia|lia|].
      intros i Hi. apply Hc. lia.
    + apply Nat.ltb_ge in E. lia.
Qed.

Section finalize_facts.
Import TopK.

(** Zero, a positive number or NaN: the values a threshold takes. *)
Definition nonneg_or_nan (x : spec_float) : Prop :=
  match x with
  | S754_nan | S754_zero _ | S754_finite false _ _ | S754_infinity false => True
  | _ => False
  end.

Definition binary32 (x : spec_float) : Prop :=
  valid_binary Float.prec32 Float.emax32 x = true.

Lemma above_nonneg t s : nonneg_or_nan t → SFltb t s = true → SFltb Float.zero s = true.
Proof. destruct t as [[]|[]| |[] m e], s as [[]|[]| |[] m' e']; cbn; done. Qed.

Lemma positive_nonneg s : SFltb Float.zero s = true → nonneg_or_nan s.
Proof. destruct s as [[]|[]| |[] m' e']; cbn; done. Qed.

Lemma of_double_nonneg x : nonneg_or_nan x → nonneg_or_nan (Float.of_double x).
Proof.
  destruct x as [s|[]| |[] m e]; try done. intros _.
  unfold Float.of_double, binary_normalize, cond_Zopp, binary_round, binary_round_aux.
  repeat case_match; done.
Qed.

Lemma relax_nonneg t : nonneg_or_nan (relax t).
Proof.
  unfold relax. apply of_double_nonneg.
  generalize (SFsub Float.prec64 Float.emax64 (Float.to_double t) Float.lit_0_0001).
  intros a. unfold Float.std_max, Float.lt.
  destruct (SFltb a Float.zero) eqn:E; [done|].
  destruct a as [[]|[]| |[] m e]; done.
Qed.

(** What [finalize] relies on: the scores in the queue are positive
    [float]s, and a full queue has the score at the root as threshold. *)
Definition final_inv (q : topk_queue) : Prop :=
  queue_inv q
  ∧ nonneg_or_nan (m_threshold q)
  ∧ Forall (λ e, SFltb Float.zero e.1 = true ∧ binary32 e.1) (m_q q)
  ∧ (size q = m_k q → ∃ e, front (m_q q) = Some e ∧ m_threshold q = e.1).

Lemma front_elem_of (v : list entry_type) e : front v = Some e → e ∈ v.
Proof. destruct v; [done|]. cbn. intros [= ->]. left. Qed.

Lemma insert_final_inv q score docid :
  (1 <= m_k q)%N → binary32 score → final_inv q →
  ∃ b q', insert score docid q = Some (b, q') ∧ final_inv q' ∧ m_k q' = m_k q.
Proof.
  intros Hk Vs (I & Tn & Fp & Fr).
  destruct (insert_preserves_inv q score docid Hk I) as (b & q' & E & I' & K').
  exists b, q'. split; [done|]. split; [|done]. split; [done|].
  unfold insert in E. unfold size in *.
  destruct q' as [t' k' w']. cbn [m_threshold m_q m_k] in *.
  destruct (would_enter score q) eqn:W; cbn [negb] in E.
  2:{ injection E as <-. subst q. cbn [m_threshold m_q m_k] in *. done. }
  unfold would_enter, Float.gt in W.
  set (v := m_q q ++ [(score, docid)]) in *.
  assert (Lv : length v = S (length (m_q q))) by (subst v; rewrite length_app; cbn; lia).
  assert (Fv : Forall (λ e, SFltb Float.zero e.1 = true ∧ binary32 e.1) v).
  { subst v. apply Forall_app. split; [done|]. constructor; [|done].
    split; [|done]. by apply (above_nonneg (m_threshold q)). }
  assert (Hfront : ∀ (w : list entry_type) e,
            front w = Some e →
            Forall (λ e, SFltb Float.zero e.1 = true ∧ binary32 e.1) w →
            nonneg_or_nan e.1).
  { intros w e Hf Hw. apply front_elem_of in Hf.
    apply positive_nonneg. by apply (proj1 (Forall_forall _ _) Hw e). }
  destruct (N.of_nat (length v) <=? m_k q)%N eqn:E1.
  - pose proof (push_heap_contents min_heap_order v) as Pv.
    assert (Fw : Forall (λ e, SFltb Float.zero e.1 = true ∧ binary32 e.1)
                   (std.push_heap min_heap_order v)) by (by rewrite Pv).
    destruct (N.of_nat (length (std.push_heap min_heap_order v)) =? m_k q)%N eqn:E2.
    + destruct (front (std.push_heap min_heap_order v)) as [e|] eqn:Ef; [|discriminate E].
      cbn [mbind option_bind] in E. insert_result E.
      split; [by apply (Hfront _ _ Ef)|]. split; [done|]. intros _. by exists e.
    + apply N.eqb_neq in E2. insert_result E.
      split; [done|]. split; [done|]. intros; lia.
  - apply N.leb_gt in E1.
    destruct (pop_heap_contents min_heap_order v) as [Pv _]; [lia|].
    set (w := removelast (std.pop_heap min_heap_order v)) in *.
    assert (Fw : Forall (λ e, SFltb Float.zero e.1 = true ∧ binary32 e.1) w).
    { subst w. rewrite removelast_firstn_len. apply Forall_take. by rewrite Pv. }
    destruct (front w) as [e|] eqn:Ef; [|discriminate E].
    cbn [mbind option_bind] in E. insert_result E.
    split; [by apply (Hfront _ _ Ef)|]. split; [done|]. intros _. by exists e.
Qed.

Lemma start_final_inv k hint : (1 <= k)%N → final_inv (start k hint).
Proof.
  intros Hk. split; [by apply start_inv|].
  destruct hint as [t|]; cbn.
  - split; [apply relax_nonneg|]. split; [constructor|]. unfold size. cbn. lia.
  - split; [done|]. split; [constructor|]. unfold size. cbn. lia.
Qed.

Lemma insert_all_final_inv ops : ∀ q,
  (1 <= m_k q)%N → Forall (λ e, binary32 e.1) ops → final_inv q →
  ∃ q', insert_all ops q = Some q' ∧ final_inv q' ∧ m_k q' = m_k q.
Proof.
  induction ops as [|[score docid] ops IH]; intros q Hk Vo I.
  - exists q. auto.
  - apply Forall_cons in Vo as [Vs Vo].
    destruct (insert_final_inv q score docid Hk Vs I) as (b & q1 & E & I1 & K1).
    destruct (IH q1) as (q' & E' & I' & K'); [lia|done|done|].
    exists q'. cbn [insert_all]. rewrite E. cbn. split; [done|]. split; [done|]. congruence.
Qed.

Lemma finalize_final_inv q :
  final_inv q →
  ∃ r, finalize q = Some r
       ∧ topk r ≡ₚ topk q
       ∧ StronglySorted (λ a b, Float.lt a.1 b.1 = false) (topk r)
       ∧ threshold r = (if (size q =? capacity q)%N then threshold q else Float.zero)
       ∧ capacity r = capacity q.
Proof.
  intros ((I1 & I2 & I3 & I4) & Tn & Fp & Fr).
  destruct (sort_heap_correct min_heap_order ordered_entry
              min_heap_order_asym min_heap_order_negtrans (m_q q) I3 I2) as [Sp Ss].
  assert (Fs : Forall (λ e, SFltb Float.zero e.1 = true ∧ binary32 e.1)
                 (std.sort_heap min_heap_order (m_q q))) by (by rewrite Sp).
  assert (Lb : std.lower_bound (std.sort_heap min_heap_order (m_q q)) Float.zero
                 (λ (l : entry_type) r, Float.gt l.1 r)
               = length (std.sort_heap min_heap_order (m_q q))).
  { unfold std.lower_bound. rewrite __lower_bound_all; [done|done|].
    intros i Hi. unfold Float.gt.
    apply (Forall_lookup_total_1 _ _ i Fs). exact (proj2 Hi). }
  unfold finalize. rewrite Lb, firstn_all.
  unfold capacity, threshold, topk.
  destruct (size q =? m_k q)%N eqn:E.
  - apply N.eqb_eq in E. destruct (Fr E) as (e & Ef & Et).
    rewrite Ef. cbn [mbind option_bind].
    eexists. split; [reflexivity|]. cbn [m_q m_threshold m_k].
    split; [done|]. split; [exact Ss|]. split; [|done].
    rewrite Et. apply of_double_to_double.
    apply front_elem_of in Ef. by apply (proj1 (Forall_forall _ _) Fp e).
  - cbn [mbind option_bind].
    eexists. split; [reflexivity|]. cbn [m_q m_threshold m_k].
    split; [done|]. split; [exact Ss|]. done.
Qed.



(** X4.  A queue of capacity zero is always empty and "full": [finalize] reads
    the front of its empty vector. *)
Theorem finalize_reads_front_of_empty_queue (q : topk_queue) :
  m_k q = 0%N → m_q q = [] → finalize q = None.
Proof.
  intros Hk Hq. unfold finalize, size, capacity. rewrite Hk, Hq. reflexivity.
Qed.

Lemma finalize_reads_front_of_empty_queue_witness : finalize (make 0) = None.
Proof.
  apply (finalize_reads_front_of_empty_queue (make 0)); reflexivity.
Defined.

End finalize_facts.


(** ** Raw cursors: writing, reading and searching *)

Section writer_facts.
Import RawCursor.
Context {T : Type} `{Writable T}.

(** The cursor at the [i]-th posting of the bytes [body]. *)
Definition cursor_at (body : list Byte.byte) (i : nat) : RawCursor :=
  {| m_current := sizeof * N.of_nat i; m_bytes := body |}.

Lemma pushed (postings : list T) : ∀ w,
  m_postings (fold_left (λ w p, push p w) postings w) = m_postings w ++ postings.
Proof.
  induction postings as [|p ps IH]; intros w; cbn [fold_left].
  - by rewrite app_nil_r.
  - rewrite IH. cbn. by rewrite <- app_assoc.
Qed.

Lemma body_length (postings : list T) :
  N.of_nat (length (flat_map as_bytes postings)) = (sizeof * N.of_nat (length postings))%N.
Proof.
  induction postings as [|p ps IH]; cbn [flat_map length].
  - lia.
  - rewrite length_app, as_bytes_length. lia.
Qed.

Lemma body_chunk (postings : list T) : ∀ i x,
  postings !! i = Some x →
  take (N.to_nat sizeof) (drop (N.to_nat (sizeof * N.of_nat i)) (flat_map as_bytes postings))
  = as_bytes x.
Proof.
  induction postings as [|p ps IH]; intros i x Hi; [done|].
  cbn [flat_map]. destruct i as [|i]; cbn in Hi.
  - injection Hi as ->. rewrite N.mul_0_r. change (N.to_nat 0) with 0. rewrite drop_0.
    rewrite take_app_length'; [done|]. symmetry. apply as_bytes_length.
  - replace (N.to_nat (sizeof * N.of_nat (S i)))
      with (length (as_bytes p) + N.to_nat (sizeof * N.of_nat i))
      by (rewrite as_bytes_length; lia).
    rewrite drop_app_add'; [|done]. by apply IH.
Qed.

Lemma iter_advance body n : ∀ i,
  (sizeof * N.of_nat (i + n) < 2 ^ 64)%N →
  Nat.iter n advance (cursor_at body i) = cursor_at body (i + n).
Proof.
  induction n as [|n IH]; intros i Hb.
  - by rewrite Nat.add_0_r.
  - rewrite Nat.iter_succ, IH by lia. unfold advance, cursor_at. cbn [m_current m_bytes].
    f_equal. unfold size_t. rewrite N.mod_small by lia. lia.
Qed.

Lemma write_nonempty os (w : RawWriter T) :
  m_postings w ≠ [] →
  write os w
  = Some ((os ++ uint32_bytes (N.of_nat (length (m_postings w)) mod 2 ^ 32))
            ++ flat_map as_bytes (m_postings w),
          size_t (4 + N.of_nat (length (flat_map as_bytes (m_postings w))))).
Proof. unfold write. by destruct (m_postings w). Qed.

Lemma write_empty os (w : RawWriter T) : m_postings w = [] → write os w = None.
Proof. unfold write. by intros ->. Qed.

Section written.
Variable postings : list T.
Hypothesis in_range_postings : Forall in_range postings.
Hypothesis fits : (sizeof * (N.of_nat (length postings) + 1) + 4 < 2 ^ 64)%N.

Local Abbreviation body := (flat_map as_bytes postings).
Local Abbreviation count := (length postings).

Lemma write_pushed :
  postings ≠ [] →
  write [] (fold_left (λ w p, push p w) postings writer)
  = Some (uint32_bytes (N.of_nat count mod 2 ^ 32) ++ body,
          (4 + sizeof * N.of_nat count)%N).
Proof using fits.
  intros Hne. rewrite write_nonempty by (by rewrite pushed).
  rewrite pushed. cbn [m_postings writer app]. f_equal. f_equal. unfold size_t.
  rewrite body_length. apply N.mod_small. lia.
Qed.

Lemma read_written bytes sz :
  write [] (BuildWriter postings) = Some (bytes, sz) →
  read bytes = Some (cursor_at body 0).
Proof.
  clear fits in_range_postings. intros Hw.
  assert (Hne : postings ≠ []).
  { intros E. by rewrite (write_empty [] (BuildWriter postings) E) in Hw. }
  rewrite write_nonempty in Hw by done. cbn [m_postings] in Hw.
  rewrite app_nil_l in Hw.
  set (prefix := uint32_bytes (N.of_nat count mod 2 ^ 32)) in Hw.
  assert (Lp : length prefix = 4) by reflexivity. clearbody prefix.
  assert (bytes = prefix ++ body) as -> by congruence. clear Hw.
  unfold read, make. rewrite length_app, Lp.
  destruct (4 <=? N.of_nat (4 + length body))%N eqn:E4; [|apply N.leb_gt in E4; lia].
  rewrite (drop_app_length' prefix body 4 (eq_sym Lp)), body_length.
  pose proof (@sizeof_pos T _) as Sp.
  rewrite N.mul_comm, N.Div0.mod_mul. cbn [N.eqb andb].
  destruct (N.of_nat count * sizeof =? 0)%N eqn:E0.
  - apply N.eqb_eq in E0.
    assert (count ≠ 0) by (intros E; by apply Hne, nil_length_inv).
    nia.
  - cbn [negb]. unfold cursor_at. by rewrite N.mul_0_r.
Qed.

Lemma empty_at i : empty (cursor_at body i) = (i =? count).
Proof.
  clear fits in_range_postings.
  unfold empty, cursor_at. cbn [m_current m_bytes]. rewrite body_length.
  pose proof (@sizeof_pos T _) as Sp.
  destruct (i =? count) eqn:E.
  - apply Nat.eqb_eq in E. subst i. apply N.eqb_refl.
  - apply Nat.eqb_neq in E. apply N.eqb_neq. nia.
Qed.

Lemma value_at i :
  i ≤ count → value (cursor_at body i) = Some (nth i postings sentinel).
Proof using in_range_postings fits.
  intros Hi. unfold value, deref. rewrite empty_at.
  destruct (i =? count) eqn:E.
  - apply Nat.eqb_eq in E. subst i. by rewrite nth_overflow.
  - apply Nat.eqb_neq in E.
    destruct (postings !! i) as [x|] eqn:Ex;
      [|apply lookup_ge_None in Ex; lia].
    unfold subspan, cursor_at. cbn [m_current m_bytes]. rewrite body_length.
    pose proof (@sizeof_pos T _) as Sp.
    destruct ((sizeof * N.of_nat i <=? sizeof * N.of_nat count)%N
              && (sizeof <=? sizeof * N.of_nat count - sizeof * N.of_nat i)%N) eqn:Eb.
    + cbn [fmap option_fmap option_map]. f_equal.
      rewrite (body_chunk postings i x Ex).
      rewrite (nth_lookup_Some _ _ _ _ Ex).
      apply bit_cast_as_bytes. by apply (Forall_lookup_1 _ _ _ _ in_range_postings Ex).
    + apply andb_false_iff in Eb as [Eb|Eb]; apply N.leb_gt in Eb; nia.
Qed.

Lemma advance_at i :
  i ≤ count → advance (cursor_at body i) = cursor_at body (S i).
Proof using fits.
  intros Hi. unfold advance, cursor_at. cbn [m_current m_bytes]. f_equal.
  unfold size_t. rewrite N.mod_small by nia. lia.
Qed.

Lemma iter_advance_at i :
  i ≤ S count → Nat.iter i advance (cursor_at body 0) = cursor_at body i.
Proof using fits.
  intros Hi. rewrite iter_advance; [done|]. cbn [Nat.add]. nia.
Qed.

Lemma advance_to_geq_at v : in_range v → ∀ fuel i,
  i ≤ count → count - i < fuel →
  ∃ j, i ≤ j ≤ count
    ∧ advance_to_geq fuel v (cursor_at body i) = Some (Some (cursor_at body j))
    ∧ (∀ m x, i ≤ m < j → postings !! m = Some x → less x v = true)
    ∧ (∀ x, postings !! j = Some x → less x v = false).
Proof using in_range_postings fits.
  intros Hv. induction fuel as [|fuel IH]; intros i Hi Hf; [lia|].
  cbn [advance_to_geq]. rewrite value_at by done.
  destruct (less (nth i postings sentinel) v) eqn:E.
  - destruct (decide (i = count)) as [->|Hn].
    { rewrite nth_overflow in E by done. unfold sentinel in E.
      by rewrite less_max in E. }
    rewrite advance_at by done.
    destruct (IH (S i)) as (j & Hj & Ej & Hlt & Hge); [lia|lia|].
    exists j. split; [lia|]. split; [done|]. split; [|done].
    intros m x Hm Hx. destruct (decide (m = i)) as [->|Hmi].
    + by rewrite (nth_lookup_Some _ _ _ _ Hx) in E.
    + apply (Hlt m x); [lia|done].
  - exists i. split; [lia|]. split; [done|]. split; [intros; lia|].
    intros x Hx. by rewrite (nth_lookup_Some _ _ _ _ Hx) in E.
Qed.

End written.

(** X5.  Writing the postings pushed into a [RawWriter] and reading the bytes
    with a [RawReader] gives a cursor over the same postings: it has their
    number as size, [i] calls of [advance] bring it to the [i]-th posting,
    and after the last one it is empty with the sentinel as value. *)
Theorem raw_writer_reader_round_trip (postings : list T) :
  postings ≠ [] → Forall in_range postings →
  (sizeof * (N.of_nat (length postings) + 1) + 4 < 2 ^ 64)%N →
  ∃ bytes c,
    write [] (fold_left (λ w p, push p w) postings writer)
      = Some (bytes, (4 + sizeof * N.of_nat (length postings))%N)
    ∧ read bytes = Some c
    ∧ size c = N.of_nat (length postings)
    ∧ ∀ i, i ≤ length postings →
        value (Nat.iter i advance c) = Some (nth i postings sentinel)
        ∧ empty (Nat.iter i advance c) = (i =? length postings).
Proof.
  intros Hne Hr Hf.
  pose proof (write_pushed postings Hf Hne) as Hw.
  eexists _, (cursor_at (flat_map as_bytes postings) 0).
  split; [exact Hw|].
  assert (Ew : fold_left (λ w p, push p w) postings writer = BuildWriter postings).
  { pose proof (pushed postings writer) as Ep.
    destruct (fold_left _ postings writer). cbn in Ep. by rewrite Ep. }
  rewrite Ew in Hw.
  split; [by apply (read_written postings _ _ Hw)|].
  split.
  { unfold size, cursor_at. cbn [m_bytes]. rewrite body_length.
    pose proof (@sizeof_pos T _) as Sp.
    rewrite N.mul_comm, N.div_mul by lia. done. }
  intros i Hi. rewrite iter_advance_at by (done || lia).
  split; [by apply value_at|apply empty_at].
Qed.

(** X6.  On such a cursor [next] steps through the postings after the first:
    at the [i]-th posting it moves to the one that follows and returns it,
    and returns [nullopt] when there is none. *)
Theorem raw_cursor_next_enumerates (postings : list T) bytes sz c :
  Forall in_range postings →
  (sizeof * (N.of_nat (length postings) + 1) + 4 < 2 ^ 64)%N →
  write [] (BuildWriter postings) = Some (bytes, sz) →
  read bytes = Some c →
  ∀ i, i < length postings →
    next (Nat.iter i advance c) = Some (Nat.iter (S i) advance c, postings !! S i).
Proof.
  intros Hr Hf Hw Hc i Hi.
  rewrite (read_written postings _ _ Hw) in Hc. injection Hc as <-.
  rewrite !iter_advance_at by (done || lia).
  unfold next. rewrite advance_at by (done || lia).
  rewrite empty_at, value_at by (done || lia).
  destruct (S i =? length postings) eqn:E.
  - apply Nat.eqb_eq in E. rewrite lookup_ge_None_2 by lia. done.
  - apply Nat.eqb_neq in E.
    destruct (postings !! S i) as [x|] eqn:Ex; [|apply lookup_ge_None in Ex; lia].
    by rewrite (nth_lookup_Some _ _ _ _ Ex).
Qed.

(** X7.  [advance_to_geq(v)] from the [i]-th posting ends at the first posting
    from there on that is not less than [v], or at the end when every one
    is less; the loop makes at most one iteration per remaining posting. *)
Theorem raw_cursor_advance_to_geq (postings : list T) (v : T) bytes sz c i :
  Forall in_range postings → in_range v →
  (sizeof * (N.of_nat (length postings) + 1) + 4 < 2 ^ 64)%N →
  write [] (BuildWriter postings) = Some (bytes, sz) →
  read bytes = Some c →
  i ≤ length postings →
  ∃ j, i ≤ j ≤ length postings
    ∧ advance_to_geq (S (length postings - i)) v (Nat.iter i advance c)
      = Some (Some (Nat.iter j advance c))
    ∧ (∀ m x, i ≤ m < j → postings !! m = Some x → less x v = true)
    ∧ (∀ x, postings !! j = Some x → less x v = false).
Proof.
  intros Hr Hv Hf Hw Hc Hi.
  rewrite (read_written postings _ _ Hw) in Hc. injection Hc as <-.
  destruct (advance_to_geq_at postings Hr Hf v Hv (S (length postings - i)) i)
    as (j & Hj & Ej & Hlt & Hge); [done|lia|].
  exists j. rewrite !iter_advance_at by (done || lia). done.
Qed.

End writer_facts.

Section writer_examples.
Import RawCursor.

Lemma raw_writer_reader_round_trip_witness :
  ∃ bytes c,
    write [] (fold_left (λ w p, push p w) [3; 7; 300]%N writer)
      = Some (bytes, (4 + 4 * 3)%N)
    ∧ read (T:=N) bytes = Some c
    ∧ size (T:=N) c = 3%N
    ∧ ∀ i, i ≤ 3 →
        value (Nat.iter i (advance (T:=N)) c) = Some (nth i [3; 7; 300]%N (sentinel (T:=N)))
        ∧ empty (Nat.iter i (advance (T:=N)) c) = (i =? 3).
Proof.
  refine (raw_writer_reader_round_trip (T:=N) [3; 7; 300]%N _ _ _).
  - done.
  - repeat (constructor; [reflexivity|]). constructor.
  - reflexivity.
Defined.

Definition three_postings : list Byte.byte :=
  [Byte.x03; Byte.x00; Byte.x00; Byte.x00;
   Byte.x03; Byte.x00; Byte.x00; Byte.x00;
   Byte.x07; Byte.x00; Byte.x00; Byte.x00;
   Byte.x2c; Byte.x01; Byte.x00; Byte.x00].

Lemma raw_cursor_next_enumerates_witness :
  next (T:=N) (Nat.iter 1 (advance (T:=N)) {| m_current := 0; m_bytes := drop 4 three_postings |})
  = Some (Nat.iter 2 (advance (T:=N)) {| m_current := 0; m_bytes := drop 4 three_postings |},
          Some 300%N)
  ∧ next (T:=N) (Nat.iter 2 (advance (T:=N)) {| m_current := 0; m_bytes := drop 4 three_postings |})
    = Some (Nat.iter 3 (advance (T:=N)) {| m_current := 0; m_bytes := drop 4 three_postings |},
            None).
Proof.
  assert (R : Forall (in_range (T:=N)) [3; 7; 300]%N)
    by (repeat (constructor; [reflexivity|]); constructor).
  split.
  - exact (raw_cursor_next_enumerates (T:=N) [3; 7; 300]%N three_postings 16%N _
             R eq_refl eq_refl eq_refl 1 ltac:(cbn; lia)).
  - exact (raw_cursor_next_enumerates (T:=N) [3; 7; 300]%N three_postings 16%N _
             R eq_refl eq_refl eq_refl 2 ltac:(cbn; lia)).
Defined.

Lemma raw_cursor_advance_to_geq_witness :
  ∃ j, 0 ≤ j ≤ 3
    ∧ advance_to_geq (T:=N) 4 5%N (Nat.iter 0 (advance (T:=N)) {| m_current := 0; m_bytes := drop 4 three_postings |})
      = Some (Some (Nat.iter j (advance (T:=N)) {| m_current := 0; m_bytes := drop 4 three_postings |}))
    ∧ (∀ m x, 0 ≤ m < j → [3; 7; 300]%N !! m = Some x → less x 5%N = true)
    ∧ (∀ x, [3; 7; 300]%N !! j = Some x → less x 5%N = false).
Proof.
  refine (raw_cursor_advance_to_geq (T:=N) [3; 7; 300]%N 5%N three_postings 16%N _ 0 _ _ _ _ _ _).
  - repeat (constructor; [reflexivity|]). constructor.
  - reflexivity.
  - reflexivity.
  - reflexivity.
  - reflexivity.
  - lia.
Defined.

End writer_examples.


(** ** Live blocks: the vector variants for any number of terms *)

Section simd_groups.
Import LiveBlock.

(** X9.  The 128-bit variant, on a well-formed input, has a defined result
    only when there are fewer than eight positions, and then it is the
    scalar result.  With eight positions or more, the last group of its
    loop loads sixteen bytes of [scores[0]] where eight to fifteen remain. *)
Theorem avx_live_block_reads_past_end scores threshold :
  well_formed scores →
  avx_compute_live_quant16 scores threshold
  = if 8 <=? length (nth 0 scores [])
    then None
    else Some (compute_live_quant16 scores threshold).
Proof.
  intros _. destruct (Nat.leb_spec 8 (length (nth 0 scores []))) as [Hge|Hlt].
  - unfold avx_compute_live_quant16.
    rewrite avx_loop_past_end by lia. done.
  - by apply avx_short_input.
Qed.

(** X10.  The 256-bit variant, for any number of terms: the positions in full
    groups of sixteen get the bit of the saturated sum, the positions left
    over at the end the bit of the scalar loop's wrapping sum.  Its loads
    stay inside the vectors. *)
Theorem avx2_live_block_bits scores threshold :
  well_formed scores → in_u16 threshold →
  avx2_compute_live_quant16 scores threshold
  = Some (map (live_bit scores threshold) (seq 0 (16 * (length (nth 0 scores []) / 16)))
          ++ map (λ j, (threshold <=? scalar_sum scores j)%Z)
                 (seq (16 * (length (nth 0 scores []) / 16))
                      (length (nth 0 scores []) mod 16))).
Proof.
  intros Hwf Ht. unfold avx2_compute_live_quant16.
  rewrite avx2_loop_groups by (done || lia). cbn [mbind option_bind].
  rewrite scalar_loop_spec, Nat.sub_0_r. cbn [app Nat.add].
  f_equal. f_equal. f_equal. f_equal. lia.
Qed.

(** Two terms with scores 200 and 100 at each of twenty positions. *)
Definition two_term_scores : list (list Z) :=
  [replicate 20 200%Z; replicate 20 100%Z].

Lemma two_term_scores_well_formed : well_formed two_term_scores.
Proof.
  split; [done|]. apply (bool_decide_unpack _). by vm_compute.
Qed.

Lemma avx_live_block_reads_past_end_witness :
  avx_compute_live_quant16 two_term_scores 255 = None.
Proof.
  exact (avx_live_block_reads_past_end two_term_scores 255 two_term_scores_well_formed).
Defined.

Lemma avx2_live_block_bits_witness :
  avx2_compute_live_quant16 two_term_scores 255
  = Some (map (live_bit two_term_scores 255)
              (seq 0 (16 * (length (nth 0 two_term_scores []) / 16)))
          ++ map (λ j, (255 <=? scalar_sum two_term_scores j)%Z)
                 (seq (16 * (length (nth 0 two_term_scores []) / 16))
                      (length (nth 0 two_term_scores []) mod 16))).
Proof.
  apply (avx2_live_block_bits two_term_scores 255).
  - exact two_term_scores_well_formed.
  - unfold in_u16. lia.
Defined.

Lemma live_block_variants_agree_without_overflow_witness :
  compute_live_quant16 two_term_scores 255
  = map (live_bit two_term_scores 255) (seq 0 (length (nth 0 two_term_scores [])))
  ∧ avx2_compute_live_quant16 two_term_scores 255
    = Some (compute_live_quant16 two_term_scores 255).
Proof.
  destruct (live_block_variants_agree_without_overflow two_term_scores 255)
    as (H1 & H2 & _).
  - exact two_term_scores_well_formed.
  - cbn. lia.
  - unfold in_u16. lia.
  - by split.
Defined.

End simd_groups.


(** ** Query containers *)

Section container_facts.
Import Flags Json Query.

(** *** [add_threshold], [add_selection] and the lookups *)

Lemma upsert_lookup {V} k (v : V) entries : lookup_k k (upsert k v entries).2 = Some v.
Proof.
  unfold lookup_k. induction entries as [|[k' v'] rest IH]; cbn.
  - by rewrite N.eqb_refl.
  - destruct (k' =? k)%N eqn:E; cbn.
    + by rewrite E.
    + destruct (upsert k v rest) as [found rest'] eqn:Eu. cbn in *. by rewrite E.
Qed.

Lemma upsert_lookup_ne {V} k k' (v : V) entries :
  k' ≠ k → lookup_k k' (upsert k v entries).2 = lookup_k k' entries.
Proof.
  intros Hne. unfold lookup_k. induction entries as [|[k1 v1] rest IH]; cbn.
  - destruct (k =? k')%N eqn:E; [apply N.eqb_eq in E; congruence|done].
  - destruct (k1 =? k)%N eqn:E; cbn.
    + apply N.eqb_eq in E. subst k1.
      destruct (k =? k')%N eqn:E'; [apply N.eqb_eq in E'; congruence|done].
    + destruct (upsert k v rest) as [found rest'] eqn:Eu. cbn in *.
      destruct (k1 =? k')%N; [done|]. exact IH.
Qed.

Lemma upsert_found {V} k (v : V) entries :
  (upsert k v entries).1 = true ↔ is_Some (lookup_k k entries).
Proof.
  unfold lookup_k. induction entries as [|[k1 v1] rest IH]; cbn.
  - split; [done|]. by intros [? ?].
  - destruct (k1 =? k)%N eqn:E; cbn.
    + split; [by eexists|done].
    + destruct (upsert k v rest) as [found rest'] eqn:Eu. cbn in *. exact IH.
Qed.

Lemma upsert_keys {V} k (v : V) entries :
  map fst (upsert k v entries).2
  = if (upsert k v entries).1 then map fst entries else map fst entries ++ [k].
Proof.
  induction entries as [|[k1 v1] rest IH]; cbn; [done|].
  destruct (k1 =? k)%N eqn:E; cbn; [done|].
  destruct (upsert k v rest) as [found rest'] eqn:Eu. cbn in *.
  rewrite IH. by destruct found.
Qed.

Lemma upsert_nodup {V} k (v : V) entries :
  NoDup (map fst entries) → NoDup (map fst (upsert k v entries).2).
Proof.
  intros Hn. rewrite upsert_keys.
  destruct (upsert k v entries).1 eqn:E; [done|].
  apply NoDup_app. split; [done|]. split; [|apply NoDup_singleton].
  intros x Hx Hk. apply list_elem_of_singleton in Hk. subst x.
  assert (F : ¬ is_Some (lookup_k k entries)).
  { intros Hs. apply upsert_found with (v := v) in Hs. congruence. }
  apply F. unfold lookup_k.
  apply list_elem_of_fmap in Hx as ([k1 v1] & -> & Hin).
  cbn [fst].
  destruct (List.find (λ pair : N * V, (pair.1 =? k1)%N) entries) as [p|] eqn:Ef.
  - cbn. by eexists.
  - apply list_elem_of_In in Hin.
    pose proof (find_none _ _ Ef _ Hin) as Hc. cbn in Hc. by rewrite N.eqb_refl in Hc.
Qed.

(** X11.  [add_threshold(k, score)] followed by [threshold]: the score is the one
    stored for [k], the other thresholds and the rest of the container are
    as before, the flag tells whether [k] had a threshold, and no second
    entry for a [k] arises. *)
Theorem add_threshold_then_threshold (k : N) (score : spec_float) (q : QueryContainer) :
  let q' := (add_threshold k score q).2 in
  threshold q' k = Some score
  ∧ (∀ k', k' ≠ k → threshold q' k' = threshold q k')
  ∧ ((add_threshold k score q).1 = true ↔ is_Some (threshold q k))
  ∧ (NoDup (map fst (thresholds q)) → NoDup (map fst (thresholds q')))
  ∧ id q' = id q ∧ query_string q' = query_string q
  ∧ processed_terms q' = processed_terms q ∧ term_ids q' = term_ids q
  ∧ selections q' = selections q.
Proof.
  cbv zeta. unfold threshold, add_threshold.
  pose proof (upsert_lookup k score (thresholds q)) as L1.
  pose proof (λ k', upsert_lookup_ne k k' score (thresholds q)) as L2.
  pose proof (upsert_found k score (thresholds q)) as L3.
  pose proof (upsert_nodup k score (thresholds q)) as L4.
  destruct (upsert k score (thresholds q)) as [found entries]. cbn in *.
  repeat split; try done; apply L3.
Qed.

(** X12.  [add_selection(k, selection)] followed by [selection], likewise. *)
Theorem add_selection_then_selection (k : N) (sel : Selection N) (q : QueryContainer) :
  let q' := (add_selection k sel q).2 in
  selection q' k = Some sel
  ∧ (∀ k', k' ≠ k → selection q' k' = selection q k')
  ∧ ((add_selection k sel q).1 = true ↔ is_Some (selection q k))
  ∧ (NoDup (map fst (selections q)) → NoDup (map fst (selections q')))
  ∧ id q' = id q ∧ query_string q' = query_string q
  ∧ processed_terms q' = processed_terms q ∧ term_ids q' = term_ids q
  ∧ thresholds q' = thresholds q.
Proof.
  cbv zeta. unfold selection, add_selection.
  pose proof (upsert_lookup k sel (selections q)) as L1.
  pose proof (λ k', upsert_lookup_ne k k' sel (selections q)) as L2.
  pose proof (upsert_found k sel (selections q)) as L3.
  pose proof (upsert_nodup k sel (selections q)) as L4.
  destruct (upsert k sel (selections q)) as [found entries]. cbn in *.
  repeat split; try done; apply L3.
Qed.

(** *** The colon format *)

Fixpoint has_colon (s : string) : bool :=
  match s with
  | EmptyString => false
  | String c rest => Ascii.eqb c ":"%char || has_colon rest
  end.

Lemma split_colon_none line : has_colon line = false → split_colon line = None.
Proof.
  induction line as [|c rest IH]; cbn; [done|].
  intros E. apply orb_false_iff in E as [-> E]. by rewrite IH.
Qed.

Lemma split_colon_some before after :
  has_colon before = false →
  split_colon (before ++ String ":"%char after) = Some (before, after).
Proof.
  induction before as [|c rest IH]; cbn; [done|].
  intros E. apply orb_false_iff in E as [-> E]. by rewrite IH.
Qed.

Lemma split_colon_inv line before after :
  split_colon line = Some (before, after) →
  line = (before ++ String ":"%char after)%string ∧ has_colon before = false.
Proof.
  revert before. induction line as [|c rest IH]; intros before; cbn; [done|].
  destruct (Ascii.eqb c ":"%char) eqn:E.
  - apply Ascii.eqb_eq in E. subst c. by intros [= <- <-].
  - destruct (split_colon rest) as [[b a]|]; [|done].
    intros [= <- <-]. destruct (IH b eq_refl) as [-> Hb]. cbn. by rewrite E.
Qed.

(** X13.  [from_colon_format] splits a line at its first colon: what stands
    before it is the id, what follows is the query, colons included; a line
    without a colon is the query of a container without id.  Every line is
    of one of the two forms. *)
Theorem from_colon_format_splits_at_first_colon :
  (∀ before after,
     has_colon before = false →
     from_colon_format (before ++ String ":"%char after)
     = with_query_string (Some after) (with_id (Some before) empty))
  ∧ (∀ line, has_colon line = false → from_colon_format line = raw line)
  ∧ (∀ line,
       has_colon line = false
       ∨ ∃ before after,
           line = (before ++ String ":"%char after)%string ∧ has_colon before = false).
Proof.
  split; [|split].
  - intros before after Hb. unfold from_colon_format. by rewrite split_colon_some.
  - intros line Hl. unfold from_colon_format. by rewrite split_colon_none.
  - intros line. destruct (split_colon line) as [[before after]|] eqn:E.
    + right. exists before, after. by apply split_colon_inv.
    + left. clear -E. induction line as [|c rest IH]; [done|]. cbn in *.
      destruct (Ascii.eqb c ":"%char); [done|].
      destruct (split_colon rest) as [[b a]|]; [done|]. by apply IH.
Qed.

Lemma from_colon_format_splits_at_first_colon_witness :
  from_colon_format "q1:hello: world"
  = with_query_string (Some "hello: world"%string) (with_id (Some "q1"%string) empty)
  ∧ from_colon_format "no colon here" = raw "no colon here".
Proof.
  destruct from_colon_format_splits_at_first_colon as (H1 & H2 & _).
  split.
  - apply (H1 "q1"%string "hello: world"%string). reflexivity.
  - apply (H2 "no colon here"%string). reflexivity.
Defined.

End container_facts.

Section from_json_facts.
Import Flags Json Query.

(** A computation that throws nothing but the JSON library's exception. *)
Definition throws_json_only {A} (m : outcome A) : Prop :=
  ∀ e, m = Throw e → ∃ w, e = json_exception w.

(** A computation that throws nothing but [std::runtime_error] and
    [std::invalid_argument]. *)
Definition throws_documented {A} (m : outcome A) : Prop :=
  ∀ e, m = Throw e → (∃ w, e = runtime_error w) ∨ (∃ w, e = invalid_argument w).

Lemma bind_documented {A B} (m : outcome A) (f : A → outcome B) :
  throws_documented m → (∀ a, m = Ok a → throws_documented (f a)) →
  throws_documented (m ≫= f).
Proof.
  intros Hm Hf e. destruct m as [a| e'|]; cbn.
  - by apply Hf.
  - intros [= ->]. by apply Hm.
  - done.
Qed.

Lemma traverse_json_only {A B} (f : A → outcome B) l :
  (∀ x, throws_json_only (f x)) → throws_json_only (traverse f l).
Proof.
  intros Hf. induction l as [|x l IH]; intros e; cbn; [done|].
  destruct (f x) as [y|e'|] eqn:Ex; cbn; [|intros [= ->]; by apply (Hf x)|done].
  destruct (traverse f l) as [ys|e'|] eqn:El; cbn; [done| |done].
  intros [= ->]. by apply IH.
Qed.

Lemma traverse_documented {A B} (f : A → outcome B) l :
  (∀ x, throws_documented (f x)) → throws_documented (traverse f l).
Proof.
  intros Hf. induction l as [|x l IH]; intros e; cbn; [done|].
  destruct (f x) as [y|e'|] eqn:Ex; cbn; [|intros [= ->]; by apply (Hf x)|done].
  destruct (traverse f l) as [ys|e'|] eqn:El; cbn; [done| |done].
  intros [= ->]. by apply IH.
Qed.

Lemma unsigned_of_double_json_only w d : throws_json_only (unsigned_of_double w d).
Proof. intros e. unfold unsigned_of_double. repeat case_match; done. Qed.

Ltac json_only :=
  let e := fresh "e" in
  intros e; cbn;
  first [ done
        | unfold type_error; intros [= <-]; by eexists
        | by apply unsigned_of_double_json_only ].

Lemma get_size_t_json_only node : throws_json_only (get_size_t node).
Proof. destruct node; json_only. Qed.

Lemma get_uint32_json_only node : throws_json_only (get_uint32 node).
Proof. destruct node; json_only. Qed.

Lemma get_float_json_only node : throws_json_only (get_float node).
Proof. destruct node; json_only. Qed.

Lemma get_string_json_only node : throws_json_only (get_string node).
Proof. destruct node; json_only. Qed.

Lemma get_vector_json_only {T} (conv : json → outcome T) node :
  (∀ x, throws_json_only (conv x)) → throws_json_only (get_vector conv node).
Proof.
  intros Hc. destruct node; try json_only.
  cbn. by apply traverse_json_only.
Qed.

(** The helper [get] turns the library's exception into a
    [runtime_error]. *)
Lemma get_documented {T} (conv : json → outcome T) node field :
  (∀ x, throws_json_only (conv x)) → throws_documented (get conv node field).
Proof.
  intros Hc e. unfold get. destruct (find node field) as [pos|]; [|done].
  pose proof (Hc pos) as Hp. destruct (conv pos) as [x|e'|]; cbn; [done| |done].
  destruct (Hp e' eq_refl) as [w ->]. intros [= <-]. left. by eexists.
Qed.

(** The loop over a mask never reaches position 64, where [m.test] would
    throw: the bits that remain are at positions from [pos] on and below
    [pos + fuel]. *)
Lemma decode_mask_loop_no_throw fuel : ∀ m pos tp out e,
  (∀ i, N.testbit m i = true → (pos <= i < pos + N.of_nat fuel)%N) →
  decode_mask_loop fuel m pos tp out ≠ Throw e.
Proof.
  induction fuel as [|fuel IH]; intros m pos tp out e Hb.
  - assert (m = 0%N) as ->.
    { apply N.bits_inj_0. intros i. destruct (N.testbit m i) eqn:E; [|done].
      apply Hb in E. lia. }
    done.
  - cbn [decode_mask_loop]. destruct (0 <? popcount m); [|done].
    destruct (N.testbit m pos) eqn:Et.
    + destruct (out <? 2); [|done]. apply IH.
      intros i Hi. destruct (N.eq_dec i pos) as [->|Hne].
      * by rewrite N.clearbit_eq in Hi.
      * rewrite N.clearbit_neq in Hi by done. apply Hb in Hi. lia.
    + apply IH. intros i Hi. destruct (N.eq_dec i pos) as [->|Hne]; [congruence|].
      apply Hb in Hi. lia.
Qed.

Lemma decode_mask_documented mask acc : throws_documented (decode_mask mask acc).
Proof.
  intros e. unfold decode_mask.
  destruct (decode_mask_loop 64 (mask mod 2 ^ 64) 0 [0; 0]%N 0) as [[tp out]|e'|] eqn:E;
    cbn; [by destruct (out =? 2)| |done].
  exfalso. apply (decode_mask_loop_no_throw 64 (mask mod 2 ^ 64) 0 [0; 0]%N 0 e'); [|done].
  intros i Hi. split; [lia|].
  destruct (N.lt_ge_cases i 64) as [|Hge]; [lia|].
  rewrite N.mod_pow2_bits_high in Hi by lia. done.
Qed.

Lemma decode_masks_documented masks : ∀ acc, throws_documented (decode_masks masks acc).
Proof.
  induction masks as [|mask rest IH]; intros acc; cbn [decode_masks]; [done|].
  apply bind_documented; [apply decode_mask_documented|]. intros acc' _. apply IH.
Qed.

Lemma parse_threshold_entry_documented entry :
  throws_documented (parse_threshold_entry entry).
Proof.
  unfold parse_threshold_entry. destruct (negb (is_object entry)).
  { intros e [= <-]. left. by eexists. }
  apply bind_documented; [apply get_documented, get_size_t_json_only|]. intros k _.
  apply bind_documented; [apply get_documented, get_float_json_only|]. intros score _.
  destruct k, score; try done; intros e [= <-]; left; by eexists.
Qed.

Lemma parse_selections_entry_documented entry :
  throws_documented (parse_selections_entry entry).
Proof.
  unfold parse_selections_entry. destruct (negb (is_object entry)).
  { intros e [= <-]. left. by eexists. }
  apply bind_documented; [apply get_documented, get_size_t_json_only|]. intros k _.
  apply bind_documented;
    [apply get_documented; intros x; apply get_vector_json_only, get_size_t_json_only|]. intros masks _.
  destruct k, masks; try (intros e [= <-]; left; by eexists).
  apply bind_documented; [apply decode_masks_documented|]. intros [terms pairs] _. done.
Qed.

Lemma from_json_document_documented json : throws_documented (from_json_document json).
Proof.
  unfold from_json_document.
  apply bind_documented; [apply get_documented, get_string_json_only|]. intros id' _.
  apply bind_documented; [apply get_documented, get_string_json_only|]. intros raw' _.
  destruct raw'.
  all: apply bind_documented;
    [apply get_documented; intros x; apply get_vector_json_only, get_string_json_only|]; intros terms _.
  all: destruct terms.
  all: apply bind_documented;
    [apply get_documented; intros x; apply get_vector_json_only, get_uint32_json_only|]; intros ids _.
  all: destruct ids.
  all: apply bind_documented.
  all: try (intros data _; apply bind_documented).
  all: try (intros data' _; cbn; try done; intros e [= <-]; right; by eexists).
  all: destruct (find json _) as [node|]; try done.
  all: destruct (negb _); try (intros e [= <-]; left; by eexists).
  all: apply bind_documented;
    [first [apply traverse_documented, parse_threshold_entry_documented
           |apply traverse_documented, parse_selections_entry_documented]|].
  all: by intros entries _.
Qed.

(** X14.  [from_json] throws nothing but [std::runtime_error], for text that is
    not JSON or has a field of the wrong type, and [std::invalid_argument],
    for a document without query, terms and term ids. *)
Theorem from_json_throws_runtime_error_or_invalid_argument
    (parse : string → option json) (json_string : string) (e : exception) :
  from_json parse json_string = Throw e →
  (∃ w, e = runtime_error w) ∨ (∃ w, e = invalid_argument w).
Proof.
  unfold from_json.
  destruct (parse json_string) as [json|]; cbn.
  - pose proof (from_json_document_documented json) as Hd.
    destruct (from_json_document json) as [q|e'|]; cbn; [done| |done].
    destruct (Hd e' eq_refl) as [[w ->]|[w ->]]; cbn; intros [= <-]; [left|right]; by eexists.
  - intros [= <-]. left. by eexists.
Qed.

Lemma from_json_throws_runtime_error_or_invalid_argument_witness :
  (∃ w, invalid_argument "JSON must have either raw query, terms, or term IDs" = runtime_error w)
  ∨ (∃ w, invalid_argument "JSON must have either raw query, terms, or term IDs"
          = invalid_argument w).
Proof.
  apply (from_json_throws_runtime_error_or_invalid_argument
           (λ _, Some (JObject [("id"%string, JString "q1")])) "{}").
  reflexivity.
Defined.

(** A container that [from_json] returns has a query, terms or term
    ids. *)
Lemma from_json_document_has_query json q :
  from_json_document json = Ok q →
  is_Some (query_string q) ∨ is_Some (processed_terms q) ∨ is_Some (term_ids q).
Proof.
  unfold from_json_document.
  destruct (get get_string json "id") as [id'| |]; cbn; [|done..].
  destruct (get get_string json "query") as [[raw'|]| |]; cbn; [| |done..].
  all: destruct (get (get_vector get_string) json "terms") as [[terms|]| |]; cbn; [| |done..].
  all: destruct (get (get_vector get_uint32) json "term_ids") as [[ids|]| |]; cbn; [| |done..].
  all: destruct (find json "thresholds") as [ths|]; cbn.
  all: try (destruct (negb (is_array ths)); cbn; [done|];
            destruct (traverse parse_threshold_entry (items ths)); cbn; [|done..]).
  all: destruct (find json "selections") as [sels|]; cbn.
  all: try (destruct (negb (is_array sels)); cbn; [done|];
            destruct (traverse parse_selections_entry (items sels)); cbn; [|done..]).
  all: try done.
  all: intros [= <-]; destruct id'; cbn; eauto.
Qed.

(** X15.  A container that [from_json] returns has a raw query, terms or
    term ids: a document with none of the three makes it throw. *)
Theorem from_json_result_has_query
    (parse : string → option json) (json_string : string) (q : QueryContainer) :
  from_json parse json_string = Ok q →
  is_Some (query_string q) ∨ is_Some (processed_terms q) ∨ is_Some (term_ids q).
Proof.
  unfold from_json. destruct (parse json_string) as [json|]; cbn; [|done].
  pose proof (from_json_document_has_query json) as Hd.
  destruct (from_json_document json) as [q'|e'|]; cbn; [| |done].
  - intros [= <-]. by apply Hd.
  - by destruct e'.
Qed.

Lemma from_json_result_has_query_witness :
  is_Some (query_string (raw "hello")) ∨ is_Some (processed_terms (raw "hello"))
  ∨ is_Some (term_ids (raw "hello")).
Proof.
  apply (from_json_result_has_query
           (λ _, Some (JObject [("query"%string, JString "hello")])) "").
  reflexivity.
Defined.

End from_json_facts.

Section filter_terms_facts.
Import Flags Json Query.
Variable moved_from : string → string.

(** The number of terms [filter_terms] compares positions with. *)
Definition query_length (q : QueryContainer) : nat :=
  match processed_terms q with
  | Some terms => length terms
  | None =>
      match term_ids q with
      | Some ids => length ids
      | None => 0
      end
  end.

(** Terms and term ids, when both are there, are equally many (as [parse]
    leaves them), and fewer than 2^31. *)
Definition filterable (q : QueryContainer) : Prop :=
  (∀ terms ids, processed_terms q = Some terms → term_ids q = Some ids →
     length ids = length terms)
  ∧ (Z.of_nat (query_length q) < 2 ^ 31)%Z.

Lemma int_round_trip (n : nat) :
  (Z.of_nat n < 2 ^ 31)%Z → size_t_of_int (int_of_size_t (N.of_nat n)) = N.of_nat n.
Proof.
  intros Hn. unfold size_t_of_int, int_of_size_t.
  change (2 ^ 31)%Z with 2147483648%Z in *. change (2 ^ 32)%Z with 4294967296%Z.
  change (2 ^ 64)%Z with 18446744073709551616%Z.
  rewrite (Z.mod_small (Z.of_N (N.of_nat n))) by lia.
  destruct (Z.of_N (N.of_nat n) <? 2147483648)%Z eqn:E; [|apply Z.ltb_ge in E; lia].
  rewrite Z.mod_small by lia. lia.
Qed.

Lemma lookup_nth_lt {A} (l : list A) i d : i < length l → l !! i = Some (nth i l d).
Proof.
  intros Hi. destruct (l !! i) as [x|] eqn:E.
  - by rewrite (nth_lookup_Some _ _ d _ E).
  - apply lookup_ge_None in E. lia.
Qed.

Lemma filter_terms_loop_in_range (orig : list string) (ids : option (list N))
    (len : nat) (query_length : Z) (positions : list N) :
  size_t_of_int query_length = N.of_nat len →
  (∀ l, ids = Some l → length l = len) →
  Forall (λ p, N.to_nat p < len) positions →
  ∀ cur ft fi,
    (∀ ts, cur = Some ts →
       NoDup positions ∧ length ts = len
       ∧ ∀ p, p ∈ positions → ts !! N.to_nat p = orig !! N.to_nat p) →
    filter_terms_loop moved_from positions query_length cur ids ft fi
    = Ok (match cur with
          | Some _ => ft ++ map (λ p, nth (N.to_nat p) orig EmptyString) positions
          | None => ft
          end,
          match ids with
          | Some l => fi ++ map (λ p, l !!! N.to_nat p) positions
          | None => fi
          end).
Proof.
  intros Hq Hids Hr. induction Hr as [|p rest Hp Hrest IH]; intros cur ft fi Hcur.
  - cbn. by destruct cur, ids; rewrite ?app_nil_r.
  - cbn [filter_terms_loop]. rewrite Hq.
    destruct (N.of_nat len <=? p)%N eqn:E; [apply N.leb_le in E; lia|].
    assert (Hi : ∀ l, ids = Some l → l !! N.to_nat p = Some (l !!! N.to_nat p)).
    { intros l Hl. apply list_lookup_lookup_total_lt. rewrite (Hids l Hl). lia. }
    destruct cur as [ts|].
    + destruct (Hcur ts eq_refl) as (Hnd & Hlen & Hag).
      apply NoDup_cons in Hnd as [Hnp Hnd].
      assert (Ht : ts !! N.to_nat p = Some (nth (N.to_nat p) orig EmptyString)).
      { rewrite (Hag p) by left.
        apply lookup_nth_lt.
        apply lookup_lt_is_Some. rewrite <- (Hag p) by left.
        apply lookup_lt_is_Some. lia. }
      rewrite Ht. cbn [mbind outcome_bind].
      assert (Hcur' : ∀ ts', Some (<[N.to_nat p := moved_from (nth (N.to_nat p) orig EmptyString)]> ts) = Some ts' →
                NoDup rest ∧ length ts' = len
                ∧ ∀ p', p' ∈ rest → ts' !! N.to_nat p' = orig !! N.to_nat p').
      { intros ts' [= <-]. split; [done|]. split; [by rewrite length_insert|].
        intros p' Hp'. rewrite list_lookup_insert_ne.
        - apply Hag. by right.
        - intros Heq. apply N2Nat.inj in Heq. by subst p'. }
      destruct ids as [l|].
      * rewrite (Hi l eq_refl). cbn [mbind outcome_bind].
        rewrite IH by done. cbn [map]. by rewrite <- !app_assoc.
      * cbn [mbind outcome_bind]. rewrite IH by done. cbn [map]. by rewrite <- !app_assoc.
    + cbn [mbind outcome_bind]. destruct ids as [l|].
      * rewrite (Hi l eq_refl). cbn [mbind outcome_bind].
        rewrite IH by done. cbn [map]. by rewrite <- !app_assoc.
      * cbn [mbind outcome_bind]. by rewrite IH.
Qed.

Lemma filter_terms_loop_out_of_range (ids : option (list N))
    (len : nat) (query_length : Z) (positions : list N) :
  size_t_of_int query_length = N.of_nat len →
  (∀ l, ids = Some l → length l = len) →
  Exists (λ p, len ≤ N.to_nat p) positions →
  ∀ cur ft fi,
    (∀ ts, cur = Some ts → length ts = len) →
    filter_terms_loop moved_from positions query_length cur ids ft fi
    = Throw (out_of_range "Passed term position out of range").
Proof.
  intros Hq Hids. induction positions as [|p rest IH]; intros He cur ft fi Hcur.
  - by apply Exists_nil in He.
  - cbn [filter_terms_loop]. rewrite Hq.
    destruct (N.of_nat len <=? p)%N eqn:E; [done|]. apply N.leb_gt in E.
    apply Exists_cons in He as [He|He]; [lia|].
    destruct cur as [ts|].
    + destruct (ts !! N.to_nat p) as [t|] eqn:Et.
      2:{ apply lookup_ge_None in Et. rewrite (Hcur ts eq_refl) in Et. lia. }
      cbn [mbind outcome_bind]. destruct ids as [l|].
      * destruct (l !! N.to_nat p) as [i|] eqn:Ei.
        2:{ apply lookup_ge_None in Ei. rewrite (Hids l eq_refl) in Ei. lia. }
        cbn [mbind outcome_bind]. apply IH; [done|].
        intros ts' [= <-]. rewrite length_insert. by apply Hcur.
      * cbn [mbind outcome_bind]. apply IH; [done|].
        intros ts' [= <-]. rewrite length_insert. by apply Hcur.
    + cbn [mbind outcome_bind]. destruct ids as [l|].
      * destruct (l !! N.to_nat p) as [i|] eqn:Ei.
        2:{ apply lookup_ge_None in Ei. rewrite (Hids l eq_refl) in Ei. lia. }
        cbn [mbind outcome_bind]. by apply IH.
      * cbn [mbind outcome_bind]. by apply IH.
Qed.

(** X16.  [filter_terms] with positions inside the query: the term ids become
    the ids at the positions, in the order of the positions and with
    repetitions; so do the terms when no position is repeated. *)
Theorem filter_terms_selects_positions (positions : list N) (q : QueryContainer) :
  filterable q →
  Forall (λ p, N.to_nat p < query_length q) positions →
  (is_Some (processed_terms q) → NoDup positions) →
  ∃ q',
    filter_terms moved_from positions q = Ok q'
    ∧ processed_terms q'
      = (λ terms, map (λ p, nth (N.to_nat p) terms EmptyString) positions)
          <$> processed_terms q
    ∧ term_ids q'
      = (λ ids, map (λ p, ids !!! N.to_nat p) positions) <$> term_ids q
    ∧ id q' = id q ∧ query_string q' = query_string q
    ∧ thresholds q' = thresholds q ∧ selections q' = selections q.
Proof.
  intros [Hc Hl] Hr Hn. unfold filter_terms, query_length in *.
  destruct (processed_terms q) as [ts|] eqn:Et, (term_ids q) as [ids|] eqn:Ei.
  - rewrite (filter_terms_loop_in_range ts (Some ids) (length ts)); cycle 1.
    { by apply int_round_trip. }
    { intros l [= <-]. by apply Hc. }
    { done. }
    { intros ts' [= <-]. split; [by apply Hn|]. done. }
    cbn. eexists. split; [reflexivity|]. cbn. done.
  - rewrite (filter_terms_loop_in_range ts None (length ts)); cycle 1.
    { by apply int_round_trip. }
    { done. }
    { done. }
    { intros ts' [= <-]. split; [by apply Hn|]. done. }
    cbn. eexists. split; [reflexivity|]. cbn. rewrite Ei. done.
  - rewrite (filter_terms_loop_in_range [] (Some ids) (length ids)); cycle 1.
    { by apply int_round_trip. }
    { by intros l [= <-]. }
    { done. }
    { done. }
    cbn. eexists. split; [reflexivity|]. cbn. rewrite Et. done.
  - eexists. split; [reflexivity|]. rewrite Et, Ei. done.
Qed.

(** X17.  A position at or past the length of the query makes [filter_terms]
    throw [std::out_of_range], for a container whose terms and term ids,
    when both are set, are equally many, and fewer than 2^31.  (With fewer
    ids than terms, a position inside the terms but past the ids reads
    [term_ids] out of bounds before any test fails.) *)
Theorem filter_terms_out_of_range (positions : list N) (q : QueryContainer) :
  filterable q →
  is_Some (processed_terms q) ∨ is_Some (term_ids q) →
  Exists (λ p, query_length q ≤ N.to_nat p) positions →
  filter_terms moved_from positions q
  = Throw (out_of_range "Passed term position out of range").
Proof.
  intros [Hc Hl] Hs He. unfold filter_terms, query_length in *.
  destruct (processed_terms q) as [ts|] eqn:Et, (term_ids q) as [ids|] eqn:Ei.
  - rewrite (filter_terms_loop_out_of_range (Some ids) (length ts)); try done.
    + by apply int_round_trip.
    + intros l [= <-]. by apply Hc.
    + by intros ts' [= <-].
  - rewrite (filter_terms_loop_out_of_range None (length ts)); try done.
    + by apply int_round_trip.
    + by intros ts' [= <-].
  - rewrite (filter_terms_loop_out_of_range (Some ids) (length ids)); try done.
    + by apply int_round_trip.
    + by intros l [= <-].
  - destruct Hs as [[? ?]|[? ?]]; done.
Qed.

End filter_terms_facts.

Section filter_terms_examples.
Import Flags Json Query.

Definition parsed_query : QueryContainer :=
  with_processed_terms (Some ["a"; "b"; "c"; "d"]%string)
    (with_term_ids (Some [11; 12; 13; 14]%N) (raw "a b c d")).

Lemma parsed_query_filterable : filterable parsed_query.
Proof. split; [by intros ts ids [= <-] [= <-]|]. cbn. lia. Qed.

Lemma filter_terms_selects_positions_witness :
  ∃ q',
    filter_terms (λ _, EmptyString) [2; 0]%N parsed_query = Ok q'
    ∧ processed_terms q' = Some ["c"; "a"]%string
    ∧ term_ids q' = Some [13; 11]%N
    ∧ id q' = None ∧ query_string q' = Some "a b c d"%string
    ∧ thresholds q' = [] ∧ selections q' = [].
Proof.
  refine (filter_terms_selects_positions (λ _, EmptyString) [2; 0]%N parsed_query _ _ _).
  - exact parsed_query_filterable.
  - repeat (constructor; [cbn; lia|]). constructor.
  - intros _. apply (bool_decide_unpack _). by vm_compute.
Defined.

Lemma filter_terms_out_of_range_witness :
  filter_terms (λ _, EmptyString) [1; 4]%N parsed_query
  = Throw (out_of_range "Passed term position out of range").
Proof.
  apply (filter_terms_out_of_range (λ _, EmptyString) [1; 4]%N parsed_query).
  - exact parsed_query_filterable.
  - left. by eexists.
  - apply Exists_cons. right. apply Exists_cons. left. cbn. lia.
Defined.

End filter_terms_examples.

Section unique_facts.
Context {A : Type} (leb eqb : A → A → bool).
Hypothesis eqb_eq : ∀ a b, eqb a b = true ↔ a = b.
Hypothesis leb_antisym : ∀ a b, leb a b = true → leb b a = true → a = b.

Lemma unique_elem_of (l : list A) x : x ∈ alg.unique eqb l ↔ x ∈ l.
Proof using eqb_eq.
  induction l as [|a l IH]; [done|].
  destruct l as [|b l']; [done|].
  change (alg.unique eqb (a :: b :: l'))
    with (if eqb a b then alg.unique eqb (b :: l') else a :: alg.unique eqb (b :: l')).
  destruct (eqb a b) eqn:E.
  - apply eqb_eq in E. subst b. rewrite IH, !elem_of_cons. tauto.
  - rewrite elem_of_cons, IH, (elem_of_cons (b :: l')). tauto.
Qed.

(** [unique] of a sorted sequence is strictly sorted. *)
Lemma unique_strictly_sorted (l : list A) :
  StronglySorted (λ a b, leb a b = true) l →
  StronglySorted (λ a b, leb a b = true ∧ a ≠ b) (alg.unique eqb l).
Proof using eqb_eq leb_antisym.
  induction 1 as [|a l Hs IH Ha]; [constructor|].
  destruct l as [|b l']; [cbn; repeat constructor|].
  change (alg.unique eqb (a :: b :: l'))
    with (if eqb a b then alg.unique eqb (b :: l') else a :: alg.unique eqb (b :: l')).
  destruct (eqb a b) eqn:E; [done|].
  constructor; [done|].
  apply Forall_forall. intros x Hx. rewrite unique_elem_of in Hx.
  split; [by apply (proj1 (Forall_forall _ _) Ha)|].
  intros ->.
  assert (Hab : leb x b = true) by (apply (proj1 (Forall_forall _ _) Ha); left).
  assert (Hba : leb b x = true).
  { apply elem_of_cons in Hx as [->|Hx]; [done|].
    apply StronglySorted_inv in Hs as [_ Hb].
    by apply (proj1 (Forall_forall _ _) Hb). }
  assert (x = b) by (by apply leb_antisym). subst b.
  assert (eqb x x = true) by (by apply eqb_eq). congruence.
Qed.

End unique_facts.

Section request_selection_facts.
Import Flags Json Query.

Lemma pair_leb_total a b : pair_leb a b = false → pair_leb b a = true.
Proof.
  unfold pair_leb. destruct a as [a1 a2], b as [b1 b2]; cbn.
  destruct (a1 <? b1)%N eqn:E1, (a1 =? b1)%N eqn:E2, (a2 <=? b2)%N eqn:E3,
           (b1 <? a1)%N eqn:E4, (b1 =? a1)%N eqn:E5, (b2 <=? a2)%N eqn:E6; cbn; try done.
  all: repeat match goal with
         | H : (_ <? _)%N = _ |- _ => first [apply N.ltb_lt in H | apply N.ltb_ge in H]
         | H : (_ =? _)%N = _ |- _ => first [apply N.eqb_eq in H | apply N.eqb_neq in H]
         | H : (_ <=? _)%N = _ |- _ => first [apply N.leb_le in H | apply N.leb_gt in H]
         end; lia.
Qed.

Lemma pair_leb_spec a b :
  pair_leb a b = true ↔ (a.1 < b.1 ∨ (a.1 = b.1 ∧ a.2 <= b.2))%N.
Proof.
  unfold pair_leb. rewrite orb_true_iff, andb_true_iff, N.ltb_lt, N.eqb_eq, N.leb_le. done.
Qed.

Lemma pair_leb_trans a b c :
  pair_leb a b = true → pair_leb b c = true → pair_leb a c = true.
Proof. rewrite !pair_leb_spec. lia. Qed.

Lemma pair_leb_antisym a b : pair_leb a b = true → pair_leb b a = true → a = b.
Proof.
  rewrite !pair_leb_spec. destruct a, b; cbn. intros H1 H2. f_equal; lia.
Qed.

Lemma pair_eqb_eq a b : pair_eqb a b = true ↔ a = b.
Proof.
  unfold pair_eqb. rewrite andb_true_iff, !N.eqb_eq. destruct a, b; cbn.
  split; [by intros [-> ->]|by intros [= -> ->]].
Qed.

Lemma Forall2_image {A B} (R : A → B → Prop) l k :
  Forall2 R l k →
  (∀ x y y', R x y → R x y' → y = y') →
  ∀ y, y ∈ k ↔ ∃ x, x ∈ l ∧ R x y.
Proof.
  intros Hf Hfun y. induction Hf as [|x z l k Hr Hf IH].
  - split; [by intros H%elem_of_nil|]. by intros (x & H%elem_of_nil & _).
  - rewrite elem_of_cons, IH. split.
    + intros [->|(x' & Hx' & Hr')].
      * exists x. split; [left|done].
      * exists x'. split; [by right|done].
    + intros (x' & Hx' & Hr'). apply elem_of_cons in Hx' as [->|Hx'].
      * left. by apply (Hfun x).
      * right. by exists x'.
Qed.

(** The selection of a request: the term ids at the selected positions,
    in ascending order and without repetition; the pairs of term ids
    likewise, in lexicographic order. *)
Lemma request_selection_spec ids sel s :
  request_selection ids sel = Ok s →
  StronglySorted N.lt (selected_terms s)
  ∧ (∀ t, t ∈ selected_terms s
          ↔ ∃ p, p ∈ selected_terms sel ∧ ids !! N.to_nat p = Some t)
  ∧ StronglySorted (λ a b, pair_leb a b = true ∧ a ≠ b) (selected_pairs s)
  ∧ (∀ t, t ∈ selected_pairs s
          ↔ ∃ p, p ∈ selected_pairs sel
                 ∧ ids !! N.to_nat p.1 = Some t.1 ∧ ids !! N.to_nat p.2 = Some t.2).
Proof.
  unfold request_selection.
  destruct (traverse_at ids (selected_terms sel)) as [(ts & -> & Ft)|(w & -> & _)];
    cbn [mbind outcome_bind]; [|done].
  destruct (traverse_at_pairs ids (selected_pairs sel)) as [(ps & -> & Fp)|(w & -> & _)];
    cbn [mbind outcome_bind]; [|done].
  intros [= <-]. cbn [selected_terms selected_pairs].
  split; [|split; [|split]].
  - assert (S : StronglySorted (λ a b, (a <=? b)%N = true ∧ a ≠ b)
                  (alg.unique N.eqb (alg.sort N.leb ts))).
    { apply unique_strictly_sorted.
      - intros a b. apply N.eqb_eq.
      - intros a b H1%N.leb_le H2%N.leb_le. lia.
      - apply sort_sorted.
        + intros a b H1%N.leb_gt. apply N.leb_le. lia.
        + intros a b c H1%N.leb_le H2%N.leb_le. apply N.leb_le. lia. }
    clear -S. induction S as [|a l _ IH Ha]; constructor; [done|].
    eapply Forall_impl; [exact Ha|]. cbn. intros b [H1%N.leb_le H2]. lia.
  - intros t. rewrite unique_elem_of by (intros a b; apply N.eqb_eq).
    rewrite sort_perm.
    apply (Forall2_image _ _ _ Ft). intros x y y'. congruence.
  - apply unique_strictly_sorted.
    + apply pair_eqb_eq.
    + apply pair_leb_antisym.
    + apply sort_sorted; [apply pair_leb_total|apply pair_leb_trans].
  - intros t. rewrite unique_elem_of by apply pair_eqb_eq.
    rewrite sort_perm.
    apply (Forall2_image _ _ _ Fp). intros x [y1 y2] [z1 z2]; cbn. intros [? ?] [? ?].
    congruence.
Qed.

(** X18.  The selection of a request: absent unless the [Selection] flag is
    set and the container has a selection for [k]; otherwise the term ids
    at the selected positions in ascending order without repetition, and
    the pairs of term ids at the selected pairs of positions in
    lexicographic order without repetition. *)
Theorem query_request_selection (q : QueryContainer) (k : N) (flags : RequestFlagSet)
    (r : QueryRequest) :
  query q k flags = Ok r →
  (contains flags Flags.Selection = false ∨ selection q k = None → m_selection r = None)
  ∧ (∀ ids sel,
       term_ids q = Some ids → selection q k = Some sel →
       contains flags Flags.Selection = true →
       ∃ s, m_selection r = Some s
            ∧ StronglySorted N.lt (selected_terms s)
            ∧ (∀ t, t ∈ selected_terms s
                    ↔ ∃ p, p ∈ selected_terms sel ∧ ids !! N.to_nat p = Some t)
            ∧ StronglySorted (λ a b, pair_leb a b = true ∧ a ≠ b) (selected_pairs s)
            ∧ (∀ t, t ∈ selected_pairs s
                    ↔ ∃ p, p ∈ selected_pairs sel
                           ∧ ids !! N.to_nat p.1 = Some t.1
                           ∧ ids !! N.to_nat p.2 = Some t.2)).
Proof.
  unfold query, make_request. destruct (term_ids q) as [ids|]; [|done].
  destruct (selection q k) as [sel|] eqn:Es.
  - destruct (contains flags Flags.Selection) eqn:Ec.
    + destruct (request_selection ids sel) as [s| |] eqn:Er; cbn; [|done..].
      intros [= <-]. cbn [m_selection]. split.
      * intros [?|?]; done.
      * intros ids' sel' [= <-] [= <-] _. exists s. split; [done|].
        by apply request_selection_spec.
    + cbn. intros [= <-]. cbn [m_selection]. split; [done|]. by intros.
  - cbn. intros [= <-]. cbn [m_selection]. split; [done|]. by intros.
Qed.

(** X19.  A selected position outside the term ids makes [query] throw the
    [std::out_of_range] of [vector::at]. *)
Theorem query_selection_out_of_range (q : QueryContainer) (k : N) (flags : RequestFlagSet)
    (ids : list N) (sel : Selection N) :
  term_ids q = Some ids → selection q k = Some sel →
  contains flags Flags.Selection = true →
  ¬ positions_in_range ids sel →
  ∃ w, query q k flags = Throw (out_of_range w).
Proof.
  intros Ei Es Ec Hn. unfold query, make_request. rewrite Ei, Es, Ec.
  unfold request_selection.
  destruct (traverse_at ids (selected_terms sel)) as [(ts & -> & Ft)|(w & -> & _)];
    cbn [mbind outcome_bind fmap outcome_fmap]; [|by eexists].
  destruct (traverse_at_pairs ids (selected_pairs sel)) as [(ps & -> & Fp)|(w & -> & _)];
    cbn [mbind outcome_bind fmap outcome_fmap]; [|by eexists].
  exfalso. apply Hn. split.
  - clear -Ft. induction Ft as [|p t l k' Hp _ IH]; constructor; [|done].
    by apply lookup_lt_Some in Hp.
  - clear -Fp. induction Fp as [|p t l k' [H1 H2] _ IH]; constructor; [|done].
    apply lookup_lt_Some in H1, H2. done.
Qed.

Definition selecting_query : QueryContainer :=
  (add_selection 10 {| selected_terms := [2; 0; 2]%N; selected_pairs := [(1, 0); (0, 2); (1, 0)]%N |}
     (from_term_ids [5; 3; 7]%N)).2.

Lemma query_request_selection_witness :
  ∃ s, Some {| selected_terms := [5; 7]%N; selected_pairs := [(3, 5); (5, 7)]%N |} = Some s
       ∧ StronglySorted N.lt (selected_terms s)
       ∧ (∀ t, t ∈ selected_terms s
               ↔ ∃ p, p ∈ [2; 0; 2]%N ∧ [5; 3; 7]%N !! N.to_nat p = Some t).
Proof.
  destruct (query_request_selection selecting_query 10 Flags.all
              {| m_k := 10; m_threshold := None; m_term_ids := [3; 5; 7]%N;
                 m_term_weights := [Float.of_N 1; Float.of_N 1; Float.of_N 1];
                 m_selection := Some {| selected_terms := [5; 7]%N;
                                        selected_pairs := [(3, 5); (5, 7)]%N |} |})
    as [_ H]; [reflexivity|].
  destruct (H [5; 3; 7]%N
              {| selected_terms := [2; 0; 2]%N; selected_pairs := [(1, 0); (0, 2); (1, 0)]%N |}
              eq_refl eq_refl eq_refl) as (s & E & S1 & S2 & _).
  exists s. split; [exact E|]. split; [exact S1|exact S2].
Defined.

Lemma query_selection_out_of_range_witness :
  ∃ w, query (add_selection 10 {| selected_terms := [3]%N; selected_pairs := [] |}
                (from_term_ids [5; 3; 7]%N)).2 10 Flags.all
       = Throw (out_of_range w).
Proof.
  apply (query_selection_out_of_range _ 10 Flags.all [5; 3; 7]%N
           {| selected_terms := [3]%N; selected_pairs := [] |}).
  - reflexivity.
  - reflexivity.
  - reflexivity.
  - intros [H _]. apply Forall_cons in H as [H _]. cbn in H. lia.
Defined.

End request_selection_facts.


(** ** The query reader on a stream *)

Section reader_stream_facts.
Import Query Reader.
Variable parse : string → option Json.json.

(** Calls of [next] until one returns [nullopt]: the containers read.
    [fuel] bounds the number of calls. *)
Fixpoint read_all (fuel : nat) (r : QueryReader) : outcome (list QueryContainer) :=
  match fuel with
  | O => Ok []
  | S fuel' =>
      '(r', query) ← Reader.next parse r;
      match query with
      | None => Ok []
      | Some container => rest ← read_all fuel' r'; Ok (container :: rest)
      end
  end.

(** A reader on [lines] with the functions [fns] registered by [map]. *)
Definition mapping_reader (lines : list string)
    (fns : list (QueryContainer → QueryContainer)) : QueryReader :=
  fold_left (λ r fn, map_ fn r) fns (make lines).

Lemma mapping_reader_fields lines fns :
  mapping_reader lines fns
  = {| m_stream := lines; m_format := None;
       m_map_functions := fns; m_filter_functions := [] |}.
Proof.
  unfold mapping_reader.
  assert (G : ∀ r, fold_left (λ r fn, map_ fn r) fns r
              = {| m_stream := m_stream r; m_format := m_format r;
                   m_map_functions := m_map_functions r ++ fns;
                   m_filter_functions := m_filter_functions r |}).
  { induction fns as [|f fns IH]; intros r; cbn [fold_left].
    - rewrite app_nil_r. by destruct r.
    - rewrite IH. cbn. by rewrite <- app_assoc. }
  by rewrite G.
Qed.

Lemma read_all_step fuel r :
  read_all (S fuel) r
  = ('(r', query) ← Reader.next parse r;
     match query with
     | None => Ok []
     | Some container => rest ← read_all fuel r'; Ok (container :: rest)
     end).
Proof. reflexivity. Qed.

Lemma read_all_end fuel fmt fns filters :
  read_all (S fuel)
    {| m_stream := []; m_format := fmt;
       m_map_functions := fns; m_filter_functions := filters |}
  = Ok [].
Proof. reflexivity. Qed.

Lemma next_line l lines fmt fns filters :
  Reader.next parse
    {| m_stream := l :: lines; m_format := fmt;
       m_map_functions := fns; m_filter_functions := filters |}
  = match fmt with
    | Some Json =>
        q ← from_json parse l;
        Ok ({| m_stream := lines; m_format := Some Json;
               m_map_functions := fns; m_filter_functions := filters |},
            Some (fold_left (λ c fn, fn c) fns q))
    | Some Colon =>
        Ok ({| m_stream := lines; m_format := Some Colon;
               m_map_functions := fns; m_filter_functions := filters |},
            Some (fold_left (λ c fn, fn c) fns (from_colon_format l)))
    | None =>
        match from_json parse l with
        | Ok q =>
            Ok ({| m_stream := lines; m_format := Some Json;
                   m_map_functions := fns; m_filter_functions := filters |},
                Some (fold_left (λ c fn, fn c) fns q))
        | Throw _ =>
            Ok ({| m_stream := lines; m_format := Some Colon;
                   m_map_functions := fns; m_filter_functions := filters |},
                Some (fold_left (λ c fn, fn c) fns (from_colon_format l)))
        | Undefined => Undefined
        end
    end.
Proof.
  unfold Reader.next, next_query. cbn [m_stream m_format].
  destruct fmt as [[]|]; [|done|]; by destruct (from_json parse l).
Qed.

Lemma read_all_colon fns lines : ∀ filters,
  read_all (S (length lines))
    {| m_stream := lines; m_format := Some Colon;
       m_map_functions := fns; m_filter_functions := filters |}
  = Ok (map (λ l, fold_left (λ c fn, fn c) fns (from_colon_format l)) lines).
Proof.
  induction lines as [|l lines IH]; intros filters; [done|].
  cbn [length]. rewrite read_all_step, next_line. cbn [mbind outcome_bind].
  by rewrite IH.
Qed.

(** X20.  When the first line is not a JSON query, the reader reads it and every
    later line in the colon format, whatever the lines contain, and passes
    each container through the registered [map] functions in the order of
    their registration; no call throws. *)
Theorem reader_reads_colon_stream (line : string) (rest : list string)
    (fns : list (QueryContainer → QueryContainer)) (e : exception) :
  from_json parse line = Throw e →
  read_all (S (S (length rest))) (mapping_reader (line :: rest) fns)
  = Ok (map (λ l, fold_left (λ c fn, fn c) fns (from_colon_format l)) (line :: rest)).
Proof.
  intros Hj. rewrite mapping_reader_fields.
  rewrite read_all_step, next_line, Hj. cbn [mbind outcome_bind].
  by rewrite read_all_colon.
Qed.

Lemma read_all_json fns : ∀ lines filters qs,
  Forall2 (λ l q, from_json parse l = Ok q) lines qs →
  read_all (S (length lines))
    {| m_stream := lines; m_format := Some Json;
       m_map_functions := fns; m_filter_functions := filters |}
  = Ok (map (λ q, fold_left (λ c fn, fn c) fns q) qs).
Proof.
  induction lines as [|l lines IH]; intros filters qs Hf.
  - by apply Forall2_nil_inv_l in Hf as ->.
  - apply Forall2_cons_inv_l in Hf as (q & qs' & Hq & Hf & ->).
    cbn [length]. rewrite read_all_step, next_line, Hq. cbn [mbind outcome_bind].
    by rewrite (IH _ _ Hf).
Qed.

Lemma read_all_json_failure fns e bad : ∀ lines filters qs after,
  Forall2 (λ l q, from_json parse l = Ok q) lines qs →
  from_json parse bad = Throw e →
  read_all (S (length (lines ++ bad :: after)))
    {| m_stream := lines ++ bad :: after; m_format := Some Json;
       m_map_functions := fns; m_filter_functions := filters |}
  = Throw e.
Proof.
  induction lines as [|l lines IH]; intros filters qs after Hf Hb.
  - cbn [app length]. by rewrite read_all_step, next_line, Hb.
  - apply Forall2_cons_inv_l in Hf as (q & qs' & Hq & Hf & ->).
    cbn [app length]. rewrite read_all_step, next_line, Hq. cbn [mbind outcome_bind].
    by rewrite (IH _ _ after Hf Hb).
Qed.

(** X21.  When the first line is a JSON query, the format is JSON from then on:
    lines that are JSON queries are read as such, and a later line that is
    not makes [next] throw what [from_json] throws, with no return to the
    colon format. *)
Theorem reader_reads_json_stream (line : string) (rest : list string)
    (q : QueryContainer) (qs : list QueryContainer)
    (fns : list (QueryContainer → QueryContainer)) :
  from_json parse line = Ok q →
  Forall2 (λ l q, from_json parse l = Ok q) rest qs →
  read_all (S (S (length rest))) (mapping_reader (line :: rest) fns)
  = Ok (map (λ q, fold_left (λ c fn, fn c) fns q) (q :: qs))
  ∧ ∀ bad after e,
      from_json parse bad = Throw e →
      read_all (S (S (length (rest ++ bad :: after))))
        (mapping_reader (line :: rest ++ bad :: after) fns)
      = Throw e.
Proof.
  intros Hq Hf. rewrite !mapping_reader_fields. split.
  - rewrite read_all_step, next_line, Hq. cbn [mbind outcome_bind].
    by rewrite (read_all_json fns rest [] qs Hf).
  - intros bad after e Hb. rewrite mapping_reader_fields.
    rewrite read_all_step, next_line, Hq. cbn [mbind outcome_bind].
    by rewrite (read_all_json_failure fns e bad rest [] qs after Hf Hb).
Qed.

End reader_stream_facts.

Section reader_stream_examples.
Import Query Reader.

(** A parser that takes the text [j] for the JSON object with the query
    ["hello"], and nothing else. *)
Definition example_parse (s : string) : option Json.json :=
  if String.eqb s "j" then Some (Json.JObject [("query"%string, Json.JString "hello")])
  else None.

Lemma reader_reads_colon_stream_witness :
  read_all example_parse 3
    (mapping_reader ["q1:hello world"; "j"]%string [set_string "x"; set_string "y"])
  = Ok (map (λ l, fold_left (λ c fn, fn c) [set_string "x"; set_string "y"]
                    (from_colon_format l))
            ["q1:hello world"; "j"]%string).
Proof.
  apply (reader_reads_colon_stream example_parse "q1:hello world" ["j"%string]
           [set_string "x"; set_string "y"] (runtime_error "Failed to parse JSON")).
  reflexivity.
Defined.

Lemma reader_reads_json_stream_witness :
  read_all example_parse 3 (mapping_reader ["j"; "j"]%string [set_string "x"])
  = Ok (map (λ q, fold_left (λ c fn, fn c) [set_string "x"] q) [raw "hello"; raw "hello"])
  ∧ ∀ bad after e,
      from_json example_parse bad = Throw e →
      read_all example_parse (S (S (length (["j"%string] ++ bad :: after))))
        (mapping_reader ("j"%string :: ["j"%string] ++ bad :: after) [set_string "x"])
      = Throw e.
Proof.
  apply (reader_reads_json_stream example_parse "j" ["j"%string] (raw "hello") [raw "hello"]).
  - reflexivity.
  - repeat constructor.
Defined.

End reader_stream_examples.


(** ** Request flag sets *)

Section flag_set_facts.
Import Flags.

(** The bit of a flag. *)
Definition bit_index (flag : RequestFlag) : N :=
  match flag with Threshold => 0 | Weights => 1 | Selection => 2 end.

Lemma bits_pow2 flag : bits flag = (2 ^ bit_index flag)%N.
Proof. by destruct flag. Qed.

Lemma bit_index_inj f g : bit_index f = bit_index g → f = g.
Proof. by destruct f, g. Qed.

Lemma land_pow2 a k : N.land a (2 ^ k) = (if N.testbit a k then 2 ^ k else 0)%N.
Proof.
  apply N.bits_inj. intros i. rewrite N.land_spec.
  destruct (N.testbit a k) eqn:E.
  - destruct (N.eq_dec i k) as [->|Hne].
    + by rewrite E, N.pow2_bits_true.
    + rewrite N.pow2_bits_false by done. apply andb_false_r.
  - destruct (N.eq_dec i k) as [->|Hne].
    + by rewrite E, N.bits_0.
    + rewrite N.pow2_bits_false, N.bits_0 by done. apply andb_false_r.
Qed.

Lemma contains_testbit s flag : contains s flag = N.testbit (flags s) (bit_index flag).
Proof.
  unfold contains. rewrite bits_pow2, land_pow2.
  destruct (N.testbit (flags s) (bit_index flag)).
  - apply N.eqb_refl.
  - apply N.eqb_neq. pose proof (N.pow_nonzero 2 (bit_index flag)). lia.
Qed.

(** X22.  [remove] and [operator^] toggle a flag: they take it out of a set that
    has it and put it into a set that lacks it, so a second [remove] undoes
    the first; [operator|] with a flag puts it in.  No other flag
    changes. *)
Theorem flag_set_remove_toggles (s : RequestFlagSet) (flag : RequestFlag) :
  contains (remove flag s) flag = negb (contains s flag)
  ∧ remove flag (remove flag s) = s
  ∧ xor s flag = remove flag s
  ∧ contains (or_set s flag) flag = true
  ∧ ∀ other, other ≠ flag →
      contains (remove flag s) other = contains s other
      ∧ contains (or_set s flag) other = contains s other.
Proof.
  split; [|split; [|split; [|split]]].
  - rewrite !contains_testbit. unfold remove. cbn [flags].
    rewrite bits_pow2, N.lxor_spec, N.pow2_bits_true. by destruct (N.testbit _ _).
  - unfold remove. destruct s as [f]. cbn [flags]. f_equal.
    by rewrite N.lxor_assoc, N.lxor_nilpotent, N.lxor_0_r.
  - reflexivity.
  - rewrite contains_testbit. unfold or_set. cbn [flags].
    rewrite bits_pow2, N.lor_spec, N.pow2_bits_true. apply orb_true_r.
  - intros other Hne.
    assert (Hi : bit_index flag ≠ bit_index other).
    { intros E. apply Hne. symmetry. by apply bit_index_inj. }
    rewrite !contains_testbit. unfold remove, or_set. cbn [flags].
    rewrite bits_pow2, N.lxor_spec, N.lor_spec, N.pow2_bits_false by done.
    by rewrite xorb_false_r, orb_false_r.
Qed.

End flag_set_facts.


(** ** The JSON round trip of any container *)

Section round_trip_normal_form.
Import Query Json.

(** What [to_json] and [from_json] make of a pair of positions: the mask of
    [(l, l)] has one bit and is read as the term [l]; the mask of [(l, r)]
    is read as the pair with the smaller position first. *)
Definition norm_pair (p : N * N) : item :=
  if (p.1 =? p.2)%N then Single p.1 else Pair (N.min p.1 p.2) (N.max p.1 p.2).

Definition items_written (sel : Selection N) : list item :=
  map Single (selected_terms sel) ++ map norm_pair (selected_pairs sel).

(** The selection read back: the items in the order of their masks. *)
Definition read_back (sel : Selection N) : Selection N :=
  let sorted := alg.sort enc_leb (items_written sel) in
  {| selected_terms := omap single_of sorted; selected_pairs := omap pair_of sorted |}.

Definition positions_below_32 (sel : Selection N) : Prop :=
  Forall (λ t, t < 32)%N (selected_terms sel)
  ∧ Forall (λ p, p.1 < 32 ∧ p.2 < 32)%N (selected_pairs sel).

Definition item_below_32 (i : item) : Prop :=
  match i with
  | Single t => t < 32
  | Pair l r => l < r < 32
  end%N.

Lemma enc_norm_pair p : enc (norm_pair p) = N.lor (2 ^ p.1) (2 ^ p.2).
Proof.
  unfold norm_pair. destruct (p.1 =? p.2)%N eqn:E; cbn [enc].
  - apply N.eqb_eq in E. rewrite <- E. by rewrite N.lor_diag.
  - apply N.eqb_neq in E. destruct (N.le_gt_cases p.1 p.2).
    + by rewrite N.min_l, N.max_r.
    + rewrite N.min_r, N.max_l by lia. apply N.lor_comm.
Qed.

Lemma norm_pair_below_32 p : (p.1 < 32 ∧ p.2 < 32)%N → item_below_32 (norm_pair p).
Proof.
  intros [H1 H2]. unfold norm_pair. destruct (p.1 =? p.2)%N eqn:E; cbn; [done|].
  apply N.eqb_neq in E. lia.
Qed.

Lemma items_written_below_32 sel :
  positions_below_32 sel → Forall item_below_32 (items_written sel).
Proof.
  intros [Ht Hp]. unfold items_written. apply Forall_app. split.
  - apply Forall_fmap. eapply Forall_impl; [exact Ht|]. done.
  - apply Forall_fmap. eapply Forall_impl; [exact Hp|]. intros p. apply norm_pair_below_32.
Qed.

Lemma item_below_32_valid i : item_below_32 i → item_valid i.
Proof. destruct i; cbn; lia. Qed.

Lemma intersections_of_written sel :
  positions_below_32 sel → intersections_of sel = Ok (map enc (items_written sel)).
Proof.
  intros [Ht Hp]. unfold intersections_of, items_written.
  rewrite (shift_singles _ Ht). cbn [mbind outcome_bind].
  assert (traverse (λ pair, l ← shl_1U pair.1; r ← shl_1U pair.2; Ok (N.lor l r))
            (selected_pairs sel)
          = Ok (map enc (map norm_pair (selected_pairs sel)))) as ->.
  { induction Hp as [|p ps [H1 H2] _ IH]; cbn [traverse map]; [done|].
    rewrite !shl_1U_small, IH by done. cbn [mbind outcome_bind].
    by rewrite enc_norm_pair. }
  cbn [mbind outcome_bind]. by rewrite map_app.
Qed.

Lemma items_partition (X : list item) :
  map Single (omap single_of X) ++ map (λ p, Pair p.1 p.2) (omap pair_of X) ≡ₚ X.
Proof.
  induction X as [|[t|l r] X IH]; cbn; [done| |].
  - by rewrite IH.
  - rewrite <- Permutation_middle. cbn. by rewrite IH.
Qed.

Lemma sorted_items sel :
  let X := alg.sort enc_leb (items_written sel) in
  X ≡ₚ items_written sel ∧ StronglySorted (λ a b, enc_leb a b = true) X.
Proof.
  split; [apply sort_perm|].
  apply sort_sorted; [apply enc_leb_total|apply enc_leb_trans].
Qed.

Lemma read_back_canonical sel :
  positions_below_32 sel → canonical_selection (read_back sel).
Proof.
  intros Hb. destruct (sorted_items sel) as [PX SX].
  pose proof (items_written_below_32 sel Hb) as VX. rewrite <- PX in VX.
  unfold read_back. set (X := alg.sort enc_leb (items_written sel)) in *.
  unfold canonical_selection. cbn [selected_terms selected_pairs].
  split; [|split; [|split]].
  - apply StronglySorted_Sorted.
    apply (omap_sorted single_of (λ a b, enc_leb a b = true)); [|done].
    intros [x|] [y|] x' y' Ex Ey; cbn in Ex, Ey; try done. simplify_eq.
    unfold enc_leb. cbn [enc]. rewrite N.leb_le.
    by apply N.pow_le_mono_r_iff.
  - apply Forall_forall. intros t Ht.
    apply list_elem_of_omap in Ht as ([t'|] & Hi & Ei); [|done].
    cbn in Ei. simplify_eq. rewrite Forall_forall in VX. apply (VX _ Hi).
  - apply Forall_forall. intros p Hp.
    apply list_elem_of_omap in Hp as ([|l r] & Hi & Ei); [done|].
    cbn in Ei. simplify_eq. rewrite Forall_forall in VX. apply (VX _ Hi).
  - apply StronglySorted_Sorted.
    assert (S : StronglySorted (λ p q, pair_mask p ≤ pair_mask q)%N (omap pair_of X)).
    { apply (omap_sorted pair_of (λ a b, enc_leb a b = true)); [|done].
      intros [|xl xr] [|yl yr] x' y' Ex Ey; cbn in Ex, Ey; try done. simplify_eq.
      unfold enc_leb, pair_mask. cbn [enc fst snd]. by rewrite N.leb_le. }
    clear -S. induction S as [|p ps _ IH Hall]; [constructor|].
    cbn [map]. constructor; [done|].
    apply Forall_forall. intros m Hm. apply list_elem_of_fmap in Hm as (q & -> & Hq).
    rewrite Forall_forall in Hall. by apply Hall.
Qed.

(** The masks of the selection read back are the masks written. *)
Lemma masks_read_back sel :
  alg.sort N.leb (map enc (items_of (read_back sel)))
  = alg.sort N.leb (map enc (items_written sel)).
Proof.
  destruct (sorted_items sel) as [PX SX].
  apply (StronglySorted_unique_strong (λ a b, (a <=? b)%N = true)).
  - intros a b _ _ H1%N.leb_le H2%N.leb_le. lia.
  - apply sort_sorted.
    + intros a b H1%N.leb_gt. apply N.leb_le. lia.
    + intros a b c H1%N.leb_le H2%N.leb_le. apply N.leb_le. lia.
  - apply sort_sorted.
    + intros a b H1%N.leb_gt. apply N.leb_le. lia.
    + intros a b c H1%N.leb_le H2%N.leb_le. apply N.leb_le. lia.
  - rewrite !sort_perm. unfold items_of, read_back. cbn [selected_terms selected_pairs].
    by rewrite items_partition, PX.
Qed.

Lemma read_back_of_canonical sel : canonical_selection sel → read_back sel = sel.
Proof.
  intros Hc. pose proof Hc as (St & Ht & Hp & Sp).
  assert (Ew : items_written sel = items_of sel).
  { unfold items_written, items_of. f_equal. apply map_ext_in. intros p Hin.
    apply list_elem_of_In in Hin. rewrite Forall_forall in Hp. specialize (Hp p Hin).
    unfold norm_pair. destruct (p.1 =? p.2)%N eqn:E; [apply N.eqb_eq in E; lia|].
    by rewrite N.min_l, N.max_r by lia. }
  pose proof (decode_sorted_masks sel Hc) as D.
  rewrite sort_map in D. fold enc_leb in D. rewrite <- Ew in D.
  destruct (sorted_items sel) as [PX SX].
  rewrite decode_items in D.
  - cbn [fst snd app] in D. unfold read_back. injection D as -> ->. by destruct sel.
  - rewrite PX, Ew. by apply items_of_valid.
Qed.

(** The container read back: every selection in the form read back. *)
Definition normal_form (q : QueryContainer) : QueryContainer :=
  with_selections (map (λ e, (e.1, read_back e.2)) (selections q)) q.

Lemma write_normal_form_entries entries :
  Forall (λ e : N * Selection N, positions_below_32 e.2) entries →
  traverse (λ entry : N * Selection N,
              intersections_vec ← intersections_of entry.2;
              Ok (JObject [("k"%string, JUnsigned entry.1);
                           ("intersections"%string,
                            JArray (map JUnsigned (alg.sort N.leb intersections_vec)))]))
           entries
  = Ok (map selection_entry (map (λ e, (e.1, read_back e.2)) entries)).
Proof.
  induction 1 as [|e es He _ IH]; cbn [map traverse]; [done|].
  rewrite intersections_of_written, IH by done. cbn [mbind outcome_bind].
  unfold selection_entry at 2. cbn [fst snd]. by rewrite masks_read_back.
Qed.

Lemma to_json_normal_form q :
  Forall (λ e : N * Selection N, (e.1 < 2 ^ 64)%N ∧ positions_below_32 e.2) (selections q) →
  to_json (normal_form q) = to_json q.
Proof.
  intros Hb.
  assert (Hw : Forall (λ e : N * Selection N, positions_below_32 e.2) (selections q)).
  { eapply Forall_impl; [exact Hb|]. by intros e [_ H]. }
  assert (Hn : Forall selection_ok (map (λ e, (e.1, read_back e.2)) (selections q))).
  { apply Forall_fmap. eapply Forall_impl; [exact Hb|]. intros e [Hk Hp].
    split; [done|]. by apply read_back_canonical. }
  apply write_selection_entries in Hn. apply write_normal_form_entries in Hw.
  unfold normal_form, to_json.
  cbn [id query_string processed_terms term_ids thresholds selections with_selections].
  destruct (selections q) as [|se ses] eqn:Es; [done|].
  rewrite <- Es in *.
  assert (En : ∃ ne nes, map (λ e : N * Selection N, (e.1, read_back e.2)) (selections q)
                         = ne :: nes) by (rewrite Es; cbn; eauto).
  destruct En as (ne & nes & En). rewrite En in *. rewrite Hn.
  rewrite Es in *. by rewrite Hw.
Qed.

(** X23.  Writing a container as JSON and reading it back succeeds for every
    container that has a query string, processed terms or term ids, whose
    strings are well-formed UTF-8, whose term ids fit 32 bits, whose
    threshold and selection keys fit 64 bits, whose threshold scores are
    finite floats and whose selected positions are below 32.  The
    container read back differs only in its selections:
    each has its terms and pairs in the order of their bitmasks, a pair
    [(l, l)] turned into the term [l] and a pair [(l, r)] with [l > r] turned
    into [(r, l)].  Writing and reading that container again changes
    nothing, and a container whose selections are already in this form is
    read back unchanged. *)
Theorem json_round_trip_normal_form (q : QueryContainer) :
  (is_Some (query_string q) ∨ is_Some (processed_terms q) ∨ is_Some (term_ids q)) →
  strings_ok q →
  (∀ ids, term_ids q = Some ids → Forall (λ t, t < 2 ^ 32)%N ids) →
  Forall threshold_ok (thresholds q) →
  Forall (λ e : N * Selection N, (e.1 < 2 ^ 64)%N ∧ positions_below_32 e.2) (selections q) →
  json_round_trip q = Ok (normal_form q)
  ∧ json_round_trip (normal_form q) = Ok (normal_form q)
  ∧ (Forall (λ e : N * Selection N, canonical_selection e.2) (selections q) →
     normal_form q = q).
Proof.
  intros H1 Hs H2 H3 H4.
  assert (R : json_round_trip (normal_form q) = Ok (normal_form q)).
  { apply json_round_trip_of_round_trippable. unfold round_trippable, strings_ok, normal_form.
    cbn [id query_string processed_terms term_ids thresholds selections with_selections].
    split; [done|]. split; [done|]. split; [done|]. split; [done|].
    apply Forall_fmap. eapply Forall_impl; [exact H4|]. intros e [Hk Hp].
    split; [done|]. by apply read_back_canonical. }
  split; [|split; [done|]].
  - rewrite <- R at 1. unfold json_round_trip, to_json_string.
    by rewrite to_json_normal_form.
  - intros Hc. unfold normal_form. destruct q as [oi os ot oids ths sels].
    unfold with_selections. cbn [id query_string processed_terms term_ids thresholds selections] in *.
    f_equal. clear -Hc. induction Hc as [|[k sel] es He _ IH]; cbn [map]; [done|].
    cbn [fst snd] in *. by rewrite read_back_of_canonical, IH.
Qed.

End round_trip_normal_form.

Section round_trip_normal_form_examples.
Import Query Json.

(** A query with an id, four terms and their ids, a threshold for k = 10
    and a selection for k = 10 whose terms and pairs are in no particular
    order. *)
Definition unordered_query : QueryContainer :=
  (add_selection 10 {| selected_terms := [2; 0]%N;
                       selected_pairs := [(3, 0); (1, 1); (1, 2)]%N |}
     (add_threshold 10 (Float.of_N 3)
        (with_processed_terms (Some ["a"; "b"; "c"; "d"]%string)
           (with_term_ids (Some [11; 12; 13; 14]%N)
              (from_colon_format "q1:a b c d"%string)))).2).2.

Lemma json_round_trip_normal_form_witness :
  (json_round_trip unordered_query = Ok (normal_form unordered_query)
   ∧ json_round_trip (normal_form unordered_query) = Ok (normal_form unordered_query)
   ∧ (Forall (λ e : N * Selection N, canonical_selection e.2) (selections unordered_query) →
      normal_form unordered_query = unordered_query))
  ∧ selections (normal_form unordered_query)
    = [(10, {| selected_terms := [0; 1; 2]; selected_pairs := [(1, 2); (0, 3)] |})]%N.
Proof.
  split; [|reflexivity].
  apply json_round_trip_normal_form.
  - right. right. vm_compute. eauto.
  - split; [|split].
    + intros s [= <-]. reflexivity.
    + intros s [= <-]. reflexivity.
    + intros ts [= <-]. repeat (constructor; [reflexivity|]). constructor.
  - intros ids [= <-]. repeat constructor.
  - repeat constructor.
  - repeat constructor; cbn; lia.
Defined.

End round_trip_normal_form_examples.

